(** * KHInsider album downloader: a shallow embedding of [downloader.py]

    The development follows the source file top to bottom:

    - Python text ([str]) as a list of Unicode scalar values, with the
      string operations the program calls ([replace], [split], [strip],
      [in], [endswith], [os.path.join], [os.path.basename]);
    - [urllib.parse.quote] / [urllib.parse.unquote], down to the UTF-8
      encoder and the decoder with [errors='replace'];
    - the configuration dictionary and [load_config];
    - a state-and-exception monad over a [World] (network requests issued,
      sleeps, files, directories, log) for [safe_request],
      [get_album_info], [get_track_download_url], [download_file],
      [download_track] and [download_album].
    - the parts of [main]: the arguments written over the configuration,
      the list of URLs to process, the prompt, and the loop over the
      albums.

    What the program delegates to libraries and to the outside (the answers
    of the network, the HTML parser, [float()], [str.upper], mutagen and the
    rights on the file system) is a parameter of the section that holds the
    effectful code. *)

From Stdlib Require Import ZArith QArith Qabs Lia String Ascii List DecimalString SpecFloat.
From stdpp Require Import gmap strings list fin_maps.

Open Scope Z_scope.

(* ===================================================================== *)
(** * Python text *)
(* ===================================================================== *)

(** A code point that UTF-8 can encode: everything up to U+10FFFF except
    the surrogates.  The text that [html.parser] hands to the program is
    made of such code points. *)
Definition is_scalar (c : Z) : bool :=
  ((0 <=? c) && (c <? 0xD800)) || ((0xE000 <=? c) && (c <=? 0x10FFFF)).

Record char := Char { code : Z; code_scalar : is_scalar code = true }.

(** [chr] of an integer; an integer that is no scalar value becomes
    U+FFFD (the decoder below never produces one). *)
Definition chr (c : Z) : char :=
  match Bool.bool_dec (is_scalar c) true with
  | left H => Char c H
  | right _ => Char 0xFFFD eq_refl
  end.

Definition str := list char.

(** A literal of the source, written as a Rocq string of ASCII characters. *)
Definition lit (x : string) : str :=
  map (fun a => chr (Z.of_N (N_of_ascii a))) (list_ascii_of_string x).

Definition codes (s : str) : list Z := map code s.

Definition char_eqb (a b : char) : bool := code a =? code b.

#[global] Instance char_eq_dec : EqDecision char.
Proof.
  intros [x Hx] [y Hy]. destruct (decide (x = y)) as [E | N].
  - left. subst y. f_equal. apply (proof_irrel Hx Hy).
  - right. intros [= E]. exact (N E).
Defined.

#[global] Instance char_countable : Countable char.
Proof.
  refine (inj_countable' code chr _).
  intros [x Hx]. unfold chr. cbn [code].
  destruct (Bool.bool_dec (is_scalar x) true) as [H | H]; [| contradiction].
  f_equal. apply (proof_irrel H Hx).
Defined.

(** ** The string methods the program calls *)

(** [s.startswith(p)] *)
Fixpoint startswith (p s : str) : bool :=
  match p, s with
  | [], _ => true
  | _ :: _, [] => false
  | a :: p', b :: s' => char_eqb a b && startswith p' s'
  end.

(** [s.endswith(p)] *)
Definition endswith (p s : str) : bool := startswith (rev p) (rev s).

(** [sub in s] *)
Fixpoint contains (sub s : str) : bool :=
  match s with
  | [] => startswith sub []
  | _ :: t => startswith sub s || contains sub t
  end.

(** [s.replace(old, new)] for a non-empty [old]: occurrences are found from
    the left and do not overlap.  [skip] counts the characters of the
    occurrence being replaced that are still to be dropped. *)
Fixpoint replace_from (old new s : str) (skip : nat) : str :=
  match s with
  | [] => []
  | c :: t =>
      match skip with
      | S k => replace_from old new t k
      | O =>
          if startswith old s
          then new ++ replace_from old new t (length old - 1)
          else c :: replace_from old new t O
      end
  end.

(** With an empty [old], Python puts [new] before every character and at the
    end. *)
Definition str_replace (old new s : str) : str :=
  match old with
  | [] => flat_map (fun c => new ++ [c]) s ++ new
  | _ :: _ => replace_from old new s O
  end.

(** [s.split(sep)] for a non-empty [sep]; [cur] is the piece being read, in
    reverse. *)
Fixpoint split_from (sep s : str) (skip : nat) (cur : str) : list str :=
  match s with
  | [] => [rev cur]
  | c :: t =>
      match skip with
      | S k => split_from sep t k cur
      | O =>
          if startswith sep s
          then rev cur :: split_from sep t (length sep - 1) []
          else split_from sep t O (c :: cur)
      end
  end.

Definition str_split (sep s : str) : list str := split_from sep s O [].

(** [str.isspace] on one character: the code points Python strips. *)
Definition is_space (c : char) : bool :=
  let z := code c in
  ((0x09 <=? z) && (z <=? 0x0D)) || ((0x1C <=? z) && (z <=? 0x20))
  || (z =? 0x85) || (z =? 0xA0) || (z =? 0x1680)
  || ((0x2000 <=? z) && (z <=? 0x200A))
  || (z =? 0x2028) || (z =? 0x2029) || (z =? 0x202F) || (z =? 0x205F)
  || (z =? 0x3000).

Fixpoint lstrip (s : str) : str :=
  match s with
  | c :: t => if is_space c then lstrip t else s
  | [] => []
  end.

(** [s.strip()] *)
Definition strip (s : str) : str := rev (lstrip (rev (lstrip s))).

(** ** [os.path] on a POSIX host *)

Definition slash : char := chr 47.

(** [os.path.join(a, b)] *)
Definition path_join (a b : str) : str :=
  if startswith [slash] b then b
  else if bool_decide (a = []) || endswith [slash] a then a ++ b
  else a ++ slash :: b.

(** [os.path.basename(p)]: what follows the last ['/']. *)
Fixpoint basename (p : str) : str :=
  match p with
  | [] => []
  | c :: t => if existsb (char_eqb slash) t then basename t
              else if char_eqb slash c then t else p
  end.

(** [f"{n:02d}"]: decimal digits, padded with a zero to two places. *)
Definition format_02d (n : Z) : str :=
  let d := lit (NilZero.string_of_uint (N.to_uint (Z.to_N (Z.abs n)))) in
  if n <? 0 then chr 45 :: d
  else if n <? 10 then chr 48 :: d
  else d.

(* ===================================================================== *)
(** * [urllib.parse.quote] and [urllib.parse.unquote] *)
(* ===================================================================== *)

(** Bytes are integers in [0, 256). *)

(** [str.encode('utf-8')], one code point at a time. *)
Definition utf8_encode_char (c : Z) : list Z :=
  if c <? 0x80 then [c]
  else if c <? 0x800 then
    [Z.lor 0xC0 (Z.shiftr c 6); Z.lor 0x80 (Z.land c 0x3F)]
  else if c <? 0x10000 then
    [Z.lor 0xE0 (Z.shiftr c 12);
     Z.lor 0x80 (Z.land (Z.shiftr c 6) 0x3F);
     Z.lor 0x80 (Z.land c 0x3F)]
  else
    [Z.lor 0xF0 (Z.shiftr c 18);
     Z.lor 0x80 (Z.land (Z.shiftr c 12) 0x3F);
     Z.lor 0x80 (Z.land (Z.shiftr c 6) 0x3F);
     Z.lor 0x80 (Z.land c 0x3F)].

Definition utf8_encode (s : str) : list Z :=
  flat_map (fun c => utf8_encode_char (code c)) s.

(** [bytes.decode('utf-8', 'replace')] as a machine that reads one byte at a
    time.  [Need n acc lo hi]: a sequence is open, its next byte has to lie
    in [lo, hi], and [n] more continuation bytes follow that one. *)
Inductive dstate :=
| Start
| Need (n : nat) (acc lo hi : Z).

Definition replacement : Z := 0xFFFD.

(** A byte read outside a sequence. *)
Definition decode_lead (b : Z) : list Z * dstate :=
  if b <? 0x80 then ([b], Start)
  else if (0xC2 <=? b) && (b <=? 0xDF) then ([], Need 0 (Z.land b 0x1F) 0x80 0xBF)
  else if b =? 0xE0 then ([], Need 1 (Z.land b 0x0F) 0xA0 0xBF)
  else if b =? 0xED then ([], Need 1 (Z.land b 0x0F) 0x80 0x9F)
  else if (0xE1 <=? b) && (b <=? 0xEF) then ([], Need 1 (Z.land b 0x0F) 0x80 0xBF)
  else if b =? 0xF0 then ([], Need 2 (Z.land b 0x07) 0x90 0xBF)
  else if b =? 0xF4 then ([], Need 2 (Z.land b 0x07) 0x80 0x8F)
  else if (0xF1 <=? b) && (b <=? 0xF3) then ([], Need 2 (Z.land b 0x07) 0x80 0xBF)
  else ([replacement], Start).

(** One byte: the code points it completes and the next state.  A byte that
    cannot continue the open sequence closes it with U+FFFD and is read
    again as a lead byte. *)
Definition decode_step (st : dstate) (b : Z) : list Z * dstate :=
  match st with
  | Start => decode_lead b
  | Need n acc lo hi =>
      if (lo <=? b) && (b <=? hi) then
        let acc' := Z.lor (Z.shiftl acc 6) (Z.land b 0x3F) in
        match n with
        | O => ([acc'], Start)
        | S m => ([], Need m acc' 0x80 0xBF)
        end
      else
        let (out, st') := decode_lead b in (replacement :: out, st')
  end.

Fixpoint decode_from (st : dstate) (bs : list Z) : list Z :=
  match bs with
  | [] => match st with Start => [] | Need _ _ _ _ => [replacement] end
  | b :: t => let (out, st') := decode_step st b in out ++ decode_from st' t
  end.

Definition utf8_decode (bs : list Z) : str := map chr (decode_from Start bs).

(** [_ALWAYS_SAFE]: letters, digits and [_.-~]. *)
Definition always_safe (b : Z) : bool :=
  ((65 <=? b) && (b <=? 90)) || ((97 <=? b) && (b <=? 122))
  || ((48 <=? b) && (b <=? 57))
  || (b =? 95) || (b =? 46) || (b =? 45) || (b =? 126).

(** One digit of ['%{:02X}'.format(b)]. *)
Definition hex_digit (d : Z) : Z := if d <? 10 then 48 + d else 55 + d.

(** [_Quoter.__missing__]: the byte itself, or [%XX]. *)
Definition quote_byte (safe : list Z) (b : Z) : list Z :=
  if always_safe b || existsb (Z.eqb b) safe then [b]
  else [37; hex_digit (Z.shiftr b 4); hex_digit (Z.land b 15)].

(** [quote_from_bytes(bs, safe)] *)
Definition quote_from_bytes (safe : list Z) (bs : list Z) : str :=
  map chr (flat_map (quote_byte safe) bs).

(** [urllib.parse.quote(string, safe)]: the characters of [safe] that are
    not ASCII are dropped, the string is encoded as UTF-8 and quoted byte by
    byte. *)
Definition quote (safe : str) (string : str) : str :=
  quote_from_bytes (List.filter (fun b => b <? 128) (codes safe)) (utf8_encode string).

(** The value of a hexadecimal digit ([_hexdig] has both cases). *)
Definition hex_value (c : Z) : option Z :=
  if (48 <=? c) && (c <=? 57) then Some (c - 48)
  else if (65 <=? c) && (c <=? 70) then Some (c - 55)
  else if (97 <=? c) && (c <=? 102) then Some (c - 87)
  else None.

(** [_unquote_impl]: every [%] followed by two hexadecimal digits becomes
    the byte they denote; any other [%] stays. *)
Fixpoint unquote_to_bytes (bs : list Z) : list Z :=
  match bs with
  | [] => []
  | b :: t =>
      if b =? 37 then
        match t with
        | h1 :: h2 :: rest =>
            match hex_value h1, hex_value h2 with
            | Some x, Some y => 16 * x + y :: unquote_to_bytes rest
            | _, _ => b :: unquote_to_bytes t
            end
        | _ => b :: unquote_to_bytes t
        end
      else b :: unquote_to_bytes t
  end.

Definition is_ascii (c : char) : bool := code c <? 128.

(** The maximal runs of ASCII and of non-ASCII characters of a string, in
    order ([_asciire.finditer] and what lies between its matches). *)
Fixpoint ascii_runs (s : str) : list (bool * str) :=
  match s with
  | [] => []
  | c :: t =>
      match ascii_runs t with
      | (k, r) :: rest =>
          if Bool.eqb k (is_ascii c) then (k, c :: r) :: rest
          else (is_ascii c, [c]) :: (k, r) :: rest
      | [] => [(is_ascii c, [c])]
      end
  end.

(** One part of [_generate_unquoted_parts]: an ASCII run is unquoted and
    decoded, the rest is copied. *)
Definition unquote_part (p : bool * str) : str :=
  if fst p then utf8_decode (unquote_to_bytes (utf8_encode (snd p))) else snd p.

(** [urllib.parse.unquote(string)] *)
Definition unquote (string : str) : str :=
  if negb (existsb (char_eqb (chr 37)) string) then string
  else flat_map unquote_part (ascii_runs string).

(** Lines 229-233 and 241-243: decode, then encode with [/] and [:] kept. *)
Definition normalize_url (url : str) : str :=
  quote (lit "/:") (unquote url).

(* ===================================================================== *)
(** * Configuration (lines 36-73) *)
(* ===================================================================== *)

(** A JSON value as [json.load] returns it; numbers are exact rationals. *)
#[warnings="-register-all"]
Inductive json :=
| JNull
| JBool (b : bool)
| JNum (q : Q)
| JStr (s : str)
| JArr (l : list json)
| JObj (o : list (str * json)).

Inductive level := INFO | WARNING | ERROR.

(** [DEFAULT_CONFIG]; [home] is [os.path.expanduser('~')]. *)
Definition DEFAULT_CONFIG (home : str) : gmap str json :=
  <[lit "output_directory" := JStr (path_join home (lit "E:\Musique"))]>
  (<[lit "max_threads" := JNum 3]>
  (<[lit "format_preference" := JArr [JStr (lit "flac"); JStr (lit "mp3")]]>
  (<[lit "include_track_number" := JBool true]>
  (<[lit "retry_attempts" := JNum 3]>
  (<[lit "retry_delay" := JNum 5]> ∅))))).

(** What [load_config] finds at [CONFIG_FILE].  [Broken]: the file is there
    and the [try] block raises (it cannot be read, it is no JSON, or
    [dict.update] rejects the value).  [Object o]: [json.load] returns the
    dictionary [o].  (A JSON array of pairs, which [dict.update] takes as
    well, is left out of the model.) *)
Inductive config_file :=
| NoFile
| Broken
| Object (o : gmap str json).

(** [merged_config.update(config)]: the entries of [config] are written
    over those of the copy of the defaults. *)
Definition dict_update (d config : gmap str json) : gmap str json :=
  config ∪ d.

(** [load_config()]: the dictionary returned and the lines logged. *)
Definition load_config (home : str) (f : config_file) : gmap str json * list level :=
  match f with
  | NoFile => (DEFAULT_CONFIG home, [])
  | Object config => (dict_update (DEFAULT_CONFIG home) config, [])
  | Broken => (DEFAULT_CONFIG home, [WARNING])
  end.

(** The six entries at the types the downloader reads them at. *)
Record Config := {
  output_directory : str;
  max_threads : Z;
  format_preference : list str;
  include_track_number : bool;
  retry_attempts : Z;
  retry_delay : Q
}.

(* ===================================================================== *)
(** * The outside world *)
(* ===================================================================== *)

(** Exceptions.  [HTTPError] (what [urlopen] raises for a 4xx or 5xx
    status) is a subclass of [URLError] in [urllib.error]; [OtherError]
    stands for every exception class outside that family (a timeout while
    the response is read, [OSError], [ValueError], ...). *)
Inductive exn :=
| URLError (reason : string)
| HTTPError (status : Z)
| OtherError (name : string).

(** [isinstance(e, urllib.error.URLError)] *)
Definition is_URLError (e : exn) : bool :=
  match e with
  | URLError _ | HTTPError _ => true
  | OtherError _ => false
  end.

Inductive result (A : Type) :=
| Ok (a : A)
| Raise (e : exn).
Arguments Ok {A} a.
Arguments Raise {A} e.

(** The [Content-Length] header of a response. *)
Inductive header :=
| NoHeader
| NotANumber
| Length (n : Z).

(** What one call of [response.read(chunk_size)] gives: that many bytes
    ([Bytes 0] is the empty chunk), or an exception. *)
Inductive read :=
| Bytes (n : Z)
| ReadError (e : exn).

(** A response: its header and what the successive reads return; a read
    past the end of [body] returns the empty chunk. *)
Record response := {
  content_length : header;
  body : list read
}.

(** The album page as the program looks at it. *)
Record anchor := { href : option str; text : str }.

Record album_page := {
  (** the text of the first [h2] *)
  h2 : option str;
  (** the element with id [songlist]: for every [tr], the first [a] of each
      [td] of class [clickable-row] *)
  songlist : option (list (list (option anchor)))
}.

(** A link of the detail page with the text of its parent. *)
Record dlink := { a_text : str; a_href : option str; a_parent : option str }.

Record detail_page := {
  (** the texts of the [b] elements of the first [p align="left"] *)
  title_bolds : option (list str);
  (** all the [a] elements, in document order *)
  links : list dlink;
  (** the first [audio] element and its [src] *)
  audio : option (option str)
}.

(** What the program does not decide itself. *)
Class Outside := {
  (** what [urlopen(url)] does when [n] requests were made before *)
  urlopen_answer : nat -> str -> result response;
  (** [BeautifulSoup(response)] seen as an album page, as a detail page *)
  soup_album : response -> result album_page;
  soup_detail : response -> result detail_page;
  (** [float(s)], as the exact value of the float returned; [None] is
      [ValueError].  An infinity, which no rational is the value of, is any
      rational beyond the range of floats: [float_of_Q] rounds it back. *)
  float_of : str -> option Q;
  (** [s.upper()] *)
  upper : str -> str;
  (** whether [open(path, 'wb')] succeeds *)
  can_open : str -> bool;
  (** whether [os.makedirs(path)] succeeds *)
  can_mkdir : str -> bool;
  (** [os.path.getsize] of a directory *)
  dir_size : str -> Z;
  (** [set_metadata(file_path, track_filename, album_info, track_number)] on
      a file of the given size ([None]: no regular file there): the size
      after tagging and the line logged *)
  tagged : str -> str -> str -> option Z -> option Z -> Z * level
}.

(** What lies at a path: a regular file of some size, or a directory. *)
Inductive entry :=
| File (size : Z)
| Dir.

(** The state the program acts on. *)
Record World := {
  (** the URLs given to [urlopen], the latest first *)
  requests : list str;
  (** the arguments of [time.sleep], the latest first *)
  sleeps : list Q;
  (** the file system *)
  files : gmap str entry;
  (** the levels of the lines logged, the latest first *)
  log : list level
}.

Definition M (A : Type) : Type := World -> result A * World.

Definition ret {A} (a : A) : M A := fun w => (Ok a, w).

Definition raise {A} (e : exn) : M A := fun w => (Raise e, w).

Definition bind {A B} (m : M A) (k : A -> M B) : M B :=
  fun w => match m w with
           | (Ok a, w') => k a w'
           | (Raise e, w') => (Raise e, w')
           end.

(** [try: m except Exception as e: h e] *)
Definition try_except {A} (m : M A) (h : exn -> M A) : M A :=
  fun w => match m w with
           | (Ok a, w') => (Ok a, w')
           | (Raise e, w') => h e w'
           end.

Notation "'do' x '<-' m ';' k" := (bind m (fun x => k))
  (at level 10, x name, m at level 100, k at level 200).
Notation "'run' m ';' k" := (bind m (fun _ => k))
  (at level 10, m at level 100, k at level 200).

Definition lift {A} (r : result A) : M A := fun w => (r, w).

Definition logger (l : level) : M unit :=
  fun w => (Ok tt, {| requests := requests w; sleeps := sleeps w;
                      files := files w; log := l :: log w |}).

(** The longest sleep the clock of the interpreter holds: [2^63 - 1]
    nanoseconds. *)
Definition sleep_max : Q := 9223372036854775807 # 1000000000.

(** What [time.sleep(d)] raises instead of sleeping: [OverflowError] for a
    delay the clock cannot hold, [ValueError] for a negative one. *)
Definition sleep_error (d : Q) : option exn :=
  if Qle_bool d sleep_max && Qle_bool (- sleep_max) d then
    if Qle_bool 0 d then None else Some (OtherError "ValueError")
  else Some (OtherError "OverflowError").

(** [time.sleep(d)]: the sleeps that take place are recorded. *)
Definition sleep (d : Q) : M unit :=
  fun w => match sleep_error d with
           | Some e => (Raise e, w)
           | None => (Ok tt, {| requests := requests w; sleeps := d :: sleeps w;
                                files := files w; log := log w |})
           end.

Definition set_files (f : gmap str entry) (w : World) : World :=
  {| requests := requests w; sleeps := sleeps w; files := f; log := log w |}.

(** [os.path.exists(p)] *)
Definition path_exists (p : str) : M bool :=
  fun w => (Ok (bool_decide (is_Some (files w !! p))), w).

(* ===================================================================== *)
(** * The program *)
(* ===================================================================== *)

(** [BASE_URL] *)
Definition BASE_URL : str := lit "https://downloads.khinsider.com".

(** [validate_url(url)] (lines 86-93) *)
Definition validate_url (url : str) : bool :=
  if bool_decide (strip url = []) then false
  else if negb (contains (lit "//downloads.khinsider.com/game-soundtracks/album/") url)
  then false
  else true.

(** [sanitize_filename(filename)] (lines 446-452) *)
Definition forbidden_chars : list str :=
  [lit "\"; lit "/"; lit ":"; lit "*"; lit "?"; [chr 34]; lit "<"; lit ">"; lit "|"].

Definition sanitize_filename (filename : str) : str :=
  fold_left (fun name char => str_replace char (lit "_") name) forbidden_chars filename.

(** A track of the album (lines 155-158) and the album (lines 122-126). *)
Record track := { name : str; url : str }.

Record album_info := {
  title : str;
  album_url : str;
  tracks : list track
}.

(** What [get_track_download_url] returns (lines 217-222). *)
Record track_info := {
  ti_url : str;
  ti_format : str;
  ti_title : str;
  ti_size : Q
}.

(** The track of one row of the song list (lines 141-159): the first link of
    the first clickable cell, when it has a non-empty [href]. *)
Definition row_track (row : list (option anchor)) : list track :=
  match row with
  | Some link :: _ =>
      match href link with
      | Some h =>
          if bool_decide (h = []) then []
          else [{| name := strip (text link); url := BASE_URL ++ h |}]
      | None => []
      end
  | _ => []
  end.

(** Lines 184-196: the second bold element of the paragraph, else the file
    name of the URL with [%20] read as a space and a final [.mp3] removed. *)
Definition track_title_of (detail_url : str) (page : detail_page) : str :=
  let found :=
    match title_bolds page with
    | Some (_ :: b :: _) => Some (strip b)
    | _ => None
    end in
  match found with
  | Some (c :: t) => c :: t
  | _ =>
      let t := str_replace (lit "%20") (lit " ") (basename detail_url) in
      if endswith (lit ".mp3") t then take (length t - 4) t else t
  end.

Section Program.
Context `{Outside}.

(** [urllib2.urlopen(url)]: the request is recorded and answered. *)
Definition urlopen (url : str) : M response :=
  fun w =>
    (urlopen_answer (length (requests w)) url,
     {| requests := url :: requests w; sleeps := sleeps w;
        files := files w; log := log w |}).

(** The loop of [safe_request] (lines 98-108) from [attempt] on, with
    [left] iterations to go. *)
Fixpoint safe_request_from (left : nat) (attempt : Z) (url : str)
    (retry_count : Z) (retry_delay : Q) : M (option response) :=
  match left with
  | O => ret None
  | S left' =>
      try_except
        (do r <- urlopen url; ret (Some r))
        (fun e =>
           if is_URLError e then
             run logger WARNING;
             if attempt <? retry_count - 1 then
               run logger INFO;
               run sleep retry_delay;
               safe_request_from left' (attempt + 1) url retry_count retry_delay
             else
               run logger ERROR;
               raise e
           else raise e)
  end.

(** [safe_request(url, retry_count, retry_delay)]; [None] is what Python
    returns when the loop ends without a [return]. *)
Definition safe_request (url : str) (retry_count : Z) (retry_delay : Q)
    : M (option response) :=
  safe_request_from (Z.to_nat retry_count) 0 url retry_count retry_delay.

(** [BeautifulSoup(response, ...)]; [BeautifulSoup(None)] raises. *)
Definition album_soup (r : option response) : M album_page :=
  match r with
  | Some r => lift (soup_album r)
  | None => raise (OtherError "TypeError")
  end.

Definition detail_soup (r : option response) : M detail_page :=
  match r with
  | Some r => lift (soup_detail r)
  | None => raise (OtherError "TypeError")
  end.

(** [get_album_info(url, config)] (lines 111-167) *)
Definition get_album_info (url : str) (config : Config) : M (option album_info) :=
  try_except
    (do response <- safe_request url (retry_attempts config) (retry_delay config);
     do soup <- album_soup response;
     let album_title :=
       sanitize_filename
         (match h2 soup with Some t => strip t | None => lit "Unknown Album" end) in
     match songlist soup with
     | None => run logger ERROR; ret None
     | Some rows =>
         run logger INFO;
         ret (Some {| title := album_title; album_url := url;
                      tracks := flat_map row_track rows |})
     end)
    (fun _ => run logger ERROR; ret None).

(** Lines 208-215: the size announced next to a link, [0] when there is
    none that [float] reads. *)
Definition link_size (link : dlink) : Q :=
  let size_text := match a_parent link with Some t => t | None => [] end in
  if contains (lit "MB") size_text then
    match str_split (lit "(") size_text with
    | _ :: piece :: _ =>
        match str_split (lit " MB") piece with
        | size_str :: _ =>
            match float_of size_str with Some q => q | None => 0%Q end
        | [] => 0%Q
        end
    | _ => 0%Q
    end
  else 0%Q.

(** Line 204: the test on the text of a link. *)
Definition link_matches (format_type : str) (link : dlink) : bool :=
  negb (bool_decide (a_text link = []))
  && contains (lit "Click here to download as " ++ upper format_type) (a_text link).

(** Lines 202-222 for one link. *)
Definition scan_link (track_title format_type : str)
    (download_links : gmap str track_info) (link : dlink) : gmap str track_info :=
  if link_matches format_type link then
    match a_href link with
    | Some h =>
        if bool_decide (h = []) then download_links
        else <[format_type :=
                 {| ti_url := h; ti_format := format_type;
                    ti_title := track_title; ti_size := link_size link |}]>
             download_links
    | None => download_links
    end
  else download_links.

(** Lines 199-222: the dictionary of the labelled links. *)
Definition scan_links (track_title : str) (format_preference : list str)
    (page : detail_page) : gmap str track_info :=
  fold_left
    (fun download_links format_type =>
       fold_left (scan_link track_title format_type) (links page) download_links)
    format_preference ∅.

(** Lines 225-235: the first format of the list that is in the
    dictionary, its URL normalized. *)
Fixpoint first_available (format_preference : list str)
    (download_links : gmap str track_info) : option track_info :=
  match format_preference with
  | [] => None
  | format_type :: rest =>
      match download_links !! format_type with
      | Some info =>
          Some {| ti_url := normalize_url (ti_url info);
                  ti_format := ti_format info;
                  ti_title := ti_title info;
                  ti_size := ti_size info |}
      | None => first_available rest download_links
      end
  end.

(** Line 249 *)
Definition flac_url_of (audio_src : str) : str :=
  str_replace (lit ".mp3") (lit ".flac") audio_src.

(** Lines 238-268: the [audio] element. *)
Definition audio_fallback (track_title : str) (format_preference : list str)
    (audio_src : str) : M track_info :=
  let audio_src := normalize_url audio_src in
  let mp3 := {| ti_url := audio_src; ti_format := lit "mp3";
                ti_title := track_title; ti_size := 0 |} in
  if bool_decide (lit "flac" ∈ format_preference) then
    let flac_url := flac_url_of audio_src in
    try_except
      (run urlopen flac_url;
       ret {| ti_url := flac_url; ti_format := lit "flac";
              ti_title := track_title; ti_size := 0 |})
      (fun _ => ret mp3)
  else ret mp3.

(** Lines 183-272, once the page is parsed. *)
Definition resolve_page (detail_url : str) (format_preference : list str)
    (page : detail_page) : M (option track_info) :=
  let track_title := track_title_of detail_url page in
  match first_available format_preference
          (scan_links track_title format_preference page) with
  | Some info => ret (Some info)
  | None =>
      match audio page with
      | Some (Some (c :: src)) =>
          do info <- audio_fallback track_title format_preference (c :: src);
          ret (Some info)
      | _ => run logger WARNING; ret None
      end
  end.

(** [get_track_download_url(track_url, format_preference)] (lines 170-276) *)
Definition get_track_download_url (track_url : str) (format_preference : list str)
    : M (option track_info) :=
  try_except
    (let detail_url := track_url in
     do response <- safe_request detail_url 3 5;
     do soup <- detail_soup response;
     resolve_page detail_url format_preference soup)
    (fun _ => run logger ERROR; ret None).

(** [os.path.getsize(p)] *)
Definition getsize (p : str) : M Z :=
  fun w => match files w !! p with
           | Some (File n) => (Ok n, w)
           | Some Dir => (Ok (dir_size p), w)
           | None => (Raise (OtherError "OSError"), w)
           end.

(** [open(p, 'wb')]: the file is created or emptied. *)
Definition open_wb (p : str) : M unit :=
  fun w => match files w !! p with
           | Some Dir => (Raise (OtherError "OSError"), w)
           | _ => if can_open p
                  then (Ok tt, set_files (<[p := File 0]> (files w)) w)
                  else (Raise (OtherError "OSError"), w)
           end.

(** [f.write(chunk)] for a chunk of [n] bytes. *)
Definition write (p : str) (n : Z) : M unit :=
  fun w => match files w !! p with
           | Some (File k) => (Ok tt, set_files (<[p := File (k + n)]> (files w)) w)
           | _ => (Raise (OtherError "OSError"), w)
           end.

(** [os.makedirs(p)] *)
Definition makedirs (p : str) : M unit :=
  fun w => match files w !! p with
           | Some _ => (Raise (OtherError "FileExistsError"), w)
           | None => if can_mkdir p
                     then (Ok tt, set_files (<[p := Dir]> (files w)) w)
                     else (Raise (OtherError "OSError"), w)
           end.

(** Python floats are IEEE 754 binary64 numbers: 53 bits of precision,
    exponents below 1024, results rounded to the nearest, ties to even. *)
Definition float := spec_float.

Definition float_of_int (z : Z) : float :=
  match z with
  | Z0 => S754_zero false
  | Zpos p => S754_finite false p 0
  | Zneg p => S754_finite true p 0
  end.

(** [a / b] on two integers: the quotient, rounded once. *)
Definition true_div (a b : Z) : float :=
  SFdiv 53 1024 (float_of_int a) (float_of_int b).

(** The float nearest to a rational: the float itself when the rational is
    the value of one, and what a decimal literal such as [0.1] denotes. *)
Definition float_of_Q (q : Q) : float := true_div (Qnum q) (Zpos (Qden q)).

(** Lines 285-286: [existing_size = getsize / (1024 * 1024)] and
    [abs(existing_size - expected_size) < 0.1], in floats. *)
Definition size_close (bytes : Z) (expected_size : Q) : bool :=
  let existing_size := true_div bytes (1024 * 1024) in
  SFltb (SFabs (SFsub 53 1024 existing_size (float_of_Q expected_size)))
        (float_of_Q (1 # 10)).

(** Truth value of [expected_size]: zero stands for a size that is not
    known. *)
Definition size_known (expected_size : Q) : bool := negb (Qeq_bool expected_size 0).

(** Lines 284-289: whether the attempt ends on the file that is there. *)
Definition skip_check (file_path : str) (expected_size : Q) : M bool :=
  do there <- path_exists file_path;
  if there && size_known expected_size then
    do existing <- getsize file_path;
    if size_close existing expected_size then run logger INFO; ret true
    else ret false
  else ret false.

(** Line 293 *)
Definition total_size_of (r : response) : M Z :=
  match content_length r with
  | NoHeader => ret 0
  | NotANumber => raise (OtherError "ValueError")
  | Length n => ret n
  end.

(** Lines 301-308: the chunks are written as they come; the result is
    [downloaded]. *)
Fixpoint stream (reads : list read) (file_path : str) (downloaded : Z) : M Z :=
  match reads with
  | [] => ret downloaded
  | Bytes n :: rest =>
      if n <=? 0 then ret downloaded
      else run write file_path n; stream rest file_path (downloaded + n)
  | ReadError e :: _ => raise e
  end.

(** Lines 292-311: [total_size] and [downloaded]. *)
Definition transfer (url file_path : str) : M (Z * Z) :=
  do response <- safe_request url 3 5;
  match response with
  | None => raise (OtherError "AttributeError")
  | Some response =>
      do total_size <- total_size_of response;
      run open_wb file_path;
      do downloaded <- stream (body response) file_path 0;
      ret (total_size, downloaded)
  end.

(** How one iteration of the loop of [download_file] ends. *)
Inductive outcome :=
| Return (v : option bool)
| Continue.

(** The body of the loop of [download_file] (lines 282-335). *)
Definition download_attempt (url file_path : str) (expected_size : Q)
    (attempt retry_count : Z) (retry_delay : Q) : M outcome :=
  try_except
    (do skip <- skip_check file_path expected_size;
     if skip then ret (Return (Some true))
     else
       do sizes <- transfer url file_path;
       let total_size := fst sizes in
       let downloaded := snd sizes in
       if (0 <? total_size) && negb (total_size =? downloaded) then
         run logger WARNING;
         if attempt <? retry_count - 1 then
           run logger INFO; run sleep retry_delay; ret Continue
         else ret (Return (Some false))
       else run logger INFO; ret (Return (Some true)))
    (fun _ =>
       run logger ERROR;
       if attempt <? retry_count - 1 then
         run logger INFO; run sleep retry_delay; ret Continue
       else run logger ERROR; ret (Return (Some false))).

Fixpoint download_file_from (left : nat) (attempt : Z) (url file_path : str)
    (expected_size : Q) (retry_count : Z) (retry_delay : Q) : M (option bool) :=
  match left with
  | O => ret None
  | S left' =>
      do o <- download_attempt url file_path expected_size attempt retry_count retry_delay;
      match o with
      | Return v => ret v
      | Continue =>
          download_file_from left' (attempt + 1) url file_path
            expected_size retry_count retry_delay
      end
  end.

(** [download_file(url, file_path, expected_size, retry_count, retry_delay)]
    (lines 279-335); [None] is what Python returns when the loop ends
    without a [return]. *)
Definition download_file (url file_path : str) (expected_size : Q)
    (retry_count : Z) (retry_delay : Q) : M (option bool) :=
  download_file_from (Z.to_nat retry_count) 0 url file_path
    expected_size retry_count retry_delay.

(** [set_metadata] (lines 338-361): the tags are written in place. *)
Definition set_metadata (file_path track_filename : str) (album : album_info)
    (track_number : option Z) : M unit :=
  fun w =>
    match files w !! file_path with
    | Some (File n) =>
        let r := tagged file_path track_filename (title album) track_number (Some n) in
        logger (snd r) (set_files (<[file_path := File (fst r)]> (files w)) w)
    | _ =>
        logger (snd (tagged file_path track_filename (title album) track_number None)) w
    end.

(** Lines 374-376 *)
Definition track_filename_of (t : track) (config : Config)
    (track_number : option Z) : str :=
  match track_number with
  | Some n =>
      if include_track_number config
      then format_02d n ++ lit " - " ++ name t
      else name t
  | None => name t
  end.

(** Line 378 *)
Definition file_path_of (t : track) (info : track_info) (output_dir : str)
    (config : Config) (track_number : option Z) : str :=
  path_join output_dir
    (track_filename_of t config track_number ++ lit "." ++ ti_format info).

(** [download_track(track, album_info, output_dir, config, track_number)]
    (lines 364-396) *)
Definition download_track (t : track) (album : album_info) (output_dir : str)
    (config : Config) (track_number : option Z) : M (option bool) :=
  try_except
    (do found <- get_track_download_url (url t) (format_preference config);
     match found with
     | None => run logger ERROR; ret (Some false)
     | Some info =>
         let track_filename := track_filename_of t config track_number in
         let file_path := file_path_of t info output_dir config track_number in
         do success <- download_file (ti_url info) file_path (ti_size info)
                         (retry_attempts config) (retry_delay config);
         match success with
         | Some true =>
             run set_metadata file_path track_filename album track_number;
             ret success
         | _ => ret success
         end
     end)
    (fun _ => run logger ERROR; ret (Some false)).

(** A call handed to the executor (lines 431-433): the track and the
    number bound to it when it is submitted. *)
Record task := { position : nat; task_track : track; task_number : Z }.

(** Lines 429-434: [enumerate(album_info['tracks'])], numbers from one. *)
Definition submit (tracks : list track) : list task :=
  imap (fun i t => {| position := i; task_track := t;
                      task_number := Z.of_nat i + 1 |}) tracks.

Definition run_task (album : album_info) (output_dir : str) (config : Config)
    (t : task) : M (nat * option bool) :=
  do r <- download_track (task_track t) album output_dir config (Some (task_number t));
  ret (position t, r).

(** The calls left when the scheduler has no more to say run in the order
    of submission. *)
Fixpoint run_in_order (album : album_info) (output_dir : str) (config : Config)
    (pending : list task) : M (list (nat * option bool)) :=
  match pending with
  | [] => ret []
  | t :: rest =>
      do r <- run_task album output_dir config t;
      do rs <- run_in_order album output_dir config rest;
      ret (r :: rs)
  end.

(** The executor.  The order in which the submitted calls run is not the
    program's to choose: [schedule] holds the choices of the scheduler,
    each one picking among the calls still pending.  Calls are taken as
    running one after the other. *)
Fixpoint run_pool (schedule : list nat) (album : album_info) (output_dir : str)
    (config : Config) (pending : list task) : M (list (nat * option bool)) :=
  match schedule with
  | [] => run_in_order album output_dir config pending
  | c :: schedule' =>
      match pending !! (c mod length pending)%nat with
      | None => ret []
      | Some t =>
          do r <- run_task album output_dir config t;
          do rs <- run_pool schedule' album output_dir config
                     (delete (c mod length pending)%nat pending);
          ret (r :: rs)
      end
  end.

(** [future.result()] of the call submitted at [position]. *)
Definition future_result (done : list (nat * option bool)) (position : nat)
    : option bool :=
  match find (fun r => Nat.eqb (fst r) position) done with
  | Some r => snd r
  | None => None
  end.

(** Lines 437-439 *)
Definition count_successes (done : list (nat * option bool)) (n : nat) : nat :=
  length (filter (fun i => future_result done i = Some true) (seq 0 n)).

(** Lines 415-421 *)
Definition make_output_dirs (config : Config) (album_output_dir : str) : M unit :=
  do there <- path_exists (output_directory config);
  run (if there then ret tt else makedirs (output_directory config));
  do there <- path_exists album_output_dir;
  if there then ret tt else makedirs album_output_dir.

(** [download_album(album_url, config)] (lines 399-443) under the choices
    [schedule] of the scheduler. *)
Definition download_album (schedule : list nat) (album_url : str) (config : Config)
    : M bool :=
  if negb (validate_url album_url) then run logger ERROR; ret false
  else
    run logger INFO;
    do found <- get_album_info album_url config;
    match found with
    | None => run logger ERROR; ret false
    | Some album =>
        if bool_decide (tracks album = []) then run logger ERROR; ret false
        else
          let album_output_dir := path_join (output_directory config) (title album) in
          run make_output_dirs config album_output_dir;
          run logger INFO;
          if max_threads config <=? 0 then raise (OtherError "ValueError")
          else
            do done <- run_pool schedule album album_output_dir config
                         (submit (tracks album));
            let success_count := count_successes done (length (tracks album)) in
            run logger INFO;
            ret (Nat.eqb success_count (length (tracks album)))
    end.
End Program.

(* ===================================================================== *)
(** * The command line ([main], lines 455-529) *)
(* ===================================================================== *)

(** What [parser.parse_args()] returns (lines 462-471); [None] is an option
    that was not given. *)
Record Args := {
  arg_url : option str;
  arg_input_file : option str;
  arg_output_dir : option str;
  arg_threads : option Z;
  arg_format : option str;
  arg_no_track_numbers : bool;
  arg_save_config : bool
}.

(** Lines 474-481: the configuration dictionary updated with the arguments.
    An empty string and the number zero are false in a condition. *)
Definition apply_args (args : Args) (config : gmap str json) : gmap str json :=
  let config :=
    match arg_output_dir args with
    | Some (c :: s) => <[lit "output_directory" := JStr (c :: s)]> config
    | _ => config
    end in
  let config :=
    match arg_threads args with
    | Some n => if n =? 0 then config
                else <[lit "max_threads" := JNum (inject_Z n)]> config
    | None => config
    end in
  let config :=
    match arg_format args with
    | Some (c :: s) =>
        <[lit "format_preference" := JArr (map JStr (str_split (lit ",") (c :: s)))]> config
    | _ => config
    end in
  if arg_no_track_numbers args
  then <[lit "include_track_number" := JBool false]> config
  else config.

(** Lines 497-500: what one line of the input file adds to the list. *)
Definition url_of_line (line : str) : list str :=
  let stripped := strip line in
  if negb (bool_decide (stripped = [])) && negb (startswith (lit "#") stripped)
  then [stripped] else [].

(** What reading the input file gives: the lines the loop went through,
    and whether an exception ended it ([open] fails, or a line cannot be
    decoded). *)
Record input_file := { lines : list str; read_fails : bool }.

(** Lines 487-503: the URLs to process. *)
Definition collect_urls (args : Args) (input : input_file) : M (list str) :=
  let urls_to_process :=
    match arg_url args with Some (c :: s) => [c :: s] | _ => [] end in
  match arg_input_file args with
  | Some (c :: p) =>
      do there <- path_exists (c :: p);
      if there then
        let urls_to_process := urls_to_process ++ flat_map url_of_line (lines input) in
        if read_fails input then run logger ERROR; ret urls_to_process
        else ret urls_to_process
      else ret urls_to_process
  | _ => ret urls_to_process
  end.

(** How the loop of lines 512-521 ends: on a URL, on [sys.exit(0)], or on
    the [EOFError] of [input()] when nothing more is typed. *)
Inductive prompt_end :=
| Chosen (chosen : str)
| Exited
| EndOfInput.

Section Prompt.
(** [s.lower()] *)
Variable lower : str -> str.

(** Lines 512-521 on the answers typed; what is printed is left out. *)
Fixpoint prompt (answers : list str) : prompt_end :=
  match answers with
  | [] => EndOfInput
  | answer :: rest =>
      if bool_decide (lower answer = lit "q") then Exited
      else if validate_url answer then Chosen answer
      else prompt rest
  end.
End Prompt.

Section Albums.
Context `{Outside}.

(** Lines 524-527: the albums are downloaded one after the other;
    [schedules] holds the choices of the scheduler for each of them. *)
Fixpoint download_all (schedules : list (list nat)) (urls_to_process : list str)
    (config : Config) (success_count : nat) : M nat :=
  match urls_to_process with
  | [] => ret success_count
  | album :: rest =>
      do ok <- download_album (hd [] schedules) album config;
      download_all (tl schedules) rest config
        (if ok then S success_count else success_count)
  end.

(** Lines 523-529 *)
Definition process_urls (schedules : list (list nat)) (urls_to_process : list str)
    (config : Config) : M nat :=
  do success_count <- download_all schedules urls_to_process config 0;
  run logger INFO;
  ret success_count.
End Albums.

(* ===================================================================== *)
(** * Notions used in the statements *)
(* ===================================================================== *)

(** ** Bytes and characters of a URL *)

Definition is_byte (b : Z) : Prop := 0 <= b < 256.

Definition is_ascii_code (b : Z) : Prop := 0 <= b < 128.

(** The characters a quoted URL is made of: the unreserved ones (the
    hexadecimal digits of an escape are among them), [/], [:] and [%]. *)
Definition url_safe_code (b : Z) : Prop :=
  always_safe b = true \/ b = 47 \/ b = 58 \/ b = 37.

(** ** Worlds *)

(** [w'] comes after [w]: nothing that was on disk is gone, and the requests
    made are those of [w] with more in front. *)
Definition grows (w w' : World) : Prop :=
  (forall p, is_Some (files w !! p) -> is_Some (files w' !! p))
  /\ exists more, requests w' = more ++ requests w.

(** A computation that only ever adds to the world. *)
Definition steady {A} (m : M A) : Prop := forall w, grows w (snd (m w)).

Definition logged (l : list level) (w : World) : World :=
  {| requests := requests w; sleeps := sleeps w; files := files w; log := l ++ log w |}.

Definition slept (d : Q) (w : World) : World :=
  {| requests := requests w; sleeps := d :: sleeps w; files := files w; log := log w |}.

(** The world after one more request. *)
Definition requested (u : str) (w : World) : World :=
  {| requests := u :: requests w; sleeps := sleeps w; files := files w; log := log w |}.

(** ** Requests *)

Section RequestNotions.
Context `{Outside}.

(** What the network answers to the [i]-th request made from [w] on. *)
Definition answer_from (w : World) (url : str) (i : nat) : result response :=
  urlopen_answer (length (requests w) + i) url.

(** The answers [safe_request] tries again after: the exceptions of the
    [URLError] family, [HTTPError] among them. *)
Definition retried (r : result response) : bool :=
  match r with
  | Raise e => is_URLError e
  | Ok _ => false
  end.

(** What [safe_request] hands to its caller for the answer it stops on. *)
Definition handed (r : result response) : result (option response) :=
  match r with
  | Ok x => Ok (Some x)
  | Raise e => Raise e
  end.
End RequestNotions.

(** The world after one failed attempt of [safe_request] that is tried again. *)
Definition one_failure (url : str) (delay : Q) (w : World) : World :=
  {| requests := url :: requests w; sleeps := delay :: sleeps w;
     files := files w; log := INFO :: WARNING :: log w |}.

Fixpoint after_failures (url : str) (delay : Q) (k : nat) (w : World) : World :=
  match k with
  | O => w
  | S k' => after_failures url delay k' (one_failure url delay w)
  end.

(** ** Transfers *)

(** The bytes a body delivers when every read gives a non-empty chunk. *)
Definition total_of (chunks : list Z) : Z := fold_right Z.add 0 chunks.

(** Nothing on disk that the skip check would take for the track. *)
Definition no_skip (file_path : str) (expected_size : Q) (w : World) : Prop :=
  size_known expected_size = false
  \/ match files w !! file_path with
     | None => True
     | Some (File s) => size_close s expected_size = false
     | Some Dir => False
     end.

(** ** Labelled links *)

Section ResolverNotions.
Context `{Outside}.

(** A labelled download link for [format_type]: its text holds
    "Click here to download as" followed by the format in upper case, and
    it has a non-empty [href]. *)
Definition labelled (format_type : str) (link : dlink) : bool :=
  link_matches format_type link
  && match a_href link with Some (_ :: _) => true | _ => false end.

Definition has_candidate (page : detail_page) (format_type : str) : bool :=
  existsb (labelled format_type) (links page).

(** The labelled link of a format that the scan ends on: the last one of
    the page. *)
Definition pick (format_type : str) (acc : option dlink) (link : dlink) : option dlink :=
  if labelled format_type link then Some link else acc.

Definition last_labelled (format_type : str) (page : detail_page) : option dlink :=
  fold_left (pick format_type) (links page) None.

(** The candidate built from a labelled link (lines 217-222). *)
Definition candidate (track_title format_type : str) (link : dlink) : track_info :=
  {| ti_url := match a_href link with Some h => h | None => [] end;
     ti_format := format_type;
     ti_title := track_title;
     ti_size := link_size link |}.

Definition normalized (info : track_info) : track_info :=
  {| ti_url := normalize_url (ti_url info); ti_format := ti_format info;
     ti_title := ti_title info; ti_size := ti_size info |}.

(** What the dictionary holds once a link was picked. *)
Definition with_pick (track_title format_type : str) (acc : option dlink)
    (m : gmap str track_info) : gmap str track_info :=
  match acc with
  | Some link => <[format_type := candidate track_title format_type link]> m
  | None => m
  end.

(** What is known of an entry of the results of the executor: a call
    submitted for it ran and returned it, and the world only grew since. *)
Definition ran (album : album_info) (dir : str) (config : Config)
    (pending : list task) (w' : World) (entry : nat * option bool) : Prop :=
  exists t wa wb,
    In t pending /\ position t = fst entry
    /\ download_track (task_track t) album dir config (Some (task_number t)) wa
       = (Ok (snd entry), wb)
    /\ grows wb w'.
End ResolverNotions.

(** A URL that holds one level of encoding at most, as the specification
    words the result of the normalization: what decoding it once gives has
    nothing left to decode. *)
Definition single_encoded (u : str) : Prop := unquote (unquote u) = unquote u.

(** The derivation of the FLAC URL as the specification words it: the
    [.mp3] at the end of the source becomes [.flac]. *)
Definition replace_mp3_suffix (audio_src : str) : str :=
  if endswith (lit ".mp3") audio_src
  then take (length audio_src - 4) audio_src ++ lit ".flac"
  else audio_src.

(** ** File names and configuration keys *)

(** The characters [sanitize_filename] replaces. *)
Definition is_forbidden (c : char) : bool :=
  existsb (fun f => bool_decide (f = [c])) forbidden_chars.

Definition sanitize_char (c : char) : char :=
  if is_forbidden c then chr 95 else c.

(** The keys of [DEFAULT_CONFIG]. *)
Definition documented_keys : gset str :=
  list_to_set [lit "output_directory"; lit "max_threads"; lit "format_preference";
               lit "include_track_number"; lit "retry_attempts"; lit "retry_delay"].

(* ===================================================================== *)
(** * A small catalog to run the program on *)
(* ===================================================================== *)

(** [str.upper] on the ASCII letters. *)
Definition ascii_upper (s : str) : str :=
  map (fun c => if (97 <=? code c) && (code c <=? 122) then chr (code c - 32) else c) s.

Definition example_album_url : str :=
  lit "https://downloads.khinsider.com/game-soundtracks/album/demo".

Definition example_album_page : album_page :=
  {| h2 := Some (lit " Demo: OST ");
     songlist :=
       Some [[Some {| href := Some (lit "/t/one.mp3"); text := lit "One" |}];
             [None];
             [Some {| href := Some (lit "/t/two.mp3"); text := lit " AC/DC? " |}]] |}.

Definition example_tracks : list track :=
  [ {| name := lit "One"; url := lit "https://downloads.khinsider.com/t/one.mp3" |};
    {| name := lit "AC/DC?"; url := lit "https://downloads.khinsider.com/t/two.mp3" |} ].

Definition example_album : album_info :=
  {| title := lit "Demo_ OST"; album_url := example_album_url; tracks := example_tracks |}.

Definition example_detail_page : detail_page :=
  {| title_bolds := Some [lit "Demo"; lit " First "];
     links :=
       [ {| a_text := lit "Click here to download as MP3";
            a_href := Some (lit "https://x/a%2520b.mp3");
            a_parent := Some (lit "Click here to download as MP3 (3.5 MB)") |};
         {| a_text := lit "Click here to download as FLAC";
            a_href := Some (lit "https://x/a b.flac");
            a_parent := Some (lit "Click here to download as FLAC (10.0 MB)") |} ];
     audio := None |}.

Definition example_audio_page : detail_page :=
  {| title_bolds := None; links := [];
     audio := Some (Some (lit "https://x/m.mp3/c d.mp3")) |}.

Definition page_response : response := {| content_length := NoHeader; body := [] |}.

Definition complete_response : response :=
  {| content_length := Length 20; body := [Bytes 8; Bytes 12] |}.

(** Ten mebibytes announced, four delivered in chunks of 8 KiB. *)
Definition interrupted_response : response :=
  {| content_length := Length (10 * 1024 * 1024);
     body := map Bytes (repeat 8192 512) |}.

Definition example_answer (n : nat) (u : str) : result response :=
  if bool_decide (u = lit "https://x/missing") then Raise (HTTPError 404)
  else if bool_decide (u = lit "https://x/flaky") then
    match n with
    | O => Raise (URLError "timed out")
    | S O => Raise (HTTPError 503)
    | _ => Ok page_response
    end
  else if bool_decide (u = lit "https://x/interrupted.mp3") then Ok interrupted_response
  else if endswith (lit ".flac") u then Ok complete_response
  else Ok page_response.

(** An outside where every page is the example page, and where no file
    whose path holds [AC/DC] can be opened (its directory is not there). *)
Definition example_outside : Outside := {|
  urlopen_answer := example_answer;
  soup_album := fun _ => Ok example_album_page;
  soup_detail := fun _ => Ok example_detail_page;
  float_of := fun s => if bool_decide (s = lit "10.0") then Some 10%Q
                       else if bool_decide (s = lit "3.5") then Some (7 # 2)%Q
                       else None;
  upper := ascii_upper;
  can_open := fun p => negb (contains (lit "AC/DC") p);
  can_mkdir := fun _ => true;
  dir_size := fun _ => 4096;
  tagged := fun _ _ _ _ n => (match n with Some n => n | None => 0 end, INFO)
|}.

Definition empty_world : World :=
  {| requests := []; sleeps := []; files := ∅; log := [] |}.

Definition world_with_file (p : str) (n : Z) : World :=
  {| requests := []; sleeps := []; files := {[ p := File n ]}; log := [] |}.

Definition example_config : Config :=
  {| output_directory := lit "out"; max_threads := 3;
     format_preference := [lit "flac"; lit "mp3"];
     include_track_number := true; retry_attempts := 3; retry_delay := 5 |}.




(** Ten mebibytes announced, 10433331 bytes delivered: 52429 bytes are
    missing at the end. *)
Definition nearly_complete_response : response :=
  {| content_length := Length (10 * 1024 * 1024);
     body := map Bytes (repeat 8192 1273 ++ [4915]) |}.

(** An outside where every request is answered that way. *)
Definition truncating_outside : Outside := {|
  urlopen_answer := fun _ _ => Ok nearly_complete_response;
  soup_album := fun _ => Ok example_album_page;
  soup_detail := fun _ => Ok example_detail_page;
  float_of := fun _ => None;
  upper := ascii_upper;
  can_open := fun _ => true;
  can_mkdir := fun _ => true;
  dir_size := fun _ => 4096;
  tagged := fun _ _ _ _ n => (match n with Some n => n | None => 0 end, INFO)
|}.

(* ===================================================================== *)
(** * More notions *)
(* ===================================================================== *)

(** ** Text *)

(** The text a valid album URL holds (line 90). *)
Definition url_marker : str := lit "//downloads.khinsider.com/game-soundtracks/album/".

(** [sep.join(pieces)] *)
Fixpoint join (sep : str) (pieces : list str) : str :=
  match pieces with
  | [] => []
  | piece :: rest =>
      match rest with
      | [] => piece
      | _ :: _ => piece ++ sep ++ join sep rest
      end
  end.

(** No white space at either end. *)
Definition trimmed (s : str) : Prop := lstrip s = s /\ lstrip (rev s) = rev s.

(** ** The command line *)

(** The keys the command line can set. *)
Definition argument_keys : list str :=
  [lit "output_directory"; lit "max_threads"; lit "format_preference";
   lit "include_track_number"].

(** A line of the input file that is taken as a URL. *)
Definition url_line (line : str) : Prop :=
  strip line <> [] /\ startswith (lit "#") (strip line) = false.

(** Whether lines 495-503 run: an input file is named and is there. *)
Definition reads_input (args : Args) (w : World) : bool :=
  match arg_input_file args with
  | Some (c :: p) => bool_decide (is_Some (files w !! (c :: p)))
  | _ => false
  end.

Definition example_args : Args :=
  {| arg_url := Some (lit " not a url");
     arg_input_file := Some (lit "albums.txt");
     arg_output_dir := None;
     arg_threads := Some 0;
     arg_format := Some (lit "FLAC, mp3");
     arg_no_track_numbers := true;
     arg_save_config := false |}.

Definition example_input : input_file :=
  {| lines := [lit "# albums"; lit ""; lit "  https://x/album/one  "; lit "   "; lit "two"];
     read_fails := false |}.

(** ** Requests of one call *)

(** [w'] is [w] after [n] requests of [url] and the sleeps between them,
    with the disk as it was. *)
Definition after_requests (url : str) (delay : Q) (n : nat) (w w' : World) : Prop :=
  requests w' = repeat url n ++ requests w
  /\ sleeps w' = repeat delay (n - 1) ++ sleeps w
  /\ files w' = files w.

(** ** Catalog entries *)

(** A track as [get_album_info] builds it from a row: the name is stripped
    and the URL is [BASE_URL] followed by a non-empty [href]. *)
Definition catalog_track (t : track) : Prop :=
  trimmed (name t) /\ exists h, h <> [] /\ url t = BASE_URL ++ h.

(** The line logged last is an error or a warning. *)
Definition complained (w : World) : Prop :=
  exists l rest, log w = l :: rest /\ l <> INFO.

(** ** Resolutions *)

(** A URL made of the characters of a quoted URL only. *)
Definition quoted_url (s : str) : Prop := Forall url_safe_code (codes s).

(** The MP3 candidate of the [audio] element. *)
Definition audio_candidate (track_title src : str) : track_info :=
  {| ti_url := normalize_url src; ti_format := lit "mp3";
     ti_title := track_title; ti_size := 0 |}.

(** [w'] is [w] with at most one more request, the disk and the sleeps as
    they were. *)
Definition probed (w w' : World) : Prop :=
  exists probe, (length probe <= 1)%nat
    /\ requests w' = probe ++ requests w
    /\ sleeps w' = sleeps w /\ files w' = files w.

(** ** Computations that ask for one URL *)

(** [m] requests [url] at most [k] times and nothing else. *)
Definition asks (url : str) (k : nat) {A} (m : M A) : Prop :=
  forall w, exists n, (n <= k)%nat /\ requests (snd (m w)) = repeat url n ++ requests w.

(** The transfer ends with what the server announced, as far as line 314
    can tell: no length announced, a length of zero or less, or the length
    delivered. *)
Definition taken_as_complete (r : response) (delivered : Z) : Prop :=
  match content_length r with
  | NoHeader => True
  | NotANumber => False
  | Length n => n <= 0 \/ n = delivered
  end.

(** ** Runs over several albums *)

(** A configuration with which no download can start. *)
Definition idle_config : Config :=
  {| output_directory := lit "out"; max_threads := 0;
     format_preference := [lit "flac"; lit "mp3"];
     include_track_number := false; retry_attempts := 3; retry_delay := 5 |}.

(** The decimal digit [d]. *)
Definition digit (d : Z) : char := chr (48 + d).

(** A configuration that allows no attempt. *)
Definition no_attempt_config : Config :=
  {| output_directory := lit "out"; max_threads := 3;
     format_preference := [lit "flac"; lit "mp3"];
     include_track_number := true; retry_attempts := 0; retry_delay := 5 |}.

(** ** Sizes and clean URLs *)

(** A character of a number as the page prints it: no space and no
    opening parenthesis. *)
Definition size_char (c : char) : Prop := code c <> 32 /\ code c <> 40.

(** A character that [quote] with [safe='/:'] leaves as it is. *)
Definition kept_code (b : Z) : Prop := always_safe b = true \/ b = 47 \/ b = 58.

(* ===================================================================== *)
(** * Characters *)
(* ===================================================================== *)

Lemma char_ext (a b : char) : code a = code b -> a = b.
Proof.
  destruct a as [x Hx], b as [y Hy]; simpl; intros ->.
  f_equal. apply (proof_irrel Hx Hy).
Qed.

Lemma code_chr (z : Z) : is_scalar z = true -> code (chr z) = z.
Proof.
  intros H. unfold chr.
  destruct (Bool.bool_dec (is_scalar z) true); [reflexivity | contradiction].
Qed.

Lemma chr_code (c : char) : chr (code c) = c.
Proof. apply char_ext, code_chr, code_scalar. Qed.

Lemma char_eqb_eq (a b : char) : char_eqb a b = true <-> a = b.
Proof.
  unfold char_eqb. rewrite Z.eqb_eq. split; [apply char_ext | intros ->; reflexivity].
Qed.

(* ===================================================================== *)
(** * The URL codec *)
(* ===================================================================== *)

Section BitArithmetic.

Lemma land_pow2_low (k x n : Z) :
  0 <= n -> 0 <= x < 2 ^ n -> Z.land (k * 2 ^ n) x = 0.
Proof.
  intros Hn Hx. apply Z.bits_inj'. intros i Hi.
  rewrite Z.land_spec, Z.bits_0.
  destruct (Z.lt_ge_cases i n) as [L | G].
  - rewrite Z.mul_pow2_bits_low by lia. reflexivity.
  - destruct (Z.eq_dec x 0) as [-> | Nz].
    + rewrite Z.bits_0. apply andb_false_r.
    + assert (Hb : Z.testbit x i = false).
      { apply Z.bits_above_log2; [lia |].
        apply Z.lt_le_trans with n; [apply Z.log2_lt_pow2; lia | lia]. }
      rewrite Hb. apply andb_false_r.
Qed.

Lemma lor_pow2_add (k x n : Z) :
  0 <= n -> 0 <= x < 2 ^ n -> Z.lor (k * 2 ^ n) x = k * 2 ^ n + x.
Proof.
  intros Hn Hx. pose proof (Z.add_lor_land (k * 2 ^ n) x) as E.
  rewrite land_pow2_low in E by assumption. lia.
Qed.

Lemma land_ones_low (k x n : Z) :
  0 <= n -> 0 <= x < 2 ^ n -> Z.land (k * 2 ^ n + x) (Z.ones n) = x.
Proof.
  intros Hn Hx. rewrite Z.land_ones by lia.
  rewrite Z.add_comm, Z.mod_add by lia. apply Z.mod_small; lia.
Qed.

(** The continuation byte [128 + r] adds the six bits [r]. *)
Lemma continuation_bits (acc r : Z) :
  0 <= r < 64 ->
  Z.lor (Z.shiftl acc 6) (Z.land (128 + r) 0x3F) = 64 * acc + r.
Proof.
  intros Hr. rewrite Z.shiftl_mul_pow2 by lia.
  change 0x3F with (Z.ones 6).
  replace (128 + r) with (2 * 2 ^ 6 + r) by lia.
  rewrite land_ones_low by lia.
  rewrite lor_pow2_add by lia. lia.
Qed.

Lemma lead2_bits (q : Z) : 0 <= q < 32 -> Z.land (192 + q) 0x1F = q.
Proof.
  intros. change 0x1F with (Z.ones 5). replace (192 + q) with (6 * 2 ^ 5 + q) by lia.
  apply land_ones_low; lia.
Qed.

Lemma lead3_bits (a : Z) : 0 <= a < 16 -> Z.land (224 + a) 0x0F = a.
Proof.
  intros. change 0x0F with (Z.ones 4). replace (224 + a) with (14 * 2 ^ 4 + a) by lia.
  apply land_ones_low; lia.
Qed.

Lemma lead4_bits (a : Z) : 0 <= a < 8 -> Z.land (240 + a) 0x07 = a.
Proof.
  intros. change 0x07 with (Z.ones 3). replace (240 + a) with (30 * 2 ^ 3 + a) by lia.
  apply land_ones_low; lia.
Qed.

Lemma lor_0x80 (r : Z) : 0 <= r < 64 -> Z.lor 0x80 r = 128 + r.
Proof. intros. change 0x80 with (2 * 2 ^ 6). rewrite lor_pow2_add; lia. Qed.

Lemma lor_0xC0 (q : Z) : 0 <= q < 32 -> Z.lor 0xC0 q = 192 + q.
Proof. intros. change 0xC0 with (6 * 2 ^ 5). rewrite lor_pow2_add; lia. Qed.

Lemma lor_0xE0 (a : Z) : 0 <= a < 16 -> Z.lor 0xE0 a = 224 + a.
Proof. intros. change 0xE0 with (14 * 2 ^ 4). rewrite lor_pow2_add; lia. Qed.

Lemma lor_0xF0 (a : Z) : 0 <= a < 8 -> Z.lor 0xF0 a = 240 + a.
Proof. intros. change 0xF0 with (30 * 2 ^ 3). rewrite lor_pow2_add; lia. Qed.

Lemma land_0x3F (c : Z) : Z.land c 0x3F = c mod 64.
Proof. change 0x3F with (Z.ones 6). rewrite Z.land_ones by lia. reflexivity. Qed.

Lemma shiftr_div (c n : Z) : 0 <= n -> Z.shiftr c n = c / 2 ^ n.
Proof. intros. apply Z.shiftr_div_pow2. assumption. Qed.

End BitArithmetic.

(** The encoder in arithmetic form. *)
Lemma utf8_encode_char_arith (c : Z) :
  0 <= c < 0x110000 ->
  utf8_encode_char c =
    if c <? 0x80 then [c]
    else if c <? 0x800 then [192 + c / 64; 128 + c mod 64]
    else if c <? 0x10000 then [224 + c / 4096; 128 + (c / 64) mod 64; 128 + c mod 64]
    else [240 + c / 262144; 128 + (c / 4096) mod 64; 128 + (c / 64) mod 64; 128 + c mod 64].
Proof.
  intros Hc. unfold utf8_encode_char.
  rewrite !land_0x3F, !shiftr_div by lia.
  change (2 ^ 6) with 64. change (2 ^ 12) with 4096. change (2 ^ 18) with 262144.
  destruct (Z.ltb_spec c 0x80); [reflexivity |].
  destruct (Z.ltb_spec c 0x800).
  { rewrite lor_0xC0, lor_0x80; [reflexivity | |].
    - apply Z.mod_pos_bound; lia.
    - split; [apply Z.div_pos; lia | apply Z.div_lt_upper_bound; lia]. }
  destruct (Z.ltb_spec c 0x10000).
  { rewrite lor_0xE0, !lor_0x80; [reflexivity | | |].
    - apply Z.mod_pos_bound; lia.
    - apply Z.mod_pos_bound; lia.
    - split; [apply Z.div_pos; lia | apply Z.div_lt_upper_bound; lia]. }
  rewrite lor_0xF0, !lor_0x80; [reflexivity | | | |].
  - apply Z.mod_pos_bound; lia.
  - apply Z.mod_pos_bound; lia.
  - apply Z.mod_pos_bound; lia.
  - split; [apply Z.div_pos; lia | apply Z.div_lt_upper_bound; lia].
Qed.

Ltac zcase :=
  repeat match goal with
    | |- context [?a <? ?b] => destruct (Z.ltb_spec a b); try lia
    | |- context [?a <=? ?b] => destruct (Z.leb_spec a b); try lia
    | |- context [?a =? ?b] => destruct (Z.eqb_spec a b); try lia
    end.

Section Decoder.
Variable rest : list Z.

Lemma decode_ascii (c : Z) :
  c < 128 -> decode_from Start (c :: rest) = c :: decode_from Start rest.
Proof.
  intros. cbn [decode_from decode_step]. unfold decode_lead. zcase. reflexivity.
Qed.

Lemma decode_two (q r : Z) :
  2 <= q < 32 -> 0 <= r < 64 ->
  decode_from Start (192 + q :: 128 + r :: rest) = 64 * q + r :: decode_from Start rest.
Proof.
  intros Hq Hr. cbn [decode_from decode_step]. unfold decode_lead.
  zcase; cbn [andb app decode_from decode_step]; zcase; cbn [andb app].
  rewrite lead2_bits, continuation_bits by lia. reflexivity.
Qed.

Lemma decode_three (a b r : Z) :
  0 <= a < 16 -> 0 <= b < 64 -> 0 <= r < 64 ->
  (a = 0 -> 32 <= b) -> (a = 13 -> b < 32) ->
  decode_from Start (224 + a :: 128 + b :: 128 + r :: rest)
  = 4096 * a + 64 * b + r :: decode_from Start rest.
Proof.
  intros Ha Hb Hr H0 H13. cbn [decode_from decode_step]. unfold decode_lead.
  zcase; cbn [andb app decode_from decode_step]; zcase; cbn [andb app decode_from decode_step];
    zcase; cbn [andb app];
    rewrite lead3_bits, !continuation_bits by lia; f_equal; lia.
Qed.

Lemma decode_four (a b d r : Z) :
  0 <= a <= 4 -> 0 <= b < 64 -> 0 <= d < 64 -> 0 <= r < 64 ->
  (a = 0 -> 16 <= b) -> (a = 4 -> b < 16) ->
  decode_from Start (240 + a :: 128 + b :: 128 + d :: 128 + r :: rest)
  = 262144 * a + 4096 * b + 64 * d + r :: decode_from Start rest.
Proof.
  intros Ha Hb Hd Hr H0 H4. cbn [decode_from decode_step]. unfold decode_lead.
  zcase; cbn [andb app decode_from decode_step]; zcase; cbn [andb app decode_from decode_step];
    zcase; cbn [andb app decode_from decode_step]; zcase; cbn [andb app];
    rewrite lead4_bits, !continuation_bits by lia; f_equal; lia.
Qed.

(** Decoding what encodes one scalar value gives it back. *)
Lemma decode_encode_char (c : Z) :
  is_scalar c = true ->
  decode_from Start (utf8_encode_char c ++ rest) = c :: decode_from Start rest.
Proof.
  intros Hs. unfold is_scalar in Hs.
  assert (Hc : (0 <= c < 0xD800) \/ (0xE000 <= c <= 0x10FFFF)) by lia.
  rewrite utf8_encode_char_arith by lia.
  destruct (Z.ltb_spec c 0x80); [apply decode_ascii; lia |].
  pose proof (Z.div_mod c 64 ltac:(lia)) as E1.
  pose proof (Z.mod_pos_bound c 64 ltac:(lia)) as B1.
  destruct (Z.ltb_spec c 0x800).
  { cbn [app]. rewrite decode_two; [f_equal; lia | | lia].
    split; [apply Z.div_le_lower_bound; lia | apply Z.div_lt_upper_bound; lia]. }
  pose proof (Z.div_mod (c / 64) 64 ltac:(lia)) as E2.
  pose proof (Z.mod_pos_bound (c / 64) 64 ltac:(lia)) as B2.
  assert (D2 : c / 64 / 64 = c / 4096) by (rewrite Z.div_div by lia; reflexivity).
  destruct (Z.ltb_spec c 0x10000).
  { cbn [app]. rewrite decode_three; [f_equal; lia | | lia | lia | |].
    - split; [apply Z.div_pos; lia | apply Z.div_lt_upper_bound; lia].
    - intros Ez. rewrite Ez in D2. lia.
    - intros Ez. rewrite Ez in D2. lia. }
  pose proof (Z.div_mod (c / 4096) 64 ltac:(lia)) as E3.
  pose proof (Z.mod_pos_bound (c / 4096) 64 ltac:(lia)) as B3.
  assert (D3 : c / 4096 / 64 = c / 262144) by (rewrite Z.div_div by lia; reflexivity).
  cbn [app]. rewrite decode_four; [f_equal; lia | | lia | lia | lia | |].
  - assert (c / 262144 < 5) by (apply Z.div_lt_upper_bound; lia).
    split; [apply Z.div_pos; lia | lia].
  - intros Ez. rewrite Ez in D3. lia.
  - intros Ez. rewrite Ez in D3. lia.
Qed.
End Decoder.

Lemma decode_encode (s : str) : decode_from Start (utf8_encode s) = codes s.
Proof.
  induction s as [| c s IH]; [reflexivity |].
  unfold utf8_encode. cbn [flat_map]. fold (utf8_encode s).
  rewrite decode_encode_char by apply code_scalar.
  rewrite IH. reflexivity.
Qed.

Lemma chr_codes (s : str) : map chr (codes s) = s.
Proof.
  induction s as [| c s IH]; [reflexivity |].
  cbn [codes map]. rewrite chr_code. f_equal. exact IH.
Qed.

Lemma utf8_decode_encode (s : str) : utf8_decode (utf8_encode s) = s.
Proof. unfold utf8_decode. rewrite decode_encode. apply chr_codes. Qed.

(** ** Quoting and unquoting *)

Lemma utf8_encode_char_bytes (c : Z) :
  is_scalar c = true -> Forall is_byte (utf8_encode_char c).
Proof.
  intros Hs. unfold is_scalar in Hs.
  assert (Hc : 0 <= c < 0x110000) by lia.
  rewrite utf8_encode_char_arith by lia. unfold is_byte.
  pose proof (Z.mod_pos_bound c 64 ltac:(lia)).
  pose proof (Z.mod_pos_bound (c / 64) 64 ltac:(lia)).
  pose proof (Z.mod_pos_bound (c / 4096) 64 ltac:(lia)).
  assert (0 <= c / 64) by (apply Z.div_pos; lia).
  assert (0 <= c / 4096) by (apply Z.div_pos; lia).
  assert (0 <= c / 262144) by (apply Z.div_pos; lia).
  destruct (Z.ltb_spec c 0x80); [repeat constructor; lia |].
  destruct (Z.ltb_spec c 0x800).
  { assert (c / 64 < 32) by (apply Z.div_lt_upper_bound; lia).
    repeat constructor; lia. }
  destruct (Z.ltb_spec c 0x10000).
  { assert (c / 4096 < 16) by (apply Z.div_lt_upper_bound; lia).
    repeat constructor; lia. }
  assert (c / 262144 < 5) by (apply Z.div_lt_upper_bound; lia).
  repeat constructor; lia.
Qed.

Lemma utf8_encode_bytes (s : str) : Forall is_byte (utf8_encode s).
Proof.
  induction s as [| c s IH]; [constructor |].
  unfold utf8_encode. cbn [flat_map]. apply Forall_app. split.
  - apply utf8_encode_char_bytes, code_scalar.
  - exact IH.
Qed.

Lemma hex_value_digit (d : Z) : 0 <= d < 16 -> hex_value (hex_digit d) = Some d.
Proof.
  intros Hd. unfold hex_value, hex_digit.
  destruct (Z.ltb_spec d 10); zcase; cbn [andb]; f_equal; lia.
Qed.

Lemma hex_digit_ascii (d : Z) : 0 <= d < 16 -> is_ascii_code (hex_digit d) /\ hex_digit d <> 37.
Proof. intros Hd. unfold hex_digit, is_ascii_code. destruct (Z.ltb_spec d 10); lia. Qed.

Lemma always_safe_ascii (b : Z) : always_safe b = true -> is_ascii_code b /\ b <> 37.
Proof. unfold always_safe, is_ascii_code. intros Hb. lia. Qed.

Lemma existsb_eqb_In (b : Z) (l : list Z) : existsb (Z.eqb b) l = true -> In b l.
Proof.
  rewrite existsb_exists. intros [x [Hx E]]. apply Z.eqb_eq in E. subst. exact Hx.
Qed.

Lemma nibbles (b : Z) :
  is_byte b ->
  0 <= Z.shiftr b 4 < 16 /\ 0 <= Z.land b 15 < 16
  /\ 16 * Z.shiftr b 4 + Z.land b 15 = b.
Proof.
  unfold is_byte. intros Hb.
  rewrite shiftr_div by lia. change (2 ^ 4) with 16.
  change 15 with (Z.ones 4). rewrite Z.land_ones by lia. change (2 ^ 4) with 16.
  pose proof (Z.div_mod b 16 ltac:(lia)). pose proof (Z.mod_pos_bound b 16 ltac:(lia)).
  assert (0 <= b / 16) by (apply Z.div_pos; lia).
  assert (b / 16 < 16) by (apply Z.div_lt_upper_bound; lia).
  lia.
Qed.

Section Quoting.
Variable safe : list Z.
Hypothesis safe_ascii : Forall is_ascii_code safe.
Hypothesis safe_no_percent : ~ In 37 safe.

Lemma quote_byte_ascii (b : Z) :
  is_byte b -> Forall is_ascii_code (quote_byte safe b).
Proof.
  intros Hb. unfold quote_byte.
  destruct (always_safe b) eqn:Ea; cbn [orb].
  { constructor; [apply always_safe_ascii, Ea | constructor]. }
  destruct (existsb (Z.eqb b) safe) eqn:Es.
  { constructor; [| constructor].
    apply existsb_eqb_In in Es. rewrite Forall_forall in safe_ascii.
    apply safe_ascii. apply list_elem_of_In. exact Es. }
  destruct (nibbles b Hb) as (H1 & H2 & _).
  repeat constructor; try (apply hex_digit_ascii; assumption); unfold is_ascii_code; lia.
Qed.

Lemma unquote_quote_byte (b : Z) (rest : list Z) :
  is_byte b ->
  unquote_to_bytes (quote_byte safe b ++ rest) = b :: unquote_to_bytes rest.
Proof.
  intros Hb. unfold quote_byte.
  destruct (always_safe b) eqn:Ea; cbn [orb].
  { apply always_safe_ascii in Ea. cbn [app unquote_to_bytes].
    destruct (Z.eqb_spec b 37); [lia | reflexivity]. }
  destruct (existsb (Z.eqb b) safe) eqn:Es.
  { apply existsb_eqb_In in Es. cbn [app unquote_to_bytes].
    destruct (Z.eqb_spec b 37); [subst; contradiction | reflexivity]. }
  destruct (nibbles b Hb) as (H1 & H2 & H3).
  cbn [app unquote_to_bytes]. change (37 =? 37) with true. cbn iota.
  rewrite !hex_value_digit by assumption. rewrite H3. reflexivity.
Qed.

Lemma unquote_quote_bytes (bs : list Z) :
  Forall is_byte bs -> unquote_to_bytes (flat_map (quote_byte safe) bs) = bs.
Proof.
  induction 1 as [| b bs Hb _ IH]; [reflexivity |].
  cbn [flat_map]. rewrite unquote_quote_byte by assumption. rewrite IH. reflexivity.
Qed.

Lemma quote_bytes_ascii (bs : list Z) :
  Forall is_byte bs -> Forall is_ascii_code (flat_map (quote_byte safe) bs).
Proof.
  induction 1 as [| b bs Hb _ IH]; [constructor |].
  cbn [flat_map]. apply Forall_app. split; [apply quote_byte_ascii; assumption | exact IH].
Qed.
End Quoting.

Lemma ascii_code_scalar (b : Z) : is_ascii_code b -> is_scalar b = true.
Proof. unfold is_ascii_code, is_scalar. lia. Qed.

Lemma codes_chr_ascii (l : list Z) : Forall is_ascii_code l -> codes (map chr l) = l.
Proof.
  induction 1 as [| b l Hb _ IH]; [reflexivity |].
  cbn [map codes]. rewrite code_chr by (apply ascii_code_scalar; assumption).
  f_equal. exact IH.
Qed.

Lemma utf8_encode_ascii (l : list Z) :
  Forall is_ascii_code l -> utf8_encode (map chr l) = l.
Proof.
  induction 1 as [| b l Hb _ IH]; [reflexivity |].
  unfold utf8_encode. cbn [map flat_map]. fold (utf8_encode (map chr l)).
  rewrite IH, code_chr by (apply ascii_code_scalar; assumption).
  unfold utf8_encode_char. unfold is_ascii_code in Hb.
  destruct (Z.ltb_spec b 0x80); [reflexivity | lia].
Qed.

Lemma decode_ascii_bytes (l : list Z) :
  Forall is_ascii_code l -> decode_from Start l = l.
Proof.
  induction 1 as [| b l Hb _ IH]; [reflexivity |].
  rewrite decode_ascii by (unfold is_ascii_code in Hb; lia). f_equal. exact IH.
Qed.

Lemma unquote_no_percent (l : list Z) : ~ In 37 l -> unquote_to_bytes l = l.
Proof.
  induction l as [| b l IH]; [reflexivity |]. intros Hn.
  cbn [unquote_to_bytes]. destruct (Z.eqb_spec b 37) as [-> | _].
  - exfalso. apply Hn. left. reflexivity.
  - f_equal. apply IH. intros Hi. apply Hn. right. exact Hi.
Qed.

Lemma ascii_runs_ascii (l : list Z) :
  Forall is_ascii_code l -> l <> [] -> ascii_runs (map chr l) = [(true, map chr l)].
Proof.
  induction 1 as [| b l Hb Hl IH]; [congruence |]. intros _.
  assert (Ha : is_ascii (chr b) = true).
  { unfold is_ascii. rewrite code_chr by (apply ascii_code_scalar; assumption).
    unfold is_ascii_code in Hb. lia. }
  cbn [map ascii_runs]. destruct l as [| b' l'].
  - cbn [map ascii_runs]. rewrite Ha. reflexivity.
  - rewrite IH by congruence. rewrite Ha. reflexivity.
Qed.

Lemma percent_in (l : list Z) :
  Forall is_ascii_code l ->
  existsb (char_eqb (chr 37)) (map chr l) = true <-> In 37 l.
Proof.
  intros Hl. rewrite existsb_exists. split.
  - intros [c [Hc E]]. apply in_map_iff in Hc. destruct Hc as [b [<- Hb]].
    unfold char_eqb in E. rewrite Forall_forall in Hl.
    rewrite !code_chr in E; [| apply ascii_code_scalar, Hl, list_elem_of_In, Hb | reflexivity].
    apply Z.eqb_eq in E. subst. exact Hb.
  - intros Hi. exists (chr 37). split; [apply in_map, Hi |]. apply char_eqb_eq. reflexivity.
Qed.

Lemma safe_of_ascii (safe : str) :
  Forall is_ascii_code (List.filter (fun b => b <? 128) (codes safe)).
Proof.
  apply Forall_forall. intros b Hb. apply list_elem_of_In in Hb.
  apply filter_In in Hb. destruct Hb as [Hi Hlt].
  unfold codes in Hi. apply in_map_iff in Hi. destruct Hi as [c [<- _]].
  pose proof (code_scalar c) as Hs. unfold is_scalar in Hs. unfold is_ascii_code. lia.
Qed.

(** [unquote] undoes [quote] whenever [%] is not among the safe characters. *)
Lemma unquote_quote (safe s : str) :
  ~ In 37 (codes safe) -> unquote (quote safe s) = s.
Proof.
  intros Hsafe. unfold quote, quote_from_bytes.
  set (sf := List.filter (fun b => b <? 128) (codes safe)).
  assert (Hsf : Forall is_ascii_code sf) by apply safe_of_ascii.
  assert (Hnp : ~ In 37 sf).
  { intros Hi. apply filter_In in Hi. apply Hsafe, Hi. }
  set (Q := flat_map (quote_byte sf) (utf8_encode s)).
  assert (HQ : Forall is_ascii_code Q) by (apply quote_bytes_ascii; [assumption | apply utf8_encode_bytes]).
  assert (HU : unquote_to_bytes Q = utf8_encode s)
    by (apply unquote_quote_bytes; [assumption | apply utf8_encode_bytes]).
  unfold unquote.
  destruct (existsb (char_eqb (chr 37)) (map chr Q)) eqn:Ep; cbn [negb].
  - assert (Hne : Q <> []).
    { intros E. rewrite E in Ep. discriminate. }
    rewrite ascii_runs_ascii by assumption.
    cbn [flat_map]. unfold unquote_part. cbn [fst snd].
    rewrite utf8_encode_ascii by assumption. rewrite HU, utf8_decode_encode.
    apply app_nil_r.
  - assert (Hn : ~ In 37 Q).
    { intros Hi. apply (percent_in Q HQ) in Hi. congruence. }
    rewrite unquote_no_percent in HU by assumption.
    transitivity (utf8_decode (utf8_encode s)); [| apply utf8_decode_encode].
    unfold utf8_decode. rewrite <- HU, decode_ascii_bytes by assumption. reflexivity.
Qed.

Lemma quote_byte_url_safe (b : Z) :
  is_byte b -> Forall url_safe_code (quote_byte [47; 58] b).
Proof.
  intros Hb. unfold quote_byte, url_safe_code.
  destruct (always_safe b) eqn:Ea; cbn [orb].
  { apply Forall_cons. split; [left; exact Ea | constructor]. }
  cbn [existsb orb]. destruct (Z.eqb_spec b 47); cbn [orb].
  { apply Forall_cons. split; [right; left; assumption | constructor]. }
  destruct (Z.eqb_spec b 58); cbn [orb].
  { apply Forall_cons. split; [right; right; left; assumption | constructor]. }
  destruct (nibbles b Hb) as (H1 & H2 & _).
  assert (Hd : forall d, 0 <= d < 16 -> always_safe (hex_digit d) = true).
  { intros d Hd. unfold hex_digit, always_safe. destruct (Z.ltb_spec d 10); lia. }
  apply Forall_cons. split; [right; right; right; reflexivity |].
  apply Forall_cons. split; [left; apply Hd, H1 |].
  apply Forall_cons. split; [left; apply Hd, H2 | constructor].
Qed.

Lemma slash_colon : List.filter (fun b => b <? 128) (codes (lit "/:")) = [47; 58].
Proof. reflexivity. Qed.

Lemma quote_url_safe (s : str) : Forall url_safe_code (codes (quote (lit "/:") s)).
Proof.
  unfold quote, quote_from_bytes. rewrite slash_colon.
  assert (Hs : Forall url_safe_code (flat_map (quote_byte [47; 58]) (utf8_encode s))).
  { pose proof (utf8_encode_bytes s) as Hb.
    induction Hb as [| b bs Hb _ IH]; [constructor |].
    cbn [flat_map]. apply Forall_app. split; [apply quote_byte_url_safe; assumption | exact IH]. }
  rewrite codes_chr_ascii; [exact Hs |].
  apply quote_bytes_ascii; [| apply utf8_encode_bytes].
  repeat constructor; unfold is_ascii_code; lia.
Qed.

(** C7, as amended.  For every URL string, decoding what the normalization
    step encoded (with [/] and [:] left as they are) gives the decoded
    string back: [unquote (quote s) = s] for every [s], in particular for the
    decoded [s = unquote url]; the normalized URL decodes to the decoded URL,
    normalizing twice is normalizing once, and the normalized URL is made of
    unreserved characters, [/], [:] and [%]-escapes only.  The step takes no
    level of encoding away: a URL that [quote] produced, whatever it
    encodes, comes out as it went in, and the normalized URL holds one level
    of encoding at most exactly when the URL given did. *)
Theorem url_normalization_round_trip (url : str) :
  let decoded := unquote url in
  unquote (quote (lit "/:") decoded) = decoded
  /\ unquote (normalize_url url) = decoded
  /\ normalize_url (normalize_url url) = normalize_url url
  /\ Forall url_safe_code (codes (normalize_url url))
  /\ normalize_url (quote (lit "/:") url) = quote (lit "/:") url
  /\ (single_encoded (normalize_url url) <-> single_encoded url).
Proof.
  assert (Hsafe : ~ In 37 (codes (lit "/:"))).
  { cbv. intros [E | [E | []]]; discriminate. }
  cbv zeta. unfold normalize_url, single_encoded.
  split; [| split; [| split; [| split; [| split]]]].
  - apply unquote_quote, Hsafe.
  - apply unquote_quote, Hsafe.
  - rewrite unquote_quote by exact Hsafe. reflexivity.
  - apply quote_url_safe.
  - rewrite unquote_quote by exact Hsafe. reflexivity.
  - rewrite unquote_quote by exact Hsafe. reflexivity.
Qed.

(* ===================================================================== *)
(** * Worlds only grow *)
(* ===================================================================== *)

Lemma grows_refl (w : World) : grows w w.
Proof. split; [auto | exists []; reflexivity]. Qed.

Lemma grows_trans (w1 w2 w3 : World) : grows w1 w2 -> grows w2 w3 -> grows w1 w3.
Proof.
intros [F1 [m1 R1]] [F2 [m2 R2]]. split; [auto |].
exists (m2 ++ m1). rewrite R2, R1. apply app_assoc.
Qed.

Lemma grows_same (w w' : World) :
files w' = files w -> requests w' = requests w -> grows w w'.
Proof. intros Ef Er. split; [rewrite Ef; auto | exists []; rewrite Er; reflexivity]. Qed.

Lemma grows_insert (w : World) (p : str) (e : entry) :
grows w (set_files (<[p := e]> (files w)) w).
Proof.
split; [| exists []; reflexivity].
intros q Hq. cbn. destruct (decide (p = q)) as [-> | Hne].
- rewrite lookup_insert_eq. eauto.
- rewrite lookup_insert_ne by assumption. exact Hq.
Qed.

Create HintDb steady.

Lemma steady_ret {A} (a : A) : steady (ret a).
Proof. intros w. apply grows_refl. Qed.

Lemma steady_raise {A} (e : exn) : steady (@raise A e).
Proof. intros w. apply grows_refl. Qed.

Lemma steady_lift {A} (r : result A) : steady (lift r).
Proof. intros w. apply grows_refl. Qed.

Lemma steady_bind {A B} (m : M A) (k : A -> M B) :
  steady m -> (forall a, steady (k a)) -> steady (bind m k).
Proof.
  intros Hm Hk w. unfold bind. specialize (Hm w).
  destruct (m w) as [[a | e] w1]; cbn in *; [| exact Hm].
  eapply grows_trans; [exact Hm | apply Hk].
Qed.

Lemma steady_try {A} (m : M A) (h : exn -> M A) :
  steady m -> (forall e, steady (h e)) -> steady (try_except m h).
Proof.
  intros Hm Hh w. unfold try_except. specialize (Hm w).
  destruct (m w) as [[a | e] w1]; cbn in *; [exact Hm |].
  eapply grows_trans; [exact Hm | apply Hh].
Qed.

Lemma steady_logger (l : level) : steady (logger l).
Proof. intros w. apply grows_same; reflexivity. Qed.

Lemma steady_sleep (d : Q) : steady (sleep d).
Proof.
  intros w. unfold sleep.
  destruct (sleep_error d); [apply grows_refl | apply grows_same; reflexivity].
Qed.

Lemma steady_urlopen `{Outside} (u : str) : steady (urlopen u).
Proof. intros w. split; [auto | exists [u]; reflexivity]. Qed.

Lemma steady_path_exists (p : str) : steady (path_exists p).
Proof. intros w. apply grows_refl. Qed.

Lemma steady_getsize `{Outside} (p : str) : steady (getsize p).
Proof. intros w. unfold getsize. destruct (files w !! p) as [[|]|]; apply grows_refl. Qed.

Lemma steady_open_wb `{Outside} (p : str) : steady (open_wb p).
Proof.
  intros w. unfold open_wb.
  destruct (files w !! p) as [[|]|]; try apply grows_refl;
    destruct (can_open p); cbn [snd]; first [apply grows_insert | apply grows_refl].
Qed.

Lemma steady_write `{Outside} (p : str) (n : Z) : steady (write p n).
Proof.
  intros w. unfold write.
  destruct (files w !! p) as [[|]|]; cbn [snd]; first [apply grows_insert | apply grows_refl].
Qed.

Lemma steady_makedirs `{Outside} (p : str) : steady (makedirs p).
Proof.
  intros w. unfold makedirs.
  destruct (files w !! p) as [e|]; [apply grows_refl |].
  destruct (can_mkdir p); cbn [snd]; first [apply grows_insert | apply grows_refl].
Qed.

Lemma steady_set_metadata `{Outside} (p f : str) (a : album_info) (n : option Z) :
  steady (set_metadata p f a n).
Proof.
  intros w. unfold set_metadata.
  destruct (files w !! p) as [[k|]|]; cbn [snd];
    first [ eapply grows_trans; [apply grows_insert | apply grows_same; reflexivity]
          | apply grows_same; reflexivity ].
Qed.

#[global] Hint Resolve steady_ret steady_raise steady_lift steady_logger steady_sleep
  steady_urlopen steady_path_exists steady_getsize steady_open_wb steady_write
  steady_makedirs steady_set_metadata : steady.

(** One step through the structure of a computation. *)
Ltac steady_step :=
  first
    [ solve [auto with steady]
    | apply steady_bind; [| intros ?]
    | apply steady_try; [| intros ?]
    | match goal with
      | |- steady (if ?b then _ else _) => destruct b
      | |- steady (match ?x with _ => _ end) => destruct x
      | |- steady (let _ := _ in _) => cbv zeta
      end ].

Ltac steady := repeat steady_step.

Lemma steady_safe_request_from `{Outside} (left : nat) (attempt : Z) (u : str) (c : Z) (d : Q) :
  steady (safe_request_from left attempt u c d).
Proof.
  revert attempt. induction left as [| left IH]; intros attempt; cbn [safe_request_from].
  - steady.
  - steady; apply IH.
Qed.

Lemma steady_safe_request `{Outside} (u : str) (c : Z) (d : Q) : steady (safe_request u c d).
Proof. apply steady_safe_request_from. Qed.
#[global] Hint Resolve steady_safe_request : steady.

Lemma steady_get_album_info `{Outside} (u : str) (config : Config) : steady (get_album_info u config).
Proof. unfold get_album_info, album_soup. steady. Qed.

Lemma steady_audio_fallback `{Outside} (t : str) (P : list str) (src : str) :
  steady (audio_fallback t P src).
Proof. unfold audio_fallback. steady. Qed.
#[global] Hint Resolve steady_audio_fallback : steady.

Lemma steady_get_track_download_url `{Outside} (u : str) (P : list str) :
  steady (get_track_download_url u P).
Proof. unfold get_track_download_url, resolve_page, detail_soup. steady. Qed.
#[global] Hint Resolve steady_get_track_download_url : steady.

Lemma steady_stream `{Outside} (reads : list read) (p : str) (d : Z) : steady (stream reads p d).
Proof.
  revert d. induction reads as [| r reads IH]; intros d; cbn [stream]; steady; apply IH.
Qed.
#[global] Hint Resolve steady_stream : steady.

Lemma steady_transfer `{Outside} (u p : str) : steady (transfer u p).
Proof. unfold transfer, total_size_of. steady. Qed.

Lemma steady_skip_check `{Outside} (p : str) (e : Q) : steady (skip_check p e).
Proof. unfold skip_check. steady. Qed.
#[global] Hint Resolve steady_transfer steady_skip_check : steady.

Lemma steady_download_attempt `{Outside} (u p : str) (e : Q) (a c : Z) (d : Q) :
  steady (download_attempt u p e a c d).
Proof. unfold download_attempt. steady. Qed.
#[global] Hint Resolve steady_download_attempt : steady.

Lemma steady_download_file_from `{Outside} (left : nat) (a : Z) (u p : str) (e : Q) (c : Z) (d : Q) :
  steady (download_file_from left a u p e c d).
Proof.
  revert a. induction left as [| left IH]; intros a; cbn [download_file_from]; steady; apply IH.
Qed.

Lemma steady_download_file `{Outside} (u p : str) (e : Q) (c : Z) (d : Q) :
  steady (download_file u p e c d).
Proof. apply steady_download_file_from. Qed.
#[global] Hint Resolve steady_download_file : steady.

Lemma steady_download_track `{Outside} (t : track) (a : album_info) (o : str) (config : Config)
    (n : option Z) : steady (download_track t a o config n).
Proof. unfold download_track. steady. Qed.
#[global] Hint Resolve steady_download_track : steady.

Lemma steady_run_task `{Outside} (a : album_info) (o : str) (config : Config) (t : task) :
  steady (run_task a o config t).
Proof. unfold run_task. steady. Qed.
#[global] Hint Resolve steady_run_task : steady.

Lemma steady_run_in_order `{Outside} (a : album_info) (o : str) (config : Config) (pending : list task) :
  steady (run_in_order a o config pending).
Proof. induction pending as [| t rest IH]; cbn [run_in_order]; steady; apply IH. Qed.
#[global] Hint Resolve steady_run_in_order : steady.

Lemma steady_run_pool `{Outside} (schedule : list nat) (a : album_info) (o : str) (config : Config)
    (pending : list task) : steady (run_pool schedule a o config pending).
Proof.
  revert pending. induction schedule as [| c schedule IH]; intros pending; cbn [run_pool].
  - steady.
  - steady; apply IH.
Qed.

(* ===================================================================== *)
(** * [safe_request] *)
(* ===================================================================== *)
Lemma repeat_shift {A} (x : A) (k : nat) (l : list A) :
  repeat x k ++ x :: l = x :: repeat x k ++ l.
Proof. induction k as [| k IH]; [reflexivity |]. cbn. rewrite IH. reflexivity. Qed.

Lemma after_failures_requests url delay k w :
  requests (after_failures url delay k w) = repeat url k ++ requests w.
Proof.
  revert w. induction k as [| k IH]; intros w; [reflexivity |].
  cbn [after_failures]. rewrite IH. cbn [one_failure requests]. apply repeat_shift.
Qed.

Lemma after_failures_sleeps url delay k w :
  sleeps (after_failures url delay k w) = repeat delay k ++ sleeps w.
Proof.
  revert w. induction k as [| k IH]; intros w; [reflexivity |].
  cbn [after_failures]. rewrite IH. cbn [one_failure sleeps]. apply repeat_shift.
Qed.

Lemma after_failures_files url delay k w :
  files (after_failures url delay k w) = files w.
Proof.
  revert w. induction k as [| k IH]; intros w; [reflexivity |].
  cbn [after_failures]. rewrite IH. reflexivity.
Qed.

Section SafeRequest.
Context `{Outside}.
Variables (url : str) (retry_count : Z) (retry_delay : Q).

Lemma answer_from_one_failure w i :
  answer_from (one_failure url retry_delay w) url i = answer_from w url (S i).
Proof.
  unfold answer_from. cbn [one_failure requests length]. f_equal. lia.
Qed.

(** One iteration of the loop of [safe_request]. *)
Lemma safe_request_from_step (left : nat) (attempt : Z) (w : World) :
  safe_request_from (S left) attempt url retry_count retry_delay w
  = match answer_from w url 0 with
    | Ok r => (Ok (Some r), requested url w)
    | Raise e =>
        if is_URLError e then
          if attempt <? retry_count - 1 then
            match sleep_error retry_delay with
            | None =>
                safe_request_from left (attempt + 1) url retry_count retry_delay
                  (slept retry_delay (logged [INFO; WARNING] (requested url w)))
            | Some x => (Raise x, logged [INFO; WARNING] (requested url w))
            end
          else (Raise e, logged [ERROR; WARNING] (requested url w))
        else (Raise e, requested url w)
    end.
Proof.
  cbn [safe_request_from]. unfold try_except, bind at 1, urlopen at 1, answer_from.
  rewrite Nat.add_0_r.
  destruct (urlopen_answer (length (requests w)) url) as [r | e]; [reflexivity |].
  destruct (is_URLError e); [| reflexivity].
  destruct (attempt <? retry_count - 1); [| reflexivity].
  unfold bind, logger, sleep. cbn [requests sleeps files log].
  destruct (sleep_error retry_delay); reflexivity.
Qed.

(** The loop, [k] failed attempts later, stops on the answer it gets. *)
Lemma safe_request_from_stops (k : nat) :
  sleep_error retry_delay = None \/ k = O ->
  forall left attempt w,
    attempt + Z.of_nat left = retry_count ->
    (k < left)%nat ->
    (forall i, (i < k)%nat -> retried (answer_from w url i) = true) ->
    retried (answer_from w url k) = false \/ S k = left ->
    let w' := after_failures url retry_delay k w in
    exists l,
      safe_request_from left attempt url retry_count retry_delay w
      = (handed (answer_from w url k),
         {| requests := url :: requests w'; sleeps := sleeps w';
            files := files w'; log := l |}).
Proof.
  induction k as [| k IH]; intros Hsleep left attempt w Hsum Hlt Hfail Hstop.
  - destruct left as [| left]; [lia |].
    rewrite safe_request_from_step. cbn [after_failures].
    destruct (answer_from w url 0) as [r | e] eqn:Ea; cbn [handed].
    + eexists. reflexivity.
    + destruct (is_URLError e) eqn:Ee.
      * destruct Hstop as [Hs | Hs]; [cbn in Hs; congruence |].
        assert (left = O) by lia. subst left.
        destruct (Z.ltb_spec attempt (retry_count - 1)); [lia |].
        eexists. reflexivity.
      * eexists. reflexivity.
  - destruct Hsleep as [Hsleep | Hk]; [| discriminate Hk].
    destruct left as [| left]; [lia |].
    rewrite safe_request_from_step. cbn [after_failures].
    pose proof (Hfail O ltac:(lia)) as H0.
    destruct (answer_from w url 0) as [r | e]; [discriminate |].
    cbn in H0. rewrite H0, Hsleep.
    destruct (Z.ltb_spec attempt (retry_count - 1)); [| lia].
    change (slept retry_delay (logged [INFO; WARNING] (requested url w)))
      with (one_failure url retry_delay w).
    destruct (IH (or_introl Hsleep) left (attempt + 1) (one_failure url retry_delay w))
      as [l El].
    + lia.
    + lia.
    + intros i Hi. rewrite answer_from_one_failure. apply Hfail. lia.
    + rewrite answer_from_one_failure. destruct Hstop as [Hs | Hs]; [left; exact Hs | right; lia].
    + rewrite answer_from_one_failure in El. exists l. exact El.
Qed.
End SafeRequest.

(* ===================================================================== *)
(** * [download_file] *)
(* ===================================================================== *)
Section MonadLaws.
Context {A B : Type}.

Lemma bind_ok (m : M A) (k : A -> M B) w a w' :
  m w = (Ok a, w') -> bind m k w = k a w'.
Proof. intros E. unfold bind. rewrite E. reflexivity. Qed.

Lemma bind_raise (m : M A) (k : A -> M B) w e w' :
  m w = (Raise e, w') -> bind m k w = (Raise e, w').
Proof. intros E. unfold bind. rewrite E. reflexivity. Qed.

Lemma try_ok (m : M A) (h : exn -> M A) w a w' :
  m w = (Ok a, w') -> try_except m h w = (Ok a, w').
Proof. intros E. unfold try_except. rewrite E. reflexivity. Qed.

Lemma try_raise (m : M A) (h : exn -> M A) w e w' :
  m w = (Raise e, w') -> try_except m h w = h e w'.
Proof. intros E. unfold try_except. rewrite E. reflexivity. Qed.
End MonadLaws.

Section DownloadFile.
Context `{Outside}.
Variables (url file_path : str) (expected_size : Q) (retry_count : Z) (retry_delay : Q).

Lemma skip_check_unknown w :
  size_known expected_size = false -> skip_check file_path expected_size w = (Ok false, w).
Proof.
  intros Hk. unfold skip_check, bind, path_exists. rewrite Hk, andb_false_r. reflexivity.
Qed.

Lemma skip_check_absent w :
  files w !! file_path = None -> skip_check file_path expected_size w = (Ok false, w).
Proof.
  intros Hf. unfold skip_check, bind, path_exists. rewrite Hf.
  rewrite bool_decide_eq_false_2 by (intros [x Hx]; discriminate). reflexivity.
Qed.

Lemma skip_check_file w n :
  files w !! file_path = Some (File n) ->
  skip_check file_path expected_size w
  = if size_known expected_size && size_close n expected_size
    then (Ok true, logged [INFO] w) else (Ok false, w).
Proof.
  intros Hf. unfold skip_check, bind, path_exists, getsize. rewrite Hf.
  rewrite bool_decide_eq_true_2 by eauto. cbn [andb].
  destruct (size_known expected_size); [| reflexivity]. cbn [andb].
  rewrite Hf. destruct (size_close n expected_size); reflexivity.
Qed.





End DownloadFile.

Section Incomplete.
Context `{Outside}.
Variables (url file_path : str) (expected_size : Q) (retry_count : Z) (retry_delay : Q).

(** C6, one attempt: a transfer that ends short of the length announced
    sends the loop to its next iteration after a sleep, or ends it on
    [False] when it was the last one; a sleep that raises is caught by the
    handler of the attempt, which sleeps again and lets that one through. *)
Lemma incomplete_attempt (left : nat) (attempt : Z) w w0 w1 total_size downloaded :
  skip_check file_path expected_size w = (Ok false, w0) ->
  transfer url file_path w0 = (Ok (total_size, downloaded), w1) ->
  0 < total_size -> total_size <> downloaded ->
  download_file_from (S left) attempt url file_path expected_size retry_count retry_delay w
  = if attempt <? retry_count - 1
    then match sleep_error retry_delay with
         | None =>
             download_file_from left (attempt + 1) url file_path expected_size
               retry_count retry_delay (slept retry_delay (logged [INFO; WARNING] w1))
         | Some x => (Raise x, logged [INFO; ERROR; INFO; WARNING] w1)
         end
    else (Ok (Some false), logged [WARNING] w1).
Proof.
  intros Hs Ht Hpos Hne.
  assert (Hb : (0 <? total_size) && negb (total_size =? downloaded) = true).
  { destruct (Z.ltb_spec 0 total_size); [| lia].
    destruct (Z.eqb_spec total_size downloaded); [contradiction | reflexivity]. }
  assert (Ha : download_attempt url file_path expected_size attempt retry_count retry_delay w
               = if attempt <? retry_count - 1
                 then match sleep_error retry_delay with
                      | None => (Ok Continue, slept retry_delay (logged [INFO; WARNING] w1))
                      | Some x => (Raise x, logged [INFO; ERROR; INFO; WARNING] w1)
                      end
                 else (Ok (Return (Some false)), logged [WARNING] w1)).
  { unfold download_attempt.
    match goal with |- try_except ?m ?h w = _ =>
      assert (Eb : m w = if attempt <? retry_count - 1
                         then match sleep_error retry_delay with
                              | None => (Ok Continue,
                                         slept retry_delay (logged [INFO; WARNING] w1))
                              | Some x => (Raise x, logged [INFO; WARNING] w1)
                              end
                         else (Ok (Return (Some false)), logged [WARNING] w1))
    end.
    { rewrite (bind_ok _ _ _ _ _ Hs). cbn iota.
      rewrite (bind_ok _ _ _ _ _ Ht). cbn [fst snd]. rewrite Hb.
      destruct (attempt <? retry_count - 1); [| reflexivity].
      unfold bind, logger, sleep. cbn [requests sleeps files log].
      destruct (sleep_error retry_delay); reflexivity. }
    unfold try_except. rewrite Eb.
    destruct (attempt <? retry_count - 1) eqn:El; [| reflexivity].
    destruct (sleep_error retry_delay) as [x |] eqn:Ex; [| reflexivity].
    unfold bind, logger, sleep. cbn [requests sleeps files log].
    rewrite Ex. reflexivity. }
  cbn [download_file_from]. unfold bind at 1. rewrite Ha.
  destruct (attempt <? retry_count - 1); [| reflexivity].
  destruct (sleep_error retry_delay); reflexivity.
Qed.

Lemma stream_chunks (chunks : list Z) :
  forall d0 s w,
    files w !! file_path = Some (File s) ->
    Forall (fun c => 0 < c) chunks ->
    exists w',
      stream (map Bytes chunks) file_path d0 w = (Ok (d0 + total_of chunks), w')
      /\ files w' !! file_path = Some (File (s + total_of chunks))
      /\ requests w' = requests w /\ sleeps w' = sleeps w.
Proof.
  induction chunks as [| c chunks IH]; intros d0 s w Hf Hpos.
  - exists w. cbn. rewrite !Z.add_0_r. auto.
  - apply Forall_cons in Hpos. destruct Hpos as [Hc Hpos].
    cbn [map stream total_of fold_right]. fold (total_of chunks).
    destruct (Z.leb_spec c 0); [lia |].
    set (w1 := set_files (<[file_path := File (s + c)]> (files w)) w).
    assert (Hw : write file_path c w = (Ok tt, w1)) by (unfold write; rewrite Hf; reflexivity).
    rewrite (bind_ok _ _ _ _ _ Hw).
    destruct (IH (d0 + c) (s + c) w1) as (w' & Es & Ef & Er & Esl).
    { subst w1. cbn. apply lookup_insert_eq. }
    { exact Hpos. }
    exists w'. rewrite Es, Ef, Er, Esl. subst w1. cbn [set_files requests sleeps].
    rewrite !Z.add_assoc. repeat split.
Qed.

Variables (r : response) (total_size : Z) (chunks : list Z).
Hypothesis r_length : content_length r = Length total_size.
Hypothesis r_body : body r = map Bytes chunks.
Hypothesis chunks_positive : Forall (fun c => 0 < c) chunks.
Hypothesis path_can_open : can_open file_path = true.

Lemma transfer_chunks w :
  answer_from w url 0 = Ok r ->
  files w !! file_path <> Some Dir ->
  exists w',
    transfer url file_path w = (Ok (total_size, total_of chunks), w')
    /\ files w' !! file_path = Some (File (total_of chunks))
    /\ requests w' = url :: requests w /\ sleeps w' = sleeps w.
Proof.
  intros Ha Hd.
  destruct (safe_request_from_stops url 3 5 0 (or_intror eq_refl) 3%nat 0 w) as [l El];
    [lia | lia | intros i Hi; lia | left; rewrite Ha; reflexivity |].
  rewrite Ha in El. cbn [handed after_failures] in El.
  unfold transfer, safe_request. change (Z.to_nat 3) with 3%nat.
  rewrite (bind_ok _ _ _ _ _ El).
  unfold total_size_of. rewrite r_length.
  unfold bind at 1, ret at 1.
  match goal with |- context [bind (open_wb file_path) _ ?w0] => set (wu := w0) end.
  set (wo := set_files (<[file_path := File 0]> (files wu)) wu).
  assert (Ho : open_wb file_path wu = (Ok tt, wo)).
  { unfold open_wb. subst wu. cbn [files]. rewrite path_can_open.
    destruct (files w !! file_path) as [[|]|]; [reflexivity | contradiction | reflexivity]. }
  rewrite (bind_ok _ _ _ _ _ Ho). rewrite r_body.
  destruct (stream_chunks chunks 0 0 wo) as (w' & Es & Ef & Er & Esl).
  { subst wo. cbn. apply lookup_insert_eq. }
  { exact chunks_positive. }
  exists w'. rewrite (bind_ok _ _ _ _ _ Es). rewrite Ef, Er, Esl.
  cbn. repeat split; reflexivity.
Qed.

Hypothesis announced : 0 < total_size.
Hypothesis incomplete : total_size <> total_of chunks.

Lemma no_skip_check w :
  files w !! file_path <> Some Dir -> no_skip file_path expected_size w ->
  skip_check file_path expected_size w = (Ok false, w).
Proof.
  intros Hd [Hk | Hf]; [apply skip_check_unknown, Hk |].
  destruct (files w !! file_path) as [[s |] |] eqn:E.
  - rewrite (skip_check_file _ _ w s E), Hf, andb_false_r. reflexivity.
  - contradiction.
  - apply skip_check_absent, E.
Qed.

Hypothesis retry_is_no_skip :
  size_known expected_size = false \/ size_close (total_of chunks) expected_size = false.
Hypothesis delay_accepted : sleep_error retry_delay = None.

(** C6, the whole loop: every attempt is answered by [r]. *)
Lemma incomplete_loop (left : nat) :
  forall attempt w,
    attempt + Z.of_nat left = retry_count ->
    (1 <= left)%nat ->
    (forall i, (i < left)%nat -> answer_from w url i = Ok r) ->
    files w !! file_path <> Some Dir ->
    no_skip file_path expected_size w ->
    exists w',
      download_file_from left attempt url file_path expected_size retry_count retry_delay w
      = (Ok (Some false), w')
      /\ requests w' = repeat url left ++ requests w
      /\ sleeps w' = repeat retry_delay (left - 1) ++ sleeps w
      /\ files w' !! file_path = Some (File (total_of chunks)).
Proof.
  induction left as [| left IH]; intros attempt w Hsum Hl Hans Hd Hns; [lia |].
  destruct (transfer_chunks w (Hans O ltac:(lia)) Hd) as (w1 & Et & Ef & Er & Es).
  rewrite (incomplete_attempt left attempt w w w1 total_size (total_of chunks)
             (no_skip_check w Hd Hns) Et announced incomplete).
  rewrite delay_accepted.
  destruct (Z.ltb_spec attempt (retry_count - 1)) as [Hlt | Hge].
  - set (w2 := slept retry_delay (logged [INFO; WARNING] w1)).
    destruct (IH (attempt + 1) w2) as (w' & Ed & Er' & Es' & Ef').
    + lia.
    + lia.
    + intros i Hi. unfold answer_from. subst w2. cbn [slept logged requests].
      rewrite Er. cbn [length]. replace (S (length (requests w)) + i)%nat
        with (length (requests w) + S i)%nat by lia. apply Hans. lia.
    + subst w2. cbn. rewrite Ef. discriminate.
    + unfold no_skip. subst w2. cbn [slept logged files]. rewrite Ef.
      destruct retry_is_no_skip as [Hk | Hc]; [left; exact Hk | right; exact Hc].
    + exists w'. rewrite Ed, Er', Es', Ef'. subst w2. cbn [slept logged requests sleeps].
      rewrite Er, Es. repeat split.
      * rewrite repeat_shift. reflexivity.
      * destruct left as [| left']; [lia |].
        cbn [Nat.sub repeat]. rewrite Nat.sub_0_r, repeat_shift. reflexivity.
  - assert (left = O) by lia. subst left.
    eexists. split; [reflexivity |]. cbn [logged requests sleeps files repeat app Nat.sub].
    rewrite Er, Es, Ef. repeat split.
Qed.
End Incomplete.

Lemma sleep_error_accepts (d : Q) :
  (0 <= d)%Q -> (d <= sleep_max)%Q -> sleep_error d = None.
Proof.
  intros H0 Hmax. unfold sleep_error.
  assert (Hlow : (- sleep_max <= d)%Q).
  { apply Qle_trans with 0%Q; [| exact H0]. unfold Qle. cbn. lia. }
  apply Qle_bool_iff in H0, Hmax, Hlow. rewrite H0, Hmax, Hlow. reflexivity.
Qed.

Lemma sleep_error_negative (d : Q) : (d < 0)%Q -> sleep_error d <> None.
Proof.
  intros Hneg. unfold sleep_error.
  destruct (Qle_bool 0 d) eqn:E0.
  - apply Qle_bool_iff in E0. exfalso. apply (Qlt_not_le _ _ Hneg), E0.
  - destruct (_ && _); discriminate.
Qed.

(** C4, as amended.  [safe_request] tries again after every exception of
    the [URLError] family, HTTP error statuses included, and after no other
    exception; it makes at most [retry_count] requests; when [time.sleep]
    accepts [retry_delay] (it is not negative and not beyond what the clock
    holds) it sleeps [retry_delay] between two requests and hands over the
    first response, or raises the first exception outside the family, or,
    when [retry_count] requests failed, raises the error of the last one;
    when [time.sleep] refuses [retry_delay], the first failure that would be
    tried again ends the call on the exception of [time.sleep], after one
    request. *)
Theorem safe_request_retries_on_URLError `{Outside}
    (url : str) (retry_count : Z) (retry_delay : Q) (w : World) (k : nat) :
  (k < Z.to_nat retry_count)%nat ->
  (forall i, (i < k)%nat -> retried (answer_from w url i) = true) ->
  retried (answer_from w url k) = false \/ S k = Z.to_nat retry_count ->
  let r := safe_request url retry_count retry_delay w in
  (sleep_error retry_delay = None \/ k = O ->
   fst r = handed (answer_from w url k)
   /\ requests (snd r) = repeat url (S k) ++ requests w
   /\ sleeps (snd r) = repeat retry_delay k ++ sleeps w
   /\ files (snd r) = files w)
  /\ (forall x, sleep_error retry_delay = Some x -> (1 <= k)%nat ->
      r = (Raise x, logged [INFO; WARNING] (requested url w)))
  /\ (forall status, retried (Raise (HTTPError status)) = true)
  /\ (forall name, retried (Raise (OtherError name)) = false)
  /\ ((0 <= retry_delay)%Q -> (retry_delay <= sleep_max)%Q ->
      sleep_error retry_delay = None)
  /\ ((retry_delay < 0)%Q -> sleep_error retry_delay <> None).
Proof.
  intros Hk Hfail Hstop. cbv zeta.
  split; [| split; [| split; [| split; [| split]]]].
  - intros Hsleep. unfold safe_request.
    destruct (safe_request_from_stops url retry_count retry_delay k Hsleep
                (Z.to_nat retry_count) 0 w) as [l El];
      [lia | exact Hk | exact Hfail | exact Hstop |].
    rewrite El. cbn [fst snd requests sleeps files].
    rewrite after_failures_requests, after_failures_sleeps, after_failures_files.
    repeat split.
  - intros x Hx Hpos. unfold safe_request.
    destruct (Z.to_nat retry_count) as [| left] eqn:En; [lia |].
    rewrite safe_request_from_step.
    pose proof (Hfail O ltac:(lia)) as H0.
    destruct (answer_from w url 0) as [r | e]; [discriminate H0 |].
    cbn in H0. rewrite H0, Hx.
    destruct (Z.ltb_spec 0 (retry_count - 1)); [reflexivity | lia].
  - reflexivity.
  - reflexivity.
  - apply sleep_error_accepts.
  - apply sleep_error_negative.
Qed.



(** The attempt after a transfer cut short finds the truncated file: when
    its size passes for the one expected, the call ends there on [True]. *)
Lemma truncated_then_skipped `{Outside}
    (url file_path : str) (expected_size : Q) (retry_count : Z) (retry_delay : Q)
    (r : response) (total_size : Z) (chunks : list Z) (w : World) :
  content_length r = Length total_size ->
  body r = map Bytes chunks ->
  Forall (fun c => 0 < c) chunks ->
  0 < total_size -> total_size <> total_of chunks ->
  can_open file_path = true ->
  2 <= retry_count ->
  sleep_error retry_delay = None ->
  answer_from w url 0 = Ok r ->
  files w !! file_path <> Some Dir ->
  no_skip file_path expected_size w ->
  size_known expected_size = true ->
  size_close (total_of chunks) expected_size = true ->
  exists w',
    download_file url file_path expected_size retry_count retry_delay w
    = (Ok (Some true), w')
    /\ requests w' = url :: requests w
    /\ sleeps w' = retry_delay :: sleeps w
    /\ files w' !! file_path = Some (File (total_of chunks)).
Proof.
  intros Hlen Hbody Hchunks Hpos Hne Hopen Hrc Hsleep Ha Hd Hns Hk Hc.
  destruct (transfer_chunks url file_path r total_size chunks Hlen Hbody Hchunks Hopen w Ha Hd)
    as (w1 & Et & Ef & Er & Es).
  unfold download_file.
  destruct (Z.to_nat retry_count) as [| [| left]] eqn:En; [lia | lia |].
  rewrite (incomplete_attempt url file_path expected_size retry_count retry_delay
             (S left) 0 w w w1 total_size (total_of chunks)
             (no_skip_check file_path expected_size w Hd Hns) Et Hpos Hne).
  rewrite Hsleep. destruct (Z.ltb_spec 0 (retry_count - 1)); [| lia].
  set (w2 := slept retry_delay (logged [INFO; WARNING] w1)).
  assert (Hf2 : files w2 !! file_path = Some (File (total_of chunks))) by exact Ef.
  assert (Hs : skip_check file_path expected_size w2 = (Ok true, logged [INFO] w2))
    by (rewrite (skip_check_file _ _ w2 _ Hf2), Hk, Hc; reflexivity).
  assert (Hatt : download_attempt url file_path expected_size (0 + 1) retry_count
                   retry_delay w2 = (Ok (Return (Some true)), logged [INFO] w2)).
  { unfold download_attempt. apply try_ok. rewrite (bind_ok _ _ _ _ _ Hs). reflexivity. }
  cbn [download_file_from]. rewrite (bind_ok _ _ _ _ _ Hatt).
  exists (logged [INFO] w2). split; [reflexivity |].
  subst w2. cbn [logged slept requests sleeps files]. rewrite Er, Es. auto.
Qed.

(** C6, as amended.  An attempt whose transfer announced a positive length
    and wrote another number of bytes ends the call on [False] when it was
    the last of the [retry_count] attempts; otherwise it sleeps
    [retry_delay] and the loop goes to its next iteration, which begins with
    the check on the file now on disk (when [time.sleep] refuses
    [retry_delay], its exception is caught, the handler sleeps again and the
    exception leaves [download_file]).  So when every attempt is cut short
    the same way: if the truncated file does not pass for the expected
    size, or there is one attempt only, the call makes [retry_count]
    requests, sleeps [retry_count - 1] times and returns [False]; if there
    are two attempts or more, the expected size is known and the
    truncated file is within 0.1 of it, the second iteration returns
    [True] after one request and one sleep. *)
Theorem incomplete_transfer_is_retried `{Outside}
    (url file_path : str) (expected_size : Q) (retry_count : Z) (retry_delay : Q) :
  (forall left attempt w w0 w1 total_size downloaded,
     skip_check file_path expected_size w = (Ok false, w0) ->
     transfer url file_path w0 = (Ok (total_size, downloaded), w1) ->
     0 < total_size -> total_size <> downloaded ->
     download_file_from (S left) attempt url file_path expected_size retry_count retry_delay w
     = if attempt <? retry_count - 1
       then match sleep_error retry_delay with
            | None =>
                download_file_from left (attempt + 1) url file_path expected_size
                  retry_count retry_delay (slept retry_delay (logged [INFO; WARNING] w1))
            | Some x => (Raise x, logged [INFO; ERROR; INFO; WARNING] w1)
            end
       else (Ok (Some false), logged [WARNING] w1))
  /\ (forall r total_size chunks w,
        content_length r = Length total_size ->
        body r = map Bytes chunks ->
        Forall (fun c => 0 < c) chunks ->
        0 < total_size -> total_size <> total_of chunks ->
        can_open file_path = true ->
        1 <= retry_count ->
        sleep_error retry_delay = None ->
        (forall i, (i < Z.to_nat retry_count)%nat -> answer_from w url i = Ok r) ->
        files w !! file_path <> Some Dir ->
        no_skip file_path expected_size w ->
        (size_known expected_size = false
         \/ size_close (total_of chunks) expected_size = false
         \/ retry_count = 1 ->
         exists w',
           download_file url file_path expected_size retry_count retry_delay w
           = (Ok (Some false), w')
           /\ requests w' = repeat url (Z.to_nat retry_count) ++ requests w
           /\ sleeps w' = repeat retry_delay (Z.to_nat retry_count - 1) ++ sleeps w
           /\ files w' !! file_path = Some (File (total_of chunks)))
        /\ (size_known expected_size = true ->
            size_close (total_of chunks) expected_size = true ->
            2 <= retry_count ->
            exists w',
              download_file url file_path expected_size retry_count retry_delay w
              = (Ok (Some true), w')
              /\ requests w' = url :: requests w
              /\ sleeps w' = retry_delay :: sleeps w
              /\ files w' !! file_path = Some (File (total_of chunks)))).
Proof.
  split.
  - intros left attempt w w0 w1 total_size downloaded Hs Ht Hpos Hne.
    (* the skip check leaves the world as it is when it answers no *)
    assert (w0 = w) as ->.
    { revert Hs. unfold skip_check, bind, path_exists.
      destruct (bool_decide (is_Some (files w !! file_path)) && size_known expected_size);
        [| unfold ret; congruence].
      destruct (getsize file_path w) as [[n | e] w2] eqn:Eg; [| congruence].
      assert (w2 = w) as ->.
      { revert Eg. unfold getsize.
        destruct (files w !! file_path) as [[|]|]; congruence. }
      destruct (size_close n expected_size); unfold logger, ret; congruence. }
    apply (incomplete_attempt url file_path expected_size retry_count retry_delay
             left attempt w w w1 total_size downloaded); assumption.
  - intros r total_size chunks w Hlen Hbody Hchunks Hpos Hne Hopen Hrc Hsleep Hans Hdir Hns.
    split.
    + intros Hretry.
      assert (Hcases : (size_known expected_size = false
                        \/ size_close (total_of chunks) expected_size = false)
                       \/ retry_count = 1) by tauto.
      destruct Hcases as [Hno | ->].
      * unfold download_file.
        apply (incomplete_loop url file_path expected_size retry_count retry_delay
                 r total_size chunks Hlen Hbody Hchunks Hopen Hpos Hne Hno Hsleep
                 (Z.to_nat retry_count) 0 w); try assumption; lia.
      * destruct (transfer_chunks url file_path r total_size chunks Hlen Hbody Hchunks Hopen
                    w (Hans O ltac:(lia)) Hdir) as (w1 & Et & Ef & Er & Es).
        unfold download_file. change (Z.to_nat 1) with 1%nat.
        rewrite (incomplete_attempt url file_path expected_size 1 retry_delay
                   O 0 w w w1 total_size (total_of chunks)
                   (no_skip_check file_path expected_size w Hdir Hns) Et Hpos Hne).
        cbn [Z.sub Z.ltb Z.compare Z.opp Z.add Z.pos_sub].
        exists (logged [WARNING] w1). split; [reflexivity |].
        cbn [logged requests sleeps files repeat Nat.sub app]. auto.
    + intros Hk Hc Hrc2.
      apply (truncated_then_skipped url file_path expected_size retry_count retry_delay
               r total_size chunks w); try assumption.
      apply Hans. lia.
Qed.

(* ===================================================================== *)
(** * [get_track_download_url] *)
(* ===================================================================== *)
Lemma find_first {A} (p : A -> bool) (l : list A) (x : A) :
  find p l = Some x ->
  p x = true /\ exists l1 l2, l = l1 ++ x :: l2 /\ Forall (fun y => p y = false) l1.
Proof.
  induction l as [| a l IH]; [discriminate |]. cbn [find].
  destruct (p a) eqn:Ea.
  - intros [= ->]. split; [exact Ea |]. exists [], l. split; [reflexivity | constructor].
  - intros Hf. destruct (IH Hf) as (Hx & l1 & l2 & -> & Hl1).
    split; [exact Hx |]. exists (a :: l1), l2. split; [reflexivity |].
    constructor; assumption.
Qed.

Section Resolver.
Context `{Outside}.
Variables (track_title : str) (page : detail_page).

Lemma scan_link_pick format_type acc m link :
  scan_link track_title format_type (with_pick track_title format_type acc m) link
  = with_pick track_title format_type (pick format_type acc link) m.
Proof.
  unfold scan_link, pick, labelled.
  destruct (link_matches format_type link); cbn [andb]; [| reflexivity].
  destruct (a_href link) as [[| c h] |] eqn:Eh; try reflexivity.
  rewrite bool_decide_eq_false_2 by discriminate.
  unfold with_pick, candidate. rewrite Eh.
  destruct acc; [rewrite insert_insert_eq |]; reflexivity.
Qed.

Lemma fold_scan_link format_type ls :
  forall acc m,
    fold_left (scan_link track_title format_type) ls (with_pick track_title format_type acc m)
    = with_pick track_title format_type (fold_left (pick format_type) ls acc) m.
Proof.
  induction ls as [| l ls IH]; intros acc m; [reflexivity |].
  cbn [fold_left]. rewrite scan_link_pick. apply IH.
Qed.

Lemma scan_links_from (P : list str) :
  forall m f,
    fold_left
      (fun download_links format_type =>
         fold_left (scan_link track_title format_type) (links page) download_links)
      P m !! f
    = match (if bool_decide (f ∈ P) then last_labelled f page else None) with
      | Some link => Some (candidate track_title f link)
      | None => m !! f
      end.
Proof.
  induction P as [| g P IH]; intros m f.
  - cbn [fold_left]. rewrite bool_decide_eq_false_2 by (apply not_elem_of_nil). reflexivity.
  - cbn [fold_left].
    change m with (with_pick track_title g None m) at 1. rewrite fold_scan_link.
    fold (last_labelled g page). rewrite IH.
    destruct (decide (f ∈ P)) as [Hin | Hnin].
    + rewrite !bool_decide_eq_true_2 by (try right; assumption).
      destruct (last_labelled f page) as [link |] eqn:El; [reflexivity |].
      destruct (decide (g = f)) as [-> | Hne].
      * rewrite El. reflexivity.
      * unfold with_pick. destruct (last_labelled g page);
          [rewrite lookup_insert_ne by assumption |]; reflexivity.
    + rewrite (bool_decide_eq_false_2 (f ∈ P)) by assumption.
      destruct (decide (g = f)) as [-> | Hne].
      * rewrite bool_decide_eq_true_2 by left.
        unfold with_pick. destruct (last_labelled f page);
          [rewrite lookup_insert_eq |]; reflexivity.
      * rewrite bool_decide_eq_false_2
          by (intros Hi; apply elem_of_cons in Hi; destruct Hi; [congruence | contradiction]).
        unfold with_pick. destruct (last_labelled g page);
          [rewrite lookup_insert_ne by assumption |]; reflexivity.
Qed.

Lemma scan_links_lookup (P : list str) (f : str) :
  scan_links track_title P page !! f
  = if bool_decide (f ∈ P)
    then candidate track_title f <$> last_labelled f page
    else None.
Proof.
  unfold scan_links. rewrite scan_links_from.
  destruct (bool_decide (f ∈ P)); [| apply lookup_empty].
  destruct (last_labelled f page); [reflexivity | apply lookup_empty].
Qed.

Lemma pick_some format_type ls link :
  exists link', fold_left (pick format_type) ls (Some link) = Some link'
                /\ (labelled format_type link = true -> labelled format_type link' = true).
Proof.
  revert link. induction ls as [| l ls IH]; intros link; [exists link; auto |].
  cbn [fold_left]. unfold pick at 2.
  destruct (labelled format_type l) eqn:El.
  - destruct (IH l) as (link' & E & Hl). exists link'. split; [exact E | auto].
  - apply IH.
Qed.

Lemma last_labelled_spec format_type :
  match last_labelled format_type page with
  | Some link => labelled format_type link = true /\ In link (links page)
                 /\ has_candidate page format_type = true
  | None => has_candidate page format_type = false
  end.
Proof.
  unfold last_labelled, has_candidate.
  assert (G : forall ls acc,
             match acc with Some l => labelled format_type l = true | None => True end ->
             match fold_left (pick format_type) ls acc with
             | Some link => labelled format_type link = true
                            /\ (In link ls \/ acc = Some link)
                            /\ (existsb (labelled format_type) ls = true \/ acc <> None)
             | None => existsb (labelled format_type) ls = false /\ acc = None
             end).
  { induction ls as [| l ls IHl]; intros acc Hacc.
    - cbn. destruct acc; [split; [exact Hacc | split; [right; reflexivity | right; discriminate]] | auto].
    - cbn [fold_left existsb]. unfold pick at 2.
      destruct (labelled format_type l) eqn:El.
      + specialize (IHl (Some l) El).
        destruct (fold_left (pick format_type) ls (Some l)) as [link |].
        * destruct IHl as (Hl & [Hi | Hi] & _).
          -- split; [exact Hl | split; [left; right; exact Hi | left; reflexivity]].
          -- injection Hi as ->. split; [exact Hl | split; [left; left; reflexivity | left; reflexivity]].
        * destruct IHl as [_ [=]].
      + specialize (IHl acc Hacc). cbn [orb].
        destruct (fold_left (pick format_type) ls acc) as [link |].
        * destruct IHl as (Hl & [Hi | Hi] & He).
          -- split; [exact Hl | split; [left; right; exact Hi | exact He]].
          -- split; [exact Hl | split; [right; exact Hi | exact He]].
        * exact IHl. }
  specialize (G (links page) None I).
  destruct (fold_left (pick format_type) (links page) None) as [link |].
  - destruct G as (Hl & [Hi | [=]] & [He | He]); [| congruence]. auto.
  - apply G.
Qed.

(** Lines 225-235 on the dictionary of the scan: the first format of the
    list that has a labelled link. *)
Lemma first_available_scan (P P' : list str) :
  (forall f, f ∈ P' -> f ∈ P) ->
  first_available P' (scan_links track_title P page)
  = match find (has_candidate page) P' with
    | Some f => (fun link => normalized (candidate track_title f link))
                  <$> last_labelled f page
    | None => None
    end.
Proof.
  induction P' as [| g P' IH]; intros Hsub; [reflexivity |].
  cbn [first_available find]. rewrite scan_links_lookup.
  rewrite bool_decide_eq_true_2 by (apply Hsub; left).
  pose proof (last_labelled_spec g) as Hg.
  destruct (last_labelled g page) as [link |] eqn:El; cbn [fmap option_fmap option_map].
  - destruct Hg as (_ & _ & ->). rewrite El. reflexivity.
  - rewrite Hg. apply IH. intros f Hf. apply Hsub. right. exact Hf.
Qed.
End Resolver.


(** C5, as amended.  In the audio-element tier (no labelled link for any
    format of [P], an [audio] element with a source), when ['flac'] is in
    [P], the resolver derives the FLAC URL by replacing every occurrence of
    [.mp3] in the normalized source with [.flac], requests it once, returns
    the FLAC candidate when the request succeeds and the MP3 candidate when
    it raises; it never raises itself. *)
Theorem audio_fallback_probes_flac `{Outside}
    (detail_url : str) (P : list str) (page : detail_page) (src : str) (w : World) :
  find (has_candidate page) P = None ->
  audio page = Some (Some src) -> src <> [] ->
  lit "flac" ∈ P ->
  let track_title := track_title_of detail_url page in
  let audio_src := normalize_url src in
  let flac_url := str_replace (lit ".mp3") (lit ".flac") audio_src in
  resolve_page detail_url P page w
  = (Ok (Some
           match answer_from w flac_url 0 with
           | Ok _ => {| ti_url := flac_url; ti_format := lit "flac";
                        ti_title := track_title; ti_size := 0 |}
           | Raise _ => {| ti_url := audio_src; ti_format := lit "mp3";
                           ti_title := track_title; ti_size := 0 |}
           end),
     requested flac_url w).
Proof.
  intros Hfind Haudio Hsrc Hflac. cbv zeta. unfold resolve_page.
  rewrite (first_available_scan _ page P P) by auto. rewrite Hfind, Haudio.
  destruct src as [| c src]; [contradiction |].
  unfold audio_fallback. rewrite bool_decide_eq_true_2 by assumption.
  unfold flac_url_of, answer_from. rewrite Nat.add_0_r.
  unfold bind at 1, try_except, bind, urlopen.
  destruct (urlopen_answer _ _) as [x | e]; reflexivity.
Qed.

(* ===================================================================== *)
(** * [download_track] and [download_album] *)
(* ===================================================================== *)

Section Success.
Context `{Outside}.

Lemma skip_check_true (p : str) (e : Q) w w' :
  skip_check p e w = (Ok true, w') -> is_Some (files w' !! p).
Proof.
  unfold skip_check, bind, path_exists.
  destruct (bool_decide (is_Some (files w !! p))) eqn:Eb; cbn [andb];
    [| unfold ret; intros [=]].
  apply bool_decide_eq_true_1 in Eb.
  destruct (size_known e); [| unfold ret; intros [=]].
  unfold getsize. destruct (files w !! p) as [[n |] |] eqn:Ef;
    [| | destruct Eb; discriminate].
  - destruct (size_close n e); unfold logger, ret; intros [=]; subst w'.
    cbn. rewrite Ef. eauto.
  - destruct (size_close (dir_size p) e); unfold logger, ret; intros [=]; subst w'.
    cbn. rewrite Ef. eauto.
Qed.

Lemma open_wb_ok (p : str) w w' :
  open_wb p w = (Ok tt, w') -> files w' !! p = Some (File 0).
Proof.
  unfold open_wb.
  destruct (files w !! p) as [[n |] |]; try (intros [=]; fail);
    destruct (can_open p); intros [=]; subst w'; cbn; apply lookup_insert_eq.
Qed.

Lemma transfer_ok (u p : str) w sizes w' :
  transfer u p w = (Ok sizes, w') -> is_Some (files w' !! p).
Proof.
  unfold transfer, bind at 1.
  destruct (safe_request u 3 5 w) as [[[r |] | e] w1]; try (intros [=]; fail).
  unfold bind at 1.
  destruct (total_size_of r w1) as [[t | e] w2]; [| intros [=]].
  unfold bind at 1.
  destruct (open_wb p w2) as [[[] | e] w3] eqn:Eo; [| intros [=]].
  apply open_wb_ok in Eo.
  unfold bind.
  pose proof (steady_stream (body r) p 0 w3) as [Hg _].
  destruct (stream (body r) p 0 w3) as [[d | e] w4]; intros [=]; subst.
  apply Hg. rewrite Eo. eauto.
Qed.

Lemma download_attempt_success (u p : str) (e : Q) (a c : Z) (d : Q) w w' :
  download_attempt u p e a c d w = (Ok (Return (Some true)), w') ->
  is_Some (files w' !! p).
Proof.
  unfold download_attempt, try_except.
  match goal with |- context [bind (skip_check p e) ?k w] =>
    destruct (bind (skip_check p e) k w) as [[o | x] w0] eqn:Eb end.
  - intros [=]; subst. revert Eb. unfold bind at 1.
    destruct (skip_check p e w) as [[[] | x] ws] eqn:Es; [| | intros [=]].
    + intros [=]; subst. eapply skip_check_true, Es.
    + unfold bind at 1.
      destruct (transfer u p ws) as [[sizes | x] wt] eqn:Et; [| intros [=]].
      apply transfer_ok in Et.
      destruct ((0 <? fst sizes) && negb (fst sizes =? snd sizes)).
      * unfold bind, logger, sleep, ret.
        destruct (a <? c - 1); [destruct (sleep_error d) |]; intros [=].
      * unfold bind, logger, ret. intros [=]; subst. exact Et.
  - unfold bind, logger, sleep, ret.
    destruct (a <? c - 1); [destruct (sleep_error d) |]; intros [=].
Qed.

Lemma download_file_from_success (left : nat) (a : Z) (u p : str) (e : Q) (c : Z) (d : Q) :
  forall w w',
    download_file_from left a u p e c d w = (Ok (Some true), w') ->
    is_Some (files w' !! p).
Proof.
  revert a. induction left as [| left IH]; intros a w w'; cbn [download_file_from].
  - intros [=].
  - unfold bind.
    destruct (download_attempt u p e a c d w) as [[[v |] | x] w1] eqn:Ea;
      [| apply IH | intros [=]].
    unfold ret. intros [=]; subst. eapply download_attempt_success, Ea.
Qed.

(** A track reported as downloaded has its file on disk. *)
Lemma download_track_success (t : track) (album : album_info) (dir : str)
    (config : Config) (n : option Z) w w' :
  download_track t album dir config n w = (Ok (Some true), w') ->
  exists info, is_Some (files w' !! file_path_of t info dir config n).
Proof.
  unfold download_track, try_except.
  match goal with |- context [bind ?m ?k w] =>
    destruct (bind m k w) as [[o | x] w0] eqn:Eb end.
  - intros [=]; subst. revert Eb. unfold bind at 1.
    destruct (get_track_download_url (url t) (format_preference config) w)
      as [[[info |] | x] w1]; [| | intros [=]].
    + unfold bind at 1.
      destruct (download_file _ _ _ _ _ w1) as [[[[] |] | x] w2] eqn:Ed;
        try (unfold ret; intros [=]; fail).
      apply download_file_from_success in Ed.
      unfold bind.
      pose proof (steady_set_metadata
                    (file_path_of t info dir config n) (track_filename_of t config n)
                    album n w2) as [Hg _].
      destruct (set_metadata _ _ _ _ w2) as [[[] | x] w3]; intros [=]; subst.
      exists info. apply Hg, Ed.
    + unfold bind, logger, ret. intros [=].
  - unfold bind, logger, ret. intros [=].
Qed.


Lemma download_track_returns (t : track) (album : album_info) (dir : str)
    (config : Config) (n : option Z) w :
  exists b w', download_track t album dir config n w = (Ok b, w').
Proof.
  unfold download_track, try_except.
  match goal with |- context [bind ?m ?k w] =>
    destruct (bind m k w) as [[o | x] w0] end; [eauto |].
  unfold bind, logger, ret. eauto.
Qed.
End Success.

Section Pool.
Context `{Outside}.
Variables (album : album_info) (dir : str) (config : Config).

Lemma run_task_inv (t : task) w :
  exists b w', run_task album dir config t w = (Ok (position t, b), w')
               /\ download_track (task_track t) album dir config (Some (task_number t)) w
                  = (Ok b, w').
Proof.
  destruct (download_track_returns (task_track t) album dir config (Some (task_number t)) w)
    as (b & w' & E).
  exists b, w'. split; [| exact E]. unfold run_task. rewrite (bind_ok _ _ _ _ _ E). reflexivity.
Qed.

Lemma run_in_order_inv (pending : list task) :
  forall w, exists done w',
    run_in_order album dir config pending w = (Ok done, w')
    /\ map fst done = map position pending
    /\ Forall (ran album dir config pending w') done.
Proof.
  induction pending as [| t rest IH]; intros w.
  - exists [], w. repeat split; constructor.
  - destruct (run_task_inv t w) as (b & w1 & Er & Ed).
    destruct (IH w1) as (done & w2 & Erest & Hpos & Hran).
    exists ((position t, b) :: done), w2. cbn [run_in_order].
    rewrite (bind_ok _ _ _ _ _ Er), (bind_ok _ _ _ _ _ Erest).
    split; [reflexivity |]. split; [cbn; f_equal; exact Hpos |].
    constructor.
    + exists t, w, w1. cbn [fst snd].
      split; [left; reflexivity |]. split; [reflexivity |]. split; [exact Ed |].
      pose proof (steady_run_in_order album dir config rest w1) as Hg.
      rewrite Erest in Hg. exact Hg.
    + eapply Forall_impl; [exact Hran |].
      intros e (t' & wa & wb & Hin & Hp & Hd & Hg).
      exists t', wa, wb. split; [right; exact Hin | auto].
Qed.

Lemma In_delete {A} (i : nat) (l : list A) (x : A) : In x (delete i l) -> In x l.
Proof.
  revert i. induction l as [| a l IH]; intros i; [destruct i; auto |].
  destruct i as [| i]; cbn; [auto |]. intros [-> | Hin]; [auto | right; eapply IH, Hin].
Qed.

Lemma run_pool_inv (schedule : list nat) :
  forall pending w, exists done w',
    run_pool schedule album dir config pending w = (Ok done, w')
    /\ map fst done ≡ₚ map position pending
    /\ Forall (ran album dir config pending w') done.
Proof.
  induction schedule as [| c schedule IH]; intros pending w.
  - destruct (run_in_order_inv pending w) as (done & w' & E & Hpos & Hran).
    exists done, w'. cbn [run_pool]. rewrite Hpos. auto.
  - cbn [run_pool].
    destruct (pending !! (c mod length pending)%nat) as [t |] eqn:El.
    + destruct (run_task_inv t w) as (b & w1 & Er & Ed).
      destruct (IH (delete (c mod length pending)%nat pending) w1)
        as (done & w2 & Erest & Hpos & Hran).
      exists ((position t, b) :: done), w2.
      rewrite (bind_ok _ _ _ _ _ Er), (bind_ok _ _ _ _ _ Erest).
      split; [reflexivity |]. split.
      * cbn [map fst].
        transitivity (map position (t :: delete (c mod length pending)%nat pending)).
        -- cbn [map]. apply Permutation_cons; [reflexivity | exact Hpos].
        -- apply Permutation_map. symmetry. apply delete_Permutation, El.
      * constructor.
        -- exists t, w, w1. cbn [fst snd].
           split; [apply list_elem_of_In; eapply list_elem_of_lookup_2, El |].
           split; [reflexivity |]. split; [exact Ed |].
           pose proof (steady_run_pool schedule album dir config
                         (delete (c mod length pending)%nat pending) w1) as Hg.
           rewrite Erest in Hg. exact Hg.
        -- eapply Forall_impl; [exact Hran |].
           intros e (t' & wa & wb & Hin & Hp & Hd & Hg).
           exists t', wa, wb. split; [eapply In_delete, Hin | auto].
    + exists [], w. split; [reflexivity |].
      assert (pending = []) as ->.
      { destruct pending as [| t pending]; [reflexivity |].
        apply lookup_ge_None in El.
        pose proof (Nat.mod_upper_bound c (length (t :: pending)) ltac:(cbn; lia)). lia. }
      split; constructor.
Qed.
End Pool.

Lemma future_result_In (done : list (nat * option bool)) (i : nat) (b : bool) :
  future_result done i = Some b -> In (i, Some b) done.
Proof.
  unfold future_result. destruct (find _ done) as [[j r] |] eqn:Ef; [| discriminate].
  apply find_some in Ef. destruct Ef as [Hin Hj]. cbn in Hj.
  apply Nat.eqb_eq in Hj. subst j. cbn. intros ->. exact Hin.
Qed.


Lemma submit_In (tracks : list track) (t : task) :
  In t (submit tracks) ->
  tracks !! position t = Some (task_track t)
  /\ task_number t = Z.of_nat (position t) + 1.
Proof.
  intros Hin. apply list_elem_of_In in Hin. unfold submit in Hin.
  apply elem_of_lookup_imap in Hin. destruct Hin as (i & x & -> & Hx).
  cbn. auto.
Qed.

Lemma submit_positions (tracks : list track) :
  map position (submit tracks) = seq 0 (length tracks).
Proof.
  unfold submit.
  assert (G : forall k, map position
                (imap (fun i t => {| position := k + i; task_track := t;
                                     task_number := Z.of_nat (k + i) + 1 |}) tracks)
              = seq k (length tracks)).
  { induction tracks as [| t tracks IH]; intros k; [reflexivity |].
    cbn [imap map length seq position]. rewrite Nat.add_0_r. f_equal.
    rewrite <- (IH (S k)). f_equal. apply imap_ext. intros i x _. cbn.
    replace (k + S i)%nat with (S k + i)%nat by lia. reflexivity. }
  apply (G 0%nat).
Qed.

Lemma filter_all {A} (P : A -> Prop) `{forall x, Decision (P x)} (l : list A) :
  (length (filter P l) <= length l)%nat
  /\ (length (filter P l) = length l -> Forall P l).
Proof.
  induction l as [| a l [IH1 IH2]]; [split; [reflexivity | constructor] |].
  rewrite filter_cons. destruct (decide (P a)) as [Ha | Ha]; cbn [length].
  - split; [lia |]. intros E. constructor; [exact Ha | apply IH2; lia].
  - split; [lia |]. intros E. lia.
Qed.

Lemma count_successes_le (done : list (nat * option bool)) (n : nat) :
  (count_successes done n <= n)%nat.
Proof.
  unfold count_successes.
  destruct (filter_all (fun i => future_result done i = Some true) (seq 0 n)) as [Hle _].
  rewrite length_seq in Hle. exact Hle.
Qed.

Lemma count_successes_all (done : list (nat * option bool)) (n : nat) :
  count_successes done n = n ->
  forall i, (i < n)%nat -> future_result done i = Some true.
Proof.
  unfold count_successes. intros E i Hi.
  destruct (filter_all (fun i => future_result done i = Some true) (seq 0 n)) as [_ Hall].
  rewrite length_seq in Hall. specialize (Hall E).
  rewrite Forall_forall in Hall. apply Hall. apply elem_of_seq. lia.
Qed.

Section Album.
Context `{Outside}.

(** The file of every call of the executor that reports success is on
    disk when the executor is done, under the number the call was
    submitted with. *)
Lemma run_pool_files (schedule : list nat) (album : album_info) (dir : str)
    (config : Config) (w : World) :
  exists done w',
    run_pool schedule album dir config (submit (tracks album)) w = (Ok done, w')
    /\ map fst done ≡ₚ seq 0 (length (tracks album))
    /\ forall i t,
         tracks album !! i = Some t ->
         future_result done i = Some true ->
         exists info,
           is_Some (files w' !! file_path_of t info dir config (Some (Z.of_nat i + 1))).
Proof.
  destruct (run_pool_inv album dir config schedule (submit (tracks album)) w)
    as (done & w' & E & Hperm & Hran).
  exists done, w'. split; [exact E |]. split; [rewrite <- submit_positions; exact Hperm |].
  intros i t Ht Hres. apply future_result_In in Hres.
  rewrite Forall_forall in Hran. apply list_elem_of_In in Hres.
  destruct (Hran _ Hres) as (tk & wa & wb & Hin & Hp & Hd & Hg).
  cbn [fst snd] in *. destruct (submit_In _ _ Hin) as [Htk Hn].
  rewrite Hp in Htk. rewrite Ht in Htk. injection Htk as ->.
  rewrite Hn, Hp in Hd.
  destruct (download_track_success _ _ _ _ _ _ _ Hd) as [info Hf].
  exists info. destruct Hg as [Hfiles _]. apply Hfiles, Hf.
Qed.

End Album.

(** What [f"{n:02d}"] begins with is a digit or a minus sign. *)
Lemma format_02d_head (n : Z) :
  exists c rest, format_02d n = c :: rest /\ char_eqb slash c = false.
Proof.
  unfold format_02d.
  destruct (n <? 0); [eexists _, _; split; reflexivity |].
  destruct (n <? 10); [eexists _, _; split; reflexivity |].
  destruct (N.to_uint (Z.to_N (Z.abs n))) as [| d | d | d | d | d | d | d | d | d | d];
    eexists _, _; split; reflexivity.
Qed.




(** C2. For an album parsed to [N] tracks, whatever the order the executor
    runs the downloads in: [download_album] returns [success_count == N],
    where [success_count] is the number [M] of tracks whose download
    returned success; so it returns [False] when [M < N] and [True] only when
    every track succeeded; and the file of every track that succeeded is on
    disk when it returns. *)
Theorem download_album_all_or_nothing `{Outside}
    (schedule : list nat) (album_url : str) (config : Config)
    (w w0 w1 : World) (album : album_info) :
  validate_url album_url = true ->
  get_album_info album_url config (logged [INFO] w) = (Ok (Some album), w0) ->
  tracks album <> [] ->
  make_output_dirs config (path_join (output_directory config) (title album)) w0
  = (Ok tt, w1) ->
  0 < max_threads config ->
  let dir := path_join (output_directory config) (title album) in
  let N := length (tracks album) in
  exists done w2,
    run_pool schedule album dir config (submit (tracks album)) (logged [INFO] w1)
    = (Ok done, w2)
    /\ let M := count_successes done N in
       download_album schedule album_url config w
       = (Ok (Nat.eqb M N), logged [INFO] w2)
       /\ (M <= N)%nat
       /\ ((M < N)%nat -> Nat.eqb M N = false)
       /\ (Nat.eqb M N = true ->
           forall i, (i < N)%nat -> future_result done i = Some true)
       /\ (forall i t,
             tracks album !! i = Some t ->
             future_result done i = Some true ->
             exists info,
               is_Some (files (logged [INFO] w2)
                          !! file_path_of t info dir config (Some (Z.of_nat i + 1)))).
Proof.
  intros Hurl Hinfo Htracks Hdirs Hthreads dir N.
  destruct (run_pool_files schedule album dir config (logged [INFO] w1))
    as (done & w2 & Epool & _ & Hfiles).
  exists done, w2. split; [exact Epool |]. cbv zeta.
  split; [| split; [apply count_successes_le | split; [| split]]].
  - unfold download_album. rewrite Hurl. cbn [negb].
    unfold bind at 1, logger at 1. change (logger INFO w) with (Ok tt, logged [INFO] w).
    cbn iota. rewrite (bind_ok _ _ _ _ _ Hinfo).
    rewrite bool_decide_eq_false_2 by assumption.
    fold dir. rewrite (bind_ok _ _ _ _ _ Hdirs).
    unfold bind at 1, logger at 1. cbn iota.
    destruct (Z.leb_spec (max_threads config) 0); [lia |].
    change {| requests := requests w1; sleeps := sleeps w1; files := files w1;
              log := INFO :: log w1 |} with (logged [INFO] w1).
    rewrite (bind_ok _ _ _ _ _ Epool). reflexivity.
  - intros Hlt. apply Nat.eqb_neq. lia.
  - intros E. apply Nat.eqb_eq in E. apply count_successes_all, E.
  - exact Hfiles.
Qed.


(* ===================================================================== *)
(** * File names and configuration *)
(* ===================================================================== *)

Lemma replace_char (c d : char) (s : str) :
  str_replace [c] [d] s = map (fun x => if char_eqb c x then d else x) s.
Proof.
  unfold str_replace. induction s as [| x s IH]; [reflexivity |].
  cbn [replace_from startswith map length Nat.sub app].
  rewrite andb_true_r. destruct (char_eqb c x); cbn [app]; f_equal; exact IH.
Qed.

Lemma sanitize_filename_map (s : str) : sanitize_filename s = map sanitize_char s.
Proof.
  unfold sanitize_filename, forbidden_chars.
  change (lit "\") with [chr 92]. change (lit "/") with [chr 47].
  change (lit ":") with [chr 58]. change (lit "*") with [chr 42].
  change (lit "?") with [chr 63]. change (lit "<") with [chr 60].
  change (lit ">") with [chr 62]. change (lit "|") with [chr 124].
  change (lit "_") with [chr 95].
  cbn [fold_left]. rewrite !replace_char, !map_map.
  apply map_ext. intros x.
  unfold sanitize_char, is_forbidden, forbidden_chars. cbn [existsb].
  change (lit "\") with [chr 92]. change (lit "/") with [chr 47].
  change (lit ":") with [chr 58]. change (lit "*") with [chr 42].
  change (lit "?") with [chr 63]. change (lit "<") with [chr 60].
  change (lit ">") with [chr 62]. change (lit "|") with [chr 124].
  repeat match goal with
    | |- context [char_eqb ?c x] =>
        destruct (char_eqb c x) eqn:E;
        [ apply char_eqb_eq in E; subst x; reflexivity
        | assert ([c] <> [x]) by (intros [= <-]; vm_compute in E; discriminate E);
          rewrite (bool_decide_eq_false_2 ([c] = [x])) by assumption; clear E;
          cbv iota ]
    end.
  reflexivity.
Qed.

Lemma sanitize_char_allowed (c : char) : is_forbidden (sanitize_char c) = false.
Proof.
  unfold sanitize_char. destruct (is_forbidden c) eqn:E; [reflexivity | exact E].
Qed.

Lemma sanitize_filename_allowed (s : str) :
  Forall (fun c => is_forbidden c = false) (sanitize_filename s).
Proof.
  rewrite sanitize_filename_map. apply Forall_forall. intros c Hc.
  apply list_elem_of_In, in_map_iff in Hc. destruct Hc as [x [<- _]].
  apply sanitize_char_allowed.
Qed.

Lemma path_join_suffix (a b : str) : exists prefix, path_join a b = prefix ++ b.
Proof.
  unfold path_join. destruct (startswith [slash] b); [exists []; reflexivity |].
  destruct (bool_decide (a = []) || endswith [slash] a); [exists a; reflexivity |].
  exists (a ++ [slash]). rewrite <- app_assoc. reflexivity.
Qed.

Lemma get_album_info_title `{Outside} (u : str) (config : Config) w album w' :
  get_album_info u config w = (Ok (Some album), w') ->
  exists heading, title album = sanitize_filename heading.
Proof.
  unfold get_album_info, try_except.
  match goal with |- context [bind ?m ?k w] =>
    destruct (bind m k w) as [[o | x] w0] eqn:Eb end.
  - intros [=]; subst. revert Eb. unfold bind at 1.
    destruct (safe_request u (retry_attempts config) (retry_delay config) w)
      as [[r | x] w1]; [| intros [=]].
    unfold bind at 1. destruct (album_soup r w1) as [[soup | x] w2]; [| intros [=]].
    destruct (songlist soup) as [rows |]; unfold bind, logger, ret; intros [=]; subst.
    eexists. reflexivity.
  - unfold bind, logger, ret. intros [=].
Qed.

(** C10. The path of a track ends with the name of the catalog entry
    followed by [.format], whatever the title that the resolution extracted;
    [sanitize_filename] replaces each of the nine forbidden characters with
    [_], and it is the album title that goes through it, not the track
    name. *)
Theorem track_name_is_not_sanitized `{Outside}
    (t : track) (info : track_info) (dir : str) (config : Config) (n : option Z) :
  (exists prefix,
     file_path_of t info dir config n = prefix ++ name t ++ lit "." ++ ti_format info)
  /\ (forall u other_title size,
        file_path_of t {| ti_url := u; ti_format := ti_format info;
                          ti_title := other_title; ti_size := size |} dir config n
        = file_path_of t info dir config n)
  /\ (forall s, sanitize_filename s = map sanitize_char s
                /\ Forall (fun c => is_forbidden c = false) (sanitize_filename s))
  /\ (forall u w album w',
        get_album_info u config w = (Ok (Some album), w') ->
        Forall (fun c => is_forbidden c = false) (title album)).
Proof.
  split; [| split; [| split]].
  - unfold file_path_of.
    destruct (path_join_suffix dir
                (track_filename_of t config n ++ lit "." ++ ti_format info)) as [p Hp].
    rewrite Hp. unfold track_filename_of.
    destruct n as [k |]; [destruct (include_track_number config) |].
    + exists (p ++ format_02d k ++ lit " - "). rewrite <- !app_assoc. reflexivity.
    + exists p. reflexivity.
    + exists p. reflexivity.
  - reflexivity.
  - intros s. split; [apply sanitize_filename_map | apply sanitize_filename_allowed].
  - intros u w album w' E. destruct (get_album_info_title _ _ _ _ _ E) as [h ->].
    apply sanitize_filename_allowed.
Qed.

(** C9, as amended.  For every stored JSON object, a key that the object
    lacks keeps its default and every key of the object, documented or not,
    is in the configuration returned with the stored value: its keys are the
    six documented ones and those of the object.  A file that cannot be
    loaded gives the defaults and one warning. *)
Theorem load_config_merges (home : str) (o : gmap str json) :
  (forall k,
     fst (load_config home (Object o)) !! k
     = match o !! k with
       | Some v => Some v
       | None => DEFAULT_CONFIG home !! k
       end)
  /\ dom (fst (load_config home (Object o))) = documented_keys ∪ dom o
  /\ snd (load_config home (Object o)) = []
  /\ dom (DEFAULT_CONFIG home) = documented_keys
  /\ load_config home Broken = (DEFAULT_CONFIG home, [WARNING])
  /\ load_config home NoFile = (DEFAULT_CONFIG home, []).
Proof.
  assert (Hd : dom (DEFAULT_CONFIG home) = documented_keys).
  { unfold DEFAULT_CONFIG, documented_keys. rewrite !dom_insert_L, dom_empty_L.
    cbn [list_to_set]. set_solver. }
  split; [| split; [| split; [| split; [| split]]]]; try reflexivity; try exact Hd.
  - intros k. cbn [load_config fst]. unfold dict_update.
    rewrite lookup_union. destruct (o !! k), (DEFAULT_CONFIG home !! k); reflexivity.
  - cbn [load_config fst]. unfold dict_update. rewrite dom_union_L, Hd.
    apply union_comm_L.
Qed.

(* ===================================================================== *)
(** * The statements on the example catalog *)
(* ===================================================================== *)

Section Examples.
#[local] Existing Instance example_outside.


Lemma download_album_all_or_nothing_witness :
exists w',
  download_album [1%nat] example_album_url example_config empty_world = (Ok false, w')
  /\ is_Some (files w' !! lit "out/Demo_ OST/01 - One.flac").
Proof.
pose (w0 := snd (get_album_info example_album_url example_config
                   (logged [INFO] empty_world))).
pose (w1 := snd (make_output_dirs example_config (lit "out/Demo_ OST") w0)).
destruct (download_album_all_or_nothing (H := example_outside)
            [1%nat] example_album_url example_config empty_world w0 w1 example_album)
  as (done & w2 & Epool & Hdl & _).
- reflexivity.
- reflexivity.
- discriminate.
- reflexivity.
- reflexivity.
- assert (Hd : fst (run_pool [1%nat] example_album (lit "out/Demo_ OST") example_config
                      (submit example_tracks) (logged [INFO] w1))
               = Ok [(1%nat, Some false); (0%nat, Some true)]).
  { vm_compute. reflexivity. }
  assert (Hf : is_Some (files (snd (run_pool [1%nat] example_album (lit "out/Demo_ OST")
                                      example_config (submit example_tracks)
                                      (logged [INFO] w1)))
                          !! lit "out/Demo_ OST/01 - One.flac")).
  { vm_compute. eauto. }
  change (run_pool [1%nat] example_album (lit "out/Demo_ OST") example_config
            (submit example_tracks) (logged [INFO] w1) = (Ok done, w2)) in Epool.
  rewrite Epool in Hd, Hf. simpl in Hd, Hf. injection Hd as ->.
  exists (logged [INFO] w2). split; [exact Hdl | exact Hf].
Defined.

Lemma audio_fallback_probes_flac_witness :
let P := [lit "flac"; lit "mp3"] in
lit "flac" ∈ P
/\ resolve_page (lit "https://downloads.khinsider.com/t/c%20d.mp3") P
     example_audio_page empty_world
   = (Ok (Some {| ti_url := lit "https://x/m.flac/c%20d.flac"; ti_format := lit "flac";
                  ti_title := lit "c d"; ti_size := 0 |}),
      requested (lit "https://x/m.flac/c%20d.flac") empty_world).
Proof.
cbv zeta. split; [left |].
rewrite (audio_fallback_probes_flac (H := example_outside)
           (lit "https://downloads.khinsider.com/t/c%20d.mp3") [lit "flac"; lit "mp3"]
           example_audio_page (lit "https://x/m.mp3/c d.mp3") empty_world
           ltac:(reflexivity) ltac:(reflexivity) ltac:(discriminate) ltac:(left)).
reflexivity.
Defined.



Lemma track_name_is_not_sanitized_witness :
let t := {| name := lit "AC/DC?"; url := lit "https://downloads.khinsider.com/t/two.mp3" |} in
let info := {| ti_url := lit "https://x/a%20b.flac"; ti_format := lit "flac";
               ti_title := lit "First"; ti_size := 10 |} in
(exists prefix,
   file_path_of t info (lit "out/Demo_ OST") example_config (Some 2)
   = prefix ++ lit "AC/DC?" ++ lit "." ++ lit "flac")
/\ file_path_of t info (lit "out/Demo_ OST") example_config (Some 2)
   = lit "out/Demo_ OST/02 - AC/DC?.flac"
/\ Forall (fun c => is_forbidden c = false) (title example_album).
Proof.
cbv zeta.
destruct (track_name_is_not_sanitized
            {| name := lit "AC/DC?"; url := lit "https://downloads.khinsider.com/t/two.mp3" |}
            {| ti_url := lit "https://x/a%20b.flac"; ti_format := lit "flac";
               ti_title := lit "First"; ti_size := 10 |}
            (lit "out/Demo_ OST") example_config (Some 2))
  as (Hp & _ & _ & Ht).
split; [exact Hp |]. split; [reflexivity |].
apply (Ht example_album_url empty_world example_album
          (logged [INFO] (requested example_album_url empty_world))).
reflexivity.
Defined.

Lemma unknown_key_is_kept :
let stored : gmap str json := {[ (lit "theme") := JStr (lit "dark") ]} in
let loaded := fst (load_config (lit "/home/u") (Object stored)) in
loaded !! lit "theme" = Some (JStr (lit "dark"))
/\ (lit "theme" ∉ documented_keys)
/\ dom loaded <> documented_keys.
Proof.
cbv zeta.
assert (Hn : lit "theme" ∉ documented_keys).
{ unfold documented_keys. cbn [list_to_set].
  rewrite !elem_of_union, !elem_of_singleton, elem_of_empty.
  intros Hor.
  repeat (destruct Hor as [Hor | Hor]); try contradiction;
    apply (f_equal codes) in Hor; vm_compute in Hor; discriminate Hor. }
assert (Hl : fst (load_config (lit "/home/u")
                    (Object {[ (lit "theme") := JStr (lit "dark") ]}))
             !! lit "theme" = Some (JStr (lit "dark"))).
{ cbn [load_config fst]. unfold dict_update.
  rewrite lookup_union, lookup_singleton_eq.
  destruct (DEFAULT_CONFIG (lit "/home/u") !! lit "theme"); reflexivity. }
split; [exact Hl |]. split; [exact Hn |].
intros E. apply Hn. rewrite <- E. apply elem_of_dom. rewrite Hl. eauto.
Qed.

Lemma safe_request_retries_on_URLError_witness :
let url := lit "https://x/flaky" in
let r := safe_request url 3 5 empty_world in
fst r = Ok (Some page_response)
/\ requests (snd r) = [url; url; url]
/\ sleeps (snd r) = [5%Q; 5%Q].
Proof.
cbv zeta.
destruct (safe_request_retries_on_URLError
            (lit "https://x/flaky") 3 5 empty_world 2)
  as (Hok & _).
- vm_compute. lia.
- intros i Hi. destruct i as [| [| i]]; [reflexivity | reflexivity | lia].
- left. reflexivity.
- destruct (Hok (or_introl eq_refl)) as (Hr & Hreq & Hsl & _).
  split; [exact Hr |]. split; [exact Hreq | exact Hsl].
Defined.

Lemma http_status_is_retried :
let url := lit "https://x/missing" in
let r := safe_request url 3 5 empty_world in
let r' := safe_request (lit "https://x/flaky") 3 (-1) empty_world in
answer_from empty_world url 0 = Raise (HTTPError 404)
/\ fst r = Raise (HTTPError 404)
/\ requests (snd r) = [url; url; url]
/\ sleeps (snd r) = [5%Q; 5%Q]
/\ answer_from empty_world (lit "https://x/flaky") 0 = Raise (URLError "timed out")
/\ fst r' = Raise (OtherError "ValueError")
/\ requests (snd r') = [lit "https://x/flaky"]
/\ sleeps (snd r') = [].
Proof. cbv zeta. repeat split; reflexivity. Qed.



Lemma incomplete_transfer_is_retried_witness :
let url := lit "https://x/interrupted.mp3" in
let p := lit "out/Demo/03 - Long.mp3" in
exists w',
  download_file url p 10 3 5 empty_world = (Ok (Some false), w')
  /\ requests w' = [url; url; url]
  /\ sleeps w' = [5%Q; 5%Q]
  /\ files w' !! p = Some (File (4 * 1024 * 1024)).
Proof.
cbv zeta.
destruct (incomplete_transfer_is_retried
            (lit "https://x/interrupted.mp3") (lit "out/Demo/03 - Long.mp3") 10 3 5)
  as [_ Hloop].
destruct (Hloop interrupted_response (10 * 1024 * 1024) (repeat 8192 512) empty_world)
  as [Hfails _].
- reflexivity.
- reflexivity.
- apply Forall_forall. intros c Hc. apply list_elem_of_In, repeat_spec in Hc. lia.
- lia.
- vm_compute. discriminate.
- reflexivity.
- lia.
- reflexivity.
- intros i Hi. reflexivity.
- discriminate.
- right. exact I.
- destruct Hfails as (w' & E & Hreq & Hsl & Hf); [right; left; reflexivity |].
  exists w'. split; [exact E |]. split; [exact Hreq |]. split; [exact Hsl | exact Hf].
Defined.

Lemma truncated_file_passes_for_complete :
let url := lit "https://x/one.flac" in
let p := lit "out/Demo/01 - One.flac" in
let r := download_file (H := truncating_outside) url p 10 3 5 empty_world in
let r' := download_file (lit "https://x/interrupted.mp3") (lit "out/Demo/03 - Long.mp3")
            10 3 (-1) empty_world in
content_length nearly_complete_response = Length 10485760
/\ total_of (repeat 8192 1273 ++ [4915]) = 10433331
/\ fst r = Ok (Some true)
/\ requests (snd r) = [url]
/\ sleeps (snd r) = [5%Q]
/\ files (snd r) !! p = Some (File 10433331)
/\ fst r' = Raise (OtherError "ValueError")
/\ requests (snd r') = [lit "https://x/interrupted.mp3"]
/\ sleeps (snd r') = [].
Proof.
cbv zeta.
split; [reflexivity |]. split; [vm_compute; reflexivity |].
split; [vm_compute; reflexivity |]. split; [vm_compute; reflexivity |].
split; [vm_compute; reflexivity |]. split; [vm_compute; reflexivity |].
split; [vm_compute; reflexivity |]. split; vm_compute; reflexivity.
Qed.

Lemma double_encoding_survives :
let u := lit "https://x/a%2520b.mp3" in
normalize_url u = u
/\ unquote u = lit "https://x/a%20b.mp3"
/\ unquote (unquote u) = lit "https://x/a b.mp3"
/\ ~ single_encoded (normalize_url u).
Proof.
cbv zeta.
assert (E : normalize_url (lit "https://x/a%2520b.mp3") = lit "https://x/a%2520b.mp3").
{ vm_compute. reflexivity. }
split; [exact E |]. split; [vm_compute; reflexivity |]. split; [vm_compute; reflexivity |].
rewrite E. unfold single_encoded. intros Hs.
apply (f_equal codes) in Hs. vm_compute in Hs. discriminate Hs.
Qed.

Lemma flac_url_replaces_every_mp3 :
let audio_src := lit "https://x/a.mp3/b.mp3" in
flac_url_of audio_src = lit "https://x/a.flac/b.flac"
/\ replace_mp3_suffix audio_src = lit "https://x/a.mp3/b.flac"
/\ flac_url_of audio_src <> replace_mp3_suffix audio_src.
Proof.
cbv zeta. split; [reflexivity |]. split; [reflexivity |].
intros E. apply (f_equal codes) in E. vm_compute in E. discriminate E.
Qed.

End Examples.

(* ===================================================================== *)
(** * The string methods *)
(* ===================================================================== *)

Lemma startswith_spec (p s : str) :
  startswith p s = true <-> exists t, s = p ++ t.
Proof.
  revert s. induction p as [| a p IH]; intros s; cbn [startswith].
  - split; [intros _; exists s; reflexivity | reflexivity].
  - destruct s as [| b s].
    + split; [discriminate | intros [t E]; discriminate E].
    + rewrite andb_true_iff, char_eqb_eq, IH. split.
      * intros [-> [t ->]]. exists t. reflexivity.
      * intros [t E]. injection E as -> ->. split; [reflexivity | exists t; reflexivity].
Qed.

Lemma contains_spec (sub s : str) :
  contains sub s = true <-> exists before after, s = before ++ sub ++ after.
Proof.
  induction s as [| c s IH]; cbn [contains].
  - rewrite startswith_spec. split.
    + intros [t E]. exists [], t. exact E.
    + intros (before & after & E). destruct before; [| discriminate E].
      exists after. exact E.
  - rewrite orb_true_iff, startswith_spec, IH. split.
    + intros [[t E] | (before & after & E)].
      * exists [], t. exact E.
      * exists (c :: before), after. rewrite E. reflexivity.
    + intros (before & after & E). destruct before as [| b before].
      * left. exists after. exact E.
      * right. injection E as -> E. exists before, after. exact E.
Qed.

Lemma lstrip_split (s : str) :
  exists blanks, s = blanks ++ lstrip s /\ forallb is_space blanks = true.
Proof.
  induction s as [| c s (blanks & E & Hb)]; cbn [lstrip].
  - exists []. split; reflexivity.
  - destruct (is_space c) eqn:Ec.
    + exists (c :: blanks). cbn. rewrite Ec, Hb. split; [f_equal; exact E | reflexivity].
    + exists []. split; reflexivity.
Qed.

Lemma lstrip_head (s : str) :
  match lstrip s with c :: _ => is_space c = false | [] => True end.
Proof.
  induction s as [| c s IH]; cbn [lstrip]; [exact I |].
  destruct (is_space c) eqn:Ec; [exact IH | exact Ec].
Qed.

Lemma lstrip_fixed (s : str) :
  match s with c :: _ => is_space c = false | [] => True end -> lstrip s = s.
Proof. destruct s as [| c s]; [reflexivity |]. cbn. intros ->. reflexivity. Qed.

Lemma lstrip_idem (s : str) : lstrip (lstrip s) = lstrip s.
Proof. apply lstrip_fixed, lstrip_head. Qed.

(** What [strip] returns has no white space at either end. *)
Lemma strip_trimmed (s : str) : trimmed (strip s).
Proof.
  unfold trimmed, strip. rewrite rev_involutive, lstrip_idem. split; [| reflexivity].
  apply lstrip_fixed.
  pose proof (lstrip_head s) as Ha.
  destruct (lstrip_split (rev (lstrip s))) as (blanks & E & _).
  apply (f_equal (@rev char)) in E. rewrite rev_involutive, rev_app_distr in E.
  destruct (rev (lstrip (rev (lstrip s)))) as [| c t]; [exact I |].
  rewrite E in Ha. exact Ha.
Qed.

Lemma strip_fixed (s : str) : trimmed s -> strip s = s.
Proof. intros [Hl Hr]. unfold strip. rewrite Hl, Hr. apply rev_involutive. Qed.

Lemma strip_idem (s : str) : strip (strip s) = strip s.
Proof. apply strip_fixed, strip_trimmed. Qed.

Lemma lstrip_nil (s : str) : lstrip s = [] -> forallb is_space s = true.
Proof.
  intros E. destruct (lstrip_split s) as (blanks & Es & Hb).
  rewrite E, app_nil_r in Es. rewrite Es. exact Hb.
Qed.

Lemma strip_nil (s : str) : strip s = [] -> forallb is_space s = true.
Proof.
  unfold strip. intros E.
  apply (f_equal (@rev char)) in E. rewrite rev_involutive in E. cbn in E.
  apply lstrip_nil in E.
  assert (Ha : lstrip s = []).
  { pose proof (lstrip_head s) as Hh. destruct (lstrip s) as [| c t]; [reflexivity |].
    cbn [rev] in E. rewrite forallb_app in E. cbn in E.
    rewrite Hh in E. rewrite andb_false_r in E. discriminate E. }
  apply lstrip_nil, Ha.
Qed.

(** X1. [validate_url] accepts exactly the texts that hold the marker. *)
Theorem validate_url_marker (url : str) :
  validate_url url = true <-> exists before after, url = before ++ url_marker ++ after.
Proof.
  rewrite <- contains_spec. unfold validate_url. fold url_marker.
  destruct (contains url_marker url) eqn:Ec; cbn [negb].
  - rewrite bool_decide_eq_false_2; [tauto |].
    intros Es. apply strip_nil in Es.
    apply contains_spec in Ec. destruct Ec as (before & after & ->).
    rewrite !forallb_app in Es. apply andb_true_iff in Es. destruct Es as [_ Es].
    apply andb_true_iff in Es. destruct Es as [Es _]. vm_compute in Es. discriminate Es.
  - destruct (bool_decide (strip url = [])); split; discriminate.
Qed.

(* ===================================================================== *)
(** * [sanitize_filename], once more *)
(* ===================================================================== *)

(** X2. [sanitize_filename] keeps the length of a name, changes nothing in a
    name it has been applied to, and leaves a name as it is exactly when
    the name holds none of the nine characters. *)
Theorem sanitize_filename_settles (s : str) :
  length (sanitize_filename s) = length s
  /\ sanitize_filename (sanitize_filename s) = sanitize_filename s
  /\ (sanitize_filename s = s <-> Forall (fun c => is_forbidden c = false) s).
Proof.
  assert (Hfix : forall t, Forall (fun c => is_forbidden c = false) t ->
                           sanitize_filename t = t).
  { intros t Ht. rewrite sanitize_filename_map.
    induction Ht as [| c t Hc _ IH]; [reflexivity |].
    cbn [map]. rewrite IH. unfold sanitize_char. rewrite Hc. reflexivity. }
  split; [rewrite sanitize_filename_map; apply length_map |].
  split; [apply Hfix, sanitize_filename_allowed |].
  split; [| apply Hfix].
  intros E. rewrite <- E. apply sanitize_filename_allowed.
Qed.

(* ===================================================================== *)
(** * [split] and [join] *)
(* ===================================================================== *)

Lemma split_from_skip (sep s : str) :
  forall skip cur, split_from sep s skip cur = split_from sep (drop skip s) O cur.
Proof.
  induction s as [| c s IH]; intros skip cur.
  - destruct skip; reflexivity.
  - destruct skip as [| k]; [reflexivity |]. cbn [split_from drop]. apply IH.
Qed.

Lemma split_from_cons (sep s : str) (skip : nat) (cur : str) :
  exists piece rest, split_from sep s skip cur = piece :: rest.
Proof.
  revert skip cur. induction s as [| c s IH]; intros skip cur; cbn [split_from]; [eauto |].
  destruct skip as [| k]; [| apply IH].
  destruct (startswith sep (c :: s)); [eauto | apply IH].
Qed.

Lemma join_cons (sep piece : str) (rest : list str) :
  rest <> [] -> join sep (piece :: rest) = piece ++ sep ++ join sep rest.
Proof. destruct rest; [contradiction | reflexivity]. Qed.

Lemma join_split_from (sep : str) (n : nat) :
  sep <> [] ->
  forall s cur, (length s <= n)%nat -> join sep (split_from sep s O cur) = rev cur ++ s.
Proof.
  intros Hsep. induction n as [| n IH]; intros s cur Hn.
  - destruct s; [| cbn in Hn; lia]. cbn. rewrite app_nil_r. reflexivity.
  - destruct s as [| c s]; [cbn; rewrite app_nil_r; reflexivity |].
    cbn [split_from]. destruct (startswith sep (c :: s)) eqn:Es.
    + apply startswith_spec in Es. destruct Es as [t Et].
      destruct sep as [| a sep']; [contradiction |].
      injection Et as <- ->.
      rewrite split_from_skip. cbn [length]. rewrite Nat.sub_succ, Nat.sub_0_r.
      rewrite drop_app_length.
      destruct (split_from_cons (c :: sep') t O []) as (piece & rest & Ep).
      rewrite join_cons by (rewrite Ep; discriminate).
      rewrite IH by (cbn in Hn; rewrite length_app in Hn; lia).
      reflexivity.
    + rewrite IH by (cbn in Hn; lia). cbn [rev]. rewrite <- app_assoc. reflexivity.
Qed.

Lemma split_from_absent (sep s : str) :
  forall cur, contains sep s = false -> split_from sep s O cur = [rev cur ++ s].
Proof.
  induction s as [| c s IH]; intros cur Hc.
  - cbn. rewrite app_nil_r. reflexivity.
  - cbn [contains] in Hc. apply orb_false_iff in Hc. destruct Hc as [Hs Hc].
    cbn [split_from]. rewrite Hs, IH by exact Hc. cbn [rev].
    rewrite <- app_assoc. reflexivity.
Qed.

(** X3. [str.split] cuts a text into pieces that [join] puts together
    again, and a text without the separator is its only piece. *)
Theorem join_split (sep s : str) :
  sep <> [] ->
  join sep (str_split sep s) = s
  /\ str_split sep s <> []
  /\ (contains sep s = false -> str_split sep s = [s]).
Proof.
  intros Hsep. unfold str_split. split; [| split].
  - apply (join_split_from sep (length s) Hsep s []). lia.
  - destruct (split_from_cons sep s O []) as (piece & rest & ->). discriminate.
  - apply split_from_absent.
Qed.

Lemma join_split_witness :
  join (lit ",") (str_split (lit ",") (lit "flac, mp3,,ogg")) = lit "flac, mp3,,ogg"
  /\ str_split (lit ",") (lit "flac, mp3,,ogg")
     = [lit "flac"; lit " mp3"; lit ""; lit "ogg"].
Proof.
  split; [| reflexivity].
  apply (join_split (lit ",") (lit "flac, mp3,,ogg")). discriminate.
Defined.

(* ===================================================================== *)
(** * The command line *)
(* ===================================================================== *)

(** Two literals are told apart by their code points. *)
Ltac lit_ne :=
  let E := fresh "E" in
  intros E; apply (f_equal codes) in E; vm_compute in E; discriminate E.

(** X4. The arguments change four entries of the configuration at most:
    every other entry, [retry_attempts] and [retry_delay] among them, is
    left as loaded; [-t 0] leaves [max_threads] as loaded; the formats of
    [-f] are the pieces between its commas, as typed; and
    [include_track_number] can be switched off only. *)
Theorem apply_args_entries (args : Args) (config : gmap str json) :
  (forall k, k ∉ argument_keys -> apply_args args config !! k = config !! k)
  /\ (arg_threads args = Some 0 ->
      apply_args args config !! lit "max_threads" = config !! lit "max_threads")
  /\ (forall f, arg_format args = Some f -> f <> [] ->
      exists pieces,
        apply_args args config !! lit "format_preference" = Some (JArr (map JStr pieces))
        /\ join (lit ",") pieces = f)
  /\ apply_args args config !! lit "include_track_number"
     = if arg_no_track_numbers args then Some (JBool false)
       else config !! lit "include_track_number".
Proof.
  unfold apply_args. split; [| split; [| split]].
  - intros k Hk. unfold argument_keys in Hk.
    rewrite !not_elem_of_cons in Hk. destruct Hk as (H1 & H2 & H3 & H4 & _).
    destruct (arg_no_track_numbers args);
      rewrite ?lookup_insert_ne by (intros E; apply H4; symmetry; exact E);
      (destruct (arg_format args) as [[| c1 s1] |];
       rewrite ?lookup_insert_ne by (intros E; apply H3; symmetry; exact E));
      (destruct (arg_threads args) as [n |]; [destruct (n =? 0) |];
       rewrite ?lookup_insert_ne by (intros E; apply H2; symmetry; exact E));
      (destruct (arg_output_dir args) as [[| c2 s2] |];
       rewrite ?lookup_insert_ne by (intros E; apply H1; symmetry; exact E));
      reflexivity.
  - intros ->. cbn [Z.eqb].
    destruct (arg_no_track_numbers args); rewrite ?lookup_insert_ne by lit_ne;
      (destruct (arg_format args) as [[| c1 s1] |]; rewrite ?lookup_insert_ne by lit_ne);
      (destruct (arg_output_dir args) as [[| c2 s2] |]; rewrite ?lookup_insert_ne by lit_ne);
      reflexivity.
  - intros f -> Hf. destruct f as [| c s]; [contradiction |].
    exists (str_split (lit ",") (c :: s)). split.
    + destruct (arg_no_track_numbers args); rewrite ?lookup_insert_ne by lit_ne;
        apply lookup_insert_eq.
    + unfold str_split.
      apply (join_split_from (lit ",") (length (c :: s))); [discriminate | lia].
  - destruct (arg_no_track_numbers args); [apply lookup_insert_eq |].
    destruct (arg_format args) as [[| c1 s1] |]; rewrite ?lookup_insert_ne by lit_ne;
      (destruct (arg_threads args) as [n |]; [destruct (n =? 0) |];
       rewrite ?lookup_insert_ne by lit_ne);
      (destruct (arg_output_dir args) as [[| c2 s2] |]; rewrite ?lookup_insert_ne by lit_ne);
      reflexivity.
Qed.

Lemma apply_args_entries_witness :
  let config := apply_args example_args (DEFAULT_CONFIG (lit "/home/u")) in
  config !! lit "max_threads" = Some (JNum 3)
  /\ config !! lit "retry_attempts" = Some (JNum 3)
  /\ config !! lit "format_preference" = Some (JArr [JStr (lit "FLAC"); JStr (lit " mp3")])
  /\ config !! lit "include_track_number" = Some (JBool false).
Proof.
  destruct (apply_args_entries example_args (DEFAULT_CONFIG (lit "/home/u")))
    as (Hother & Hthreads & _ & Htrack).
  cbv zeta. split; [| split; [| split]].
  - rewrite Hthreads by reflexivity. reflexivity.
  - rewrite Hother; [reflexivity |]. unfold argument_keys.
    rewrite !not_elem_of_cons. repeat split; try lit_ne. apply not_elem_of_nil.
  - reflexivity.
  - rewrite Htrack. reflexivity.
Defined.

Lemma url_of_line_spec (line : str) :
  url_of_line line = if decide (url_line line) then [strip line] else [].
Proof.
  unfold url_of_line, url_line.
  destruct (decide _) as [[Hn Hs] | Hno].
  - rewrite bool_decide_eq_false_2 by exact Hn. rewrite Hs. reflexivity.
  - destruct (bool_decide_reflect (strip line = [])) as [E | Hn]; [reflexivity |].
    destruct (startswith (lit "#") (strip line)) eqn:Es; [reflexivity |].
    exfalso. apply Hno. split; [exact Hn | reflexivity].
Qed.

Lemma In_url_lines (ls : list str) (u : str) :
  In u (flat_map url_of_line ls) <-> exists line, In line ls /\ url_line line /\ u = strip line.
Proof.
  rewrite in_flat_map. split.
  - intros (line & Hin & Hu). exists line. split; [exact Hin |].
    rewrite url_of_line_spec in Hu. destruct (decide (url_line line)) as [Hl |]; [| destruct Hu].
    destruct Hu as [<- | []]. split; [exact Hl | reflexivity].
  - intros (line & Hin & Hl & ->). exists line. split; [exact Hin |].
    rewrite url_of_line_spec. destruct (decide (url_line line)); [left; reflexivity | contradiction].
Qed.

(** X5. The list of URLs to process is the URL of [-u], as typed, followed
    by the lines of the input file in their order, each stripped, the
    blank ones and those that start with [#] left out; the file adds
    nothing when it is not named or not there; nothing is requested,
    nothing sleeps and nothing on disk changes; the log gets one error
    exactly when the file is read and reading it fails, the lines read
    before that being kept; and a URL is not checked before it is put on
    the list. *)
Theorem collect_urls_lines (args : Args) (input : input_file) (w : World) :
  exists given from_file w',
    collect_urls args input w = (Ok (given ++ from_file), w')
    /\ files w' = files w /\ requests w' = requests w /\ sleeps w' = sleeps w
    /\ log w' = (if reads_input args w && read_fails input then ERROR :: log w else log w)
    /\ (forall u, In u given <-> u <> [] /\ arg_url args = Some u)
    /\ (forall u, In u from_file ->
          trimmed u /\ u <> [] /\ startswith (lit "#") u = false
          /\ exists line, In line (lines input) /\ u = strip line)
    /\ from_file = (if reads_input args w then flat_map url_of_line (lines input) else [])
    /\ (reads_input args w = true
        <-> exists p, arg_input_file args = Some p /\ p <> [] /\ is_Some (files w !! p))
    /\ (forall p, arg_input_file args = Some p -> is_Some (files w !! p) -> p <> [] ->
          from_file = flat_map url_of_line (lines input)
          /\ forall line, In line (lines input) -> url_line line -> In (strip line) from_file).
Proof.
  set (given := match arg_url args with Some (c :: s) => [c :: s] | _ => [] end).
  assert (Hgiven : forall u, In u given <-> u <> [] /\ arg_url args = Some u).
  { intros u. subst given. destruct (arg_url args) as [[| c s] |]; cbn.
    - split; [tauto | intros [Hn [= <-]]; contradiction].
    - split; [intros [<- | []]; split; [discriminate | reflexivity] |].
      intros [_ [= <-]]. left. reflexivity.
    - split; [tauto | intros [_ E]; discriminate E]. }
  assert (Hfile : forall u, In u (flat_map url_of_line (lines input)) ->
            trimmed u /\ u <> [] /\ startswith (lit "#") u = false
            /\ exists line, In line (lines input) /\ u = strip line).
  { intros u Hu. apply In_url_lines in Hu. destruct Hu as (line & Hin & [Hn Hs] & ->).
    split; [apply strip_trimmed |]. split; [exact Hn |]. split; [exact Hs |].
    exists line. split; [exact Hin | reflexivity]. }
  assert (Hnone : forall u, In u (@nil str) ->
            trimmed u /\ u <> [] /\ startswith (lit "#") u = false
            /\ exists line, In line (lines input) /\ u = strip line)
    by (intros u []).
  assert (Hall : forall line, In line (lines input) -> url_line line ->
                   In (strip line) (flat_map url_of_line (lines input))).
  { intros line Hin Hl. apply In_url_lines. exists line. auto. }
  assert (Hreads : reads_input args w = true
                   <-> exists p, arg_input_file args = Some p /\ p <> []
                                 /\ is_Some (files w !! p)).
  { unfold reads_input. destruct (arg_input_file args) as [[| c p] |].
    - split; [discriminate |]. intros (p & [= <-] & Hp & _). contradiction.
    - rewrite bool_decide_eq_true. split.
      + intros Hthere. exists (c :: p). split; [reflexivity |]. split; [discriminate | exact Hthere].
      + intros (q & [= <-] & _ & Hthere). exact Hthere.
    - split; [discriminate |]. intros (p & Hp & _). discriminate Hp. }
  unfold collect_urls. fold given.
  destruct (arg_input_file args) as [[| c p] |] eqn:Ea.
  - assert (Hr : reads_input args w = false) by (unfold reads_input; rewrite Ea; reflexivity).
    exists given, [], w. rewrite app_nil_r.
    split; [reflexivity |]. split; [reflexivity |]. split; [reflexivity |].
    split; [reflexivity |]. split; [rewrite Hr; reflexivity |].
    split; [exact Hgiven |]. split; [exact Hnone |]. split; [rewrite Hr; reflexivity |].
    split; [exact Hreads |].
    intros p [= <-] _ Hp. contradiction.
  - unfold bind at 1, path_exists at 1. cbv beta iota.
    destruct (decide (is_Some (files w !! (c :: p)))) as [Hthere | Hnot].
    + assert (Hr : reads_input args w = true)
        by (unfold reads_input; rewrite Ea; apply bool_decide_eq_true_2, Hthere).
      rewrite (bool_decide_eq_true_2 _ Hthere).
      exists given, (flat_map url_of_line (lines input)).
      destruct (read_fails input);
        [exists (logged [ERROR] w) | exists w];
        (split; [reflexivity |]; split; [reflexivity |]; split; [reflexivity |];
         split; [reflexivity |]; split; [rewrite Hr; reflexivity |];
         split; [exact Hgiven |]; split; [exact Hfile |]; split; [rewrite Hr; reflexivity |];
         split; [exact Hreads |];
         intros q _ _ _; split; [reflexivity | exact Hall]).
    + assert (Hr : reads_input args w = false)
        by (unfold reads_input; rewrite Ea; apply bool_decide_eq_false_2, Hnot).
      rewrite (bool_decide_eq_false_2 _ Hnot).
      exists given, [], w. rewrite app_nil_r.
      split; [reflexivity |]. split; [reflexivity |]. split; [reflexivity |].
      split; [reflexivity |]. split; [rewrite Hr; reflexivity |].
      split; [exact Hgiven |]. split; [exact Hnone |]. split; [rewrite Hr; reflexivity |].
      split; [exact Hreads |].
      intros q [= <-] Hq _. contradiction.
  - assert (Hr : reads_input args w = false) by (unfold reads_input; rewrite Ea; reflexivity).
    exists given, [], w. rewrite app_nil_r.
    split; [reflexivity |]. split; [reflexivity |]. split; [reflexivity |].
    split; [reflexivity |]. split; [rewrite Hr; reflexivity |].
    split; [exact Hgiven |]. split; [exact Hnone |]. split; [rewrite Hr; reflexivity |].
    split; [exact Hreads |].
    intros q Hq. discriminate Hq.
Qed.

(** X6. The prompt ends on a URL exactly when that URL is the first valid
    answer and no answer before it, nor the URL itself, is [q] in either
    case: it never hands over a URL that [validate_url] refuses. *)
Theorem prompt_first_valid (lower : str -> str) (answers : list str) (u : str) :
  prompt lower answers = Chosen u
  <-> exists before after,
        answers = before ++ u :: after
        /\ validate_url u = true /\ lower u <> lit "q"
        /\ Forall (fun a => validate_url a = false /\ lower a <> lit "q") before.
Proof.
  induction answers as [| a rest IH]; cbn [prompt].
  - split; [discriminate |]. intros (before & after & E & _). destruct before; discriminate E.
  - destruct (bool_decide_reflect (lower a = lit "q")) as [Hq | Hq].
    + split; [discriminate |]. intros (before & after & E & Hv & Hu & Hb).
      destruct before as [| b before]; injection E as <- E; [contradiction |].
      apply Forall_cons in Hb. destruct Hb as [[_ Hb] _]. contradiction.
    + destruct (validate_url a) eqn:Hv.
      * split.
        -- intros [= <-]. exists [], rest. repeat split; auto.
        -- intros (before & after & E & Hvu & Hu & Hb).
           destruct before as [| b before]; injection E as <- E; [reflexivity |].
           apply Forall_cons in Hb. destruct Hb as [[Hb _] _]. congruence.
      * rewrite IH. split.
        -- intros (before & after & -> & Hvu & Hu & Hb).
           exists (a :: before), after. repeat split; auto.
        -- intros (before & after & E & Hvu & Hu & Hb).
           destruct before as [| b before]; injection E as <- E; [congruence |].
           apply Forall_cons in Hb. destruct Hb as [_ Hb].
           exists before, after. repeat split; auto.
Qed.

(* ===================================================================== *)
(** * The budget of [safe_request] *)
(* ===================================================================== *)

Section Budget.
Context `{Outside}.
Variables (url : str) (retry_count : Z) (retry_delay : Q).

Lemma safe_request_from_budget (left : nat) :
  forall attempt w,
    attempt + Z.of_nat left = retry_count ->
    exists n,
      (n <= left)%nat /\ ((1 <= left)%nat -> (1 <= n)%nat)
      /\ after_requests url retry_delay n w
           (snd (safe_request_from left attempt url retry_count retry_delay w))
      /\ ((1 <= left)%nat ->
          fst (safe_request_from left attempt url retry_count retry_delay w) <> Ok None).
Proof.
  assert (Hone : forall (x : result (option response)) w,
            x <> Ok None ->
            exists n, (n <= 1)%nat /\ (1 <= n)%nat
              /\ after_requests url retry_delay n w (snd (x, requested url w))
              /\ fst (x, requested url w) <> Ok None).
  { intros x w Hx. exists 1%nat. unfold after_requests. cbn. repeat split; auto. }
  induction left as [| left IH]; intros attempt w Hsum.
  - exists O. unfold after_requests. cbn.
    split; [lia |]. split; [intros; lia |]. split; [repeat split | intros; lia].
  - rewrite safe_request_from_step.
    destruct (answer_from w url 0) as [r | e].
    + destruct (Hone (Ok (Some r)) w ltac:(discriminate)) as (n & Hn & Hp & Ha & Hx).
      exists n. split; [lia |]. split; [intros; lia |]. split; [exact Ha | intros _; exact Hx].
    + destruct (is_URLError e).
      * destruct (Z.ltb_spec attempt (retry_count - 1)) as [Hlt | Hge].
        -- destruct (sleep_error retry_delay) as [x |].
           { exists 1%nat. unfold after_requests. cbn.
             split; [lia |]. split; [intros; lia |]. split; [repeat split | discriminate]. }
           set (w0 := slept retry_delay (logged [INFO; WARNING] (requested url w))).
           destruct (IH (attempt + 1) w0 ltac:(lia)) as (n & Hn & Hpos & (Er & Es & Ef) & Hnone).
           subst w0. cbn [slept logged requested requests sleeps files] in Er, Es, Ef.
           assert (Hl : (1 <= left)%nat) by lia. specialize (Hpos Hl).
           exists (S n). split; [lia |]. split; [lia |].
           split; [| intros _; apply Hnone; assumption].
           unfold after_requests. rewrite Er, Es, Ef. repeat split.
           ++ apply repeat_shift.
           ++ destruct n as [| n']; [lia |]. cbn [Nat.sub]. rewrite !Nat.sub_0_r.
              apply repeat_shift.
        -- exists 1%nat. unfold after_requests. cbn.
           split; [lia |]. split; [intros; lia |]. split; [repeat split | discriminate].
      * destruct (Hone (Raise e) w ltac:(discriminate)) as (n & Hn & Hp & Ha & Hx).
        exists n. split; [lia |]. split; [intros; lia |]. split; [exact Ha | intros _; exact Hx].
Qed.

Lemma safe_request_budget (w : World) :
  exists n,
    (n <= Z.to_nat retry_count)%nat /\ (1 <= retry_count -> (1 <= n)%nat)
    /\ after_requests url retry_delay n w (snd (safe_request url retry_count retry_delay w))
    /\ (1 <= retry_count -> fst (safe_request url retry_count retry_delay w) <> Ok None).
Proof.
  destruct (Z.le_gt_cases 0 retry_count) as [Hnn | Hneg].
  - destruct (safe_request_from_budget (Z.to_nat retry_count) 0 w ltac:(lia))
      as (n & Hn & Hpos & Ha & Hnone).
    exists n. split; [exact Hn |]. split; [intros; apply Hpos; lia |].
    split; [exact Ha | intros; apply Hnone; lia].
  - exists O. unfold safe_request. replace (Z.to_nat retry_count) with O by lia.
    unfold after_requests. cbn.
    split; [lia |]. split; [intros; lia |]. split; [repeat split | intros; lia].
Qed.
End Budget.

(** X7. Whatever the network answers, [safe_request] requests the URL at
    most [retry_count] times and nothing else, sleeps once between two
    requests and never after the last, and leaves the disk alone; with a
    budget of zero or less it makes no request and returns [None]; with a
    budget of one or more it makes a request and never returns [None]. *)
Theorem safe_request_stays_in_budget `{Outside}
    (url : str) (retry_count : Z) (retry_delay : Q) (w : World) :
  let r := safe_request url retry_count retry_delay w in
  (exists n, (n <= Z.to_nat retry_count)%nat /\ after_requests url retry_delay n w (snd r))
  /\ (retry_count <= 0 -> r = (Ok None, w))
  /\ (1 <= retry_count ->
      fst r <> Ok None /\ exists more, requests (snd r) = more ++ url :: requests w).
Proof.
  cbv zeta. destruct (safe_request_budget url retry_count retry_delay w)
    as (n & Hn & Hpos & Ha & Hnone).
  split; [exists n; split; assumption |]. split.
  - intros Hle. unfold safe_request. replace (Z.to_nat retry_count) with O by lia.
    reflexivity.
  - intros Hge. split; [apply Hnone, Hge |].
    specialize (Hpos Hge). destruct Ha as (Er & _). destruct n as [| n']; [lia |].
    exists (repeat url n'). rewrite Er. symmetry. apply repeat_shift.
Qed.

(* ===================================================================== *)
(** * [get_album_info] *)
(* ===================================================================== *)

Section AlbumInfo.
Context `{Outside}.
Variables (u : str) (config : Config).

Lemma row_track_catalog (row : list (option anchor)) :
  Forall catalog_track (row_track row).
Proof.
  unfold row_track. destruct row as [| [link |] row]; [constructor | | constructor].
  destruct (href link) as [h |]; [| constructor].
  destruct (bool_decide_reflect (h = [])) as [E | Hne]; constructor; [| constructor].
  split; [apply strip_trimmed | exists h; split; [exact Hne | reflexivity]].
Qed.

(** What [get_album_info] comes to, answer by answer. *)
Lemma get_album_info_cases (w : World) :
  exists r w' n,
    get_album_info u config w = (Ok r, w')
    /\ (n <= Z.to_nat (retry_attempts config))%nat
    /\ after_requests u (retry_delay config) n w w'
    /\ match r with
       | None => complained w'
       | Some album =>
           album_url album = u /\ Forall catalog_track (tracks album)
           /\ exists l, log w' = INFO :: l
       end.
Proof.
  destruct (safe_request_budget u (retry_attempts config) (retry_delay config) w)
    as (n & Hn & _ & Ha & _).
  unfold get_album_info, try_except, bind at 1.
  destruct (safe_request u (retry_attempts config) (retry_delay config) w)
    as [[response | e] w1]; cbn [snd] in Ha.
  - assert (Hfail : exists w', (Ok (@None album_info), logged [ERROR] w1) = (Ok None, w')
                      /\ after_requests u (retry_delay config) n w w' /\ complained w').
    { exists (logged [ERROR] w1). split; [reflexivity |]. split; [exact Ha |].
      exists ERROR, (log w1). split; [reflexivity | discriminate]. }
    destruct Hfail as (wf & Ef & Haf & Hc).
    destruct response as [response |]; cbn [album_soup];
      [| exists None, wf, n; injection Ef as <-; auto].
    unfold bind at 1, lift.
    destruct (soup_album response) as [soup | e];
      [| exists None, wf, n; injection Ef as <-; auto].
    destruct (songlist soup) as [rows |];
      [| exists None, wf, n; injection Ef as <-; auto].
    eexists (Some _), (logged [INFO] w1), n. split; [reflexivity |].
    split; [exact Hn |]. split; [exact Ha |]. cbn [album_url tracks].
    split; [reflexivity |]. split; [| exists (log w1); reflexivity].
    apply Forall_flat_map, Forall_forall. intros row _. apply row_track_catalog.
  - exists None, (logged [ERROR] w1), n. split; [reflexivity |].
    split; [exact Hn |]. split; [exact Ha |].
    exists ERROR, (log w1). split; [reflexivity | discriminate].
Qed.
End AlbumInfo.

(** X8. [get_album_info] never raises: whatever the network and the parser
    do, it returns an album or [None]; it requests the album URL at most
    [retry_attempts] times and nothing else, leaves the disk alone, and
    when it returns [None] the last line logged is an error. *)
Theorem get_album_info_never_raises `{Outside} (u : str) (config : Config) (w : World) :
  exists r w' n,
    get_album_info u config w = (Ok r, w')
    /\ (n <= Z.to_nat (retry_attempts config))%nat
    /\ after_requests u (retry_delay config) n w w'
    /\ (r = None -> complained w').
Proof.
  destruct (get_album_info_cases u config w) as (r & w' & n & E & Hn & Ha & Hr).
  exists r, w', n. split; [exact E |]. split; [exact Hn |]. split; [exact Ha |].
  intros ->. exact Hr.
Qed.

(** X9. In an album that [get_album_info] returns, the URL is the one asked
    for and every track has a stripped name and a URL made of [BASE_URL]
    followed by the non-empty [href] of its row, whatever that [href] is. *)
Theorem get_album_info_tracks `{Outside}
    (u : str) (config : Config) (w w' : World) (album : album_info) :
  get_album_info u config w = (Ok (Some album), w') ->
  album_url album = u
  /\ Forall catalog_track (tracks album)
  /\ Forall (fun t => startswith BASE_URL (url t) = true /\ strip (name t) = name t)
       (tracks album).
Proof.
  intros E. destruct (get_album_info_cases u config w) as (r & w1 & n & E1 & _ & _ & Hr).
  rewrite E in E1. injection E1 as <- <-. destruct Hr as (Hu & Ht & _).
  split; [exact Hu |]. split; [exact Ht |].
  eapply Forall_impl; [exact Ht |]. intros t [Hn (h & _ & Eh)].
  split; [apply startswith_spec; exists h; exact Eh | apply strip_fixed, Hn].
Qed.

(* ===================================================================== *)
(** * What the resolver returns *)
(* ===================================================================== *)

Lemma replace_from_Forall (Q : char -> Prop) (old new s : str) :
  Forall Q new -> Forall Q s -> forall skip, Forall Q (replace_from old new s skip).
Proof.
  intros Hnew Hs. induction Hs as [| c s Hc Hs IH]; intros skip; cbn [replace_from].
  - constructor.
  - destruct skip as [| k]; [| apply IH].
    destruct (startswith old (c :: s)).
    + apply Forall_app. split; [exact Hnew | apply IH].
    + constructor; [exact Hc | apply IH].
Qed.

Lemma flac_url_quoted (s : str) : quoted_url s -> quoted_url (flac_url_of s).
Proof.
  unfold quoted_url, codes, flac_url_of. rewrite !Forall_map. intros Hs.
  apply replace_from_Forall; [| exact Hs].
  repeat constructor; left; reflexivity.
Qed.

Lemma normalize_url_quoted (s : str) : quoted_url (normalize_url s).
Proof. apply quote_url_safe. Qed.

Lemma probed_refl (w : World) : probed w w.
Proof. exists []. cbn. auto. Qed.

Section Resolved.
Context `{Outside}.
Variables (detail_url : str) (P : list str) (page : detail_page).

(** Lines 225-235: the first format of [P] with a labelled link. *)
Lemma resolve_page_labelled (f : str) (w : World) :
  find (has_candidate page) P = Some f ->
  exists link h,
    a_href link = Some h /\ labelled f link = true /\ f ∈ P
    /\ resolve_page detail_url P page w
       = (Ok (Some {| ti_url := normalize_url h; ti_format := f;
                      ti_title := track_title_of detail_url page;
                      ti_size := link_size link |}), w).
Proof.
  intros Hfind.
  destruct (find_first _ _ _ Hfind) as (_ & before & after & HP & _).
  pose proof (last_labelled_spec page f) as Hl.
  destruct (find_some _ _ Hfind) as [_ Hc].
  destruct (last_labelled f page) as [link |] eqn:El; [| congruence].
  destruct Hl as (Hlab & _ & _).
  assert (Hh : exists h, a_href link = Some h).
  { unfold labelled in Hlab. destruct (a_href link) as [h |]; [eauto |].
    rewrite andb_false_r in Hlab. discriminate. }
  destruct Hh as [h Hh]. exists link, h.
  split; [exact Hh |]. split; [exact Hlab |].
  split; [rewrite HP; apply elem_of_app; right; left |].
  unfold resolve_page. rewrite (first_available_scan _ page P P) by auto.
  rewrite Hfind, El. cbn [fmap option_fmap option_map].
  unfold normalized, candidate. cbn [ti_url ti_format ti_title ti_size].
  rewrite Hh. reflexivity.
Qed.

(** Lines 237-272: no format of [P] has a labelled link. *)
Lemma resolve_page_fallback (w : World) :
  find (has_candidate page) P = None ->
  resolve_page detail_url P page w
  = match audio page with
    | Some (Some (c :: src)) =>
        bind (audio_fallback (track_title_of detail_url page) P (c :: src))
             (fun info => ret (Some info)) w
    | _ => (Ok None, logged [WARNING] w)
    end.
Proof.
  intros Hfind. unfold resolve_page.
  rewrite (first_available_scan _ page P P) by auto. rewrite Hfind.
  destruct (audio page) as [[[| c src] |] |]; reflexivity.
Qed.

Lemma audio_fallback_result (track_title src : str) (w : World) :
  exists info w',
    audio_fallback track_title P src w = (Ok info, w')
    /\ probed w w' /\ log w' = log w
    /\ quoted_url (ti_url info)
    /\ (ti_format info ∈ P \/ ti_format info = lit "mp3")
    /\ (lit "flac" ∉ P -> info = audio_candidate track_title src /\ w' = w).
Proof.
  unfold audio_fallback.
  destruct (bool_decide_reflect (lit "flac" ∈ P)) as [Hin | Hout].
  - unfold try_except, bind, urlopen.
    destruct (urlopen_answer (length (requests w)) (flac_url_of (normalize_url src)))
      as [x | e]; cbn [ret];
      eexists _, _; (split; [reflexivity |]);
      (split; [exists [flac_url_of (normalize_url src)]; cbn; auto |]);
      (split; [reflexivity |]); cbn [ti_url ti_format].
    + split; [apply flac_url_quoted, normalize_url_quoted |].
      split; [left; exact Hin | intros Hno; contradiction].
    + split; [apply normalize_url_quoted |].
      split; [right; reflexivity | intros Hno; contradiction].
  - eexists _, w. split; [reflexivity |]. split; [apply probed_refl |].
    split; [reflexivity |]. cbn [ti_url ti_format].
    split; [apply normalize_url_quoted |]. split; [right; reflexivity |].
    intros _. split; reflexivity.
Qed.

Lemma resolve_page_result (w : World) :
  exists r w',
    resolve_page detail_url P page w = (Ok r, w')
    /\ probed w w'
    /\ match r with
       | Some info =>
           quoted_url (ti_url info)
           /\ (ti_format info ∈ P \/ ti_format info = lit "mp3")
       | None => complained w'
       end.
Proof.
  destruct (find (has_candidate page) P) as [f |] eqn:Hfind.
  - destruct (resolve_page_labelled f w Hfind) as (link & h & _ & _ & Hin & E).
    eexists _, w. split; [exact E |]. split; [apply probed_refl |].
    cbn [ti_url ti_format]. split; [apply normalize_url_quoted | left; exact Hin].
  - rewrite (resolve_page_fallback w Hfind).
    assert (Hnone : exists r w', (Ok (@None track_info), logged [WARNING] w) = (Ok r, w')
              /\ probed w w'
              /\ match r with
                 | Some info => quoted_url (ti_url info)
                                /\ (ti_format info ∈ P \/ ti_format info = lit "mp3")
                 | None => complained w'
                 end).
    { exists None, (logged [WARNING] w). split; [reflexivity |].
      split; [exists []; cbn; auto |].
      exists WARNING, (log w). split; [reflexivity | discriminate]. }
    destruct (audio page) as [[[| c src] |] |]; try exact Hnone.
    destruct (audio_fallback_result (track_title_of detail_url page) (c :: src) w)
      as (info & w' & E & Hp & _ & Hq & Hf & _).
    exists (Some info), w'. rewrite (bind_ok _ _ _ _ _ E).
    split; [reflexivity |]. split; [exact Hp |]. split; [exact Hq | exact Hf].
Qed.
End Resolved.

Section Resolution.
Context `{Outside}.
Variables (track_url : str) (P : list str).

(** What [get_track_download_url] comes to, answer by answer. *)
Lemma get_track_download_url_cases (w : World) :
  exists r w' w1 n,
    get_track_download_url track_url P w = (Ok r, w')
    /\ (1 <= n <= 3)%nat
    /\ after_requests track_url 5 n w w1
    /\ probed w1 w'
    /\ match r with
       | Some info =>
           quoted_url (ti_url info)
           /\ (ti_format info ∈ P \/ ti_format info = lit "mp3")
       | None => complained w'
       end.
Proof.
  destruct (safe_request_budget track_url 3 5 w) as (n & Hn & Hpos & Ha & _).
  specialize (Hpos ltac:(lia)). change (Z.to_nat 3) with 3%nat in Hn.
  unfold get_track_download_url, try_except, bind at 1.
  destruct (safe_request track_url 3 5 w) as [[response | e] w1]; cbn [snd] in Ha.
  - assert (Hfail : exists r w', (Ok (@None track_info), logged [ERROR] w1) = (Ok r, w')
              /\ probed w1 w'
              /\ match r with
                 | Some info => quoted_url (ti_url info)
                                /\ (ti_format info ∈ P \/ ti_format info = lit "mp3")
                 | None => complained w'
                 end).
    { exists None, (logged [ERROR] w1). split; [reflexivity |].
      split; [exists []; cbn; auto |].
      exists ERROR, (log w1). split; [reflexivity | discriminate]. }
    destruct response as [response |]; cbn [detail_soup].
    + unfold bind at 1, lift. destruct (soup_detail response) as [soup | e].
      * destruct (resolve_page_result track_url P soup w1) as (r & w' & E & Hp & Hr).
        rewrite E. exists r, w', w1, n. split; [reflexivity |]. auto.
      * destruct Hfail as (r & w' & E & Hp & Hr). cbn [logger bind raise ret] in *.
        exists r, w', w1, n. split; [exact E |]. auto.
    + destruct Hfail as (r & w' & E & Hp & Hr).
      exists r, w', w1, n. split; [exact E |]. auto.
  - exists None, (logged [ERROR] w1), w1, n. split; [reflexivity |].
    split; [lia |]. split; [exact Ha |]. split; [exists []; cbn; auto |].
    exists ERROR, (log w1). split; [reflexivity | discriminate].
Qed.
End Resolution.

(** X10. [get_track_download_url] never raises: it returns a candidate or
    [None]; it requests the page one to three times, then at most one more
    URL (the FLAC probe), and leaves the disk alone; when it returns
    [None] the last line logged is a warning or an error. *)
Theorem get_track_download_url_never_raises `{Outside}
    (track_url : str) (P : list str) (w : World) :
  exists r w' n probe,
    get_track_download_url track_url P w = (Ok r, w')
    /\ (1 <= n <= 3)%nat /\ (length probe <= 1)%nat
    /\ requests w' = probe ++ repeat track_url n ++ requests w
    /\ files w' = files w
    /\ (r = None -> complained w').
Proof.
  destruct (get_track_download_url_cases track_url P w)
    as (r & w' & w1 & n & E & Hn & (Er & _ & Ef) & (probe & Hp & Er' & _ & Ef') & Hr).
  exists r, w', n, probe. split; [exact E |]. split; [exact Hn |]. split; [exact Hp |].
  split; [rewrite Er', Er; reflexivity |]. split; [rewrite Ef', Ef; reflexivity |].
  intros ->. exact Hr.
Qed.

(** X11. Every candidate that [get_track_download_url] returns has a URL made
    of unreserved characters, [/], [:] and [%] only, and a format that is in
    the preference list or is [mp3]. *)
Theorem resolved_candidate_is_quoted `{Outside}
    (track_url : str) (P : list str) (w w' : World) (info : track_info) :
  get_track_download_url track_url P w = (Ok (Some info), w') ->
  quoted_url (ti_url info)
  /\ (ti_format info ∈ P \/ ti_format info = lit "mp3").
Proof.
  intros E. destruct (get_track_download_url_cases track_url P w)
    as (r & w2 & w1 & n & E2 & _ & _ & _ & Hr).
  rewrite E in E2. injection E2 as <- <-. exact Hr.
Qed.

(** X12. When no format of the preference list has a labelled link: without
    an [audio] element that has a source the resolver returns [None] after
    a warning; with one, and ['flac'] not in the list, it returns the
    source as an MP3 candidate of unknown size without any request, also
    when ['mp3'] is not in the list (or the list is empty). *)
Theorem audio_fallback_without_flac `{Outside}
    (detail_url : str) (P : list str) (page : detail_page) (w : World) :
  find (has_candidate page) P = None ->
  lit "flac" ∉ P ->
  resolve_page detail_url P page w
  = match audio page with
    | Some (Some (c :: src)) =>
        (Ok (Some (audio_candidate (track_title_of detail_url page) (c :: src))), w)
    | _ => (Ok None, logged [WARNING] w)
    end.
Proof.
  intros Hfind Hflac. rewrite (resolve_page_fallback detail_url P page w Hfind).
  destruct (audio page) as [[[| c src] |] |]; try reflexivity.
  destruct (audio_fallback_result P (track_title_of detail_url page) (c :: src) w)
    as (info & w' & E & _ & _ & _ & _ & Hno).
  destruct (Hno Hflac) as [-> ->]. rewrite (bind_ok _ _ _ _ _ E). reflexivity.
Qed.

(* ===================================================================== *)
(** * The requests of [download_file] *)
(* ===================================================================== *)

Lemma asks_weaken (url : str) (j k : nat) {A} (m : M A) :
  (j <= k)%nat -> asks url j m -> asks url k m.
Proof. intros Hjk Hm w. destruct (Hm w) as (n & Hn & E). exists n. split; [lia | exact E]. Qed.

Lemma asks_none (url : str) {A} (m : M A) :
  (forall w, requests (snd (m w)) = requests w) -> asks url 0 m.
Proof. intros Hm w. exists O. split; [lia | apply Hm]. Qed.

Lemma asks_bind (url : str) (j k : nat) {A B} (m : M A) (f : A -> M B) :
  asks url j m -> (forall a, asks url k (f a)) -> asks url (j + k) (bind m f).
Proof.
  intros Hm Hf w. unfold bind. destruct (Hm w) as (n & Hn & E).
  destruct (m w) as [[a | e] w1]; cbn [snd] in *.
  - destruct (Hf a w1) as (n' & Hn' & E'). exists (n' + n)%nat.
    split; [lia |]. rewrite E', E, repeat_app, <- app_assoc. reflexivity.
  - exists n. split; [lia | exact E].
Qed.

Lemma asks_try (url : str) (j k : nat) {A} (m : M A) (h : exn -> M A) :
  asks url j m -> (forall e, asks url k (h e)) -> asks url (j + k) (try_except m h).
Proof.
  intros Hm Hh w. unfold try_except. destruct (Hm w) as (n & Hn & E).
  destruct (m w) as [[a | e] w1]; cbn [snd] in *.
  - exists n. split; [lia | exact E].
  - destruct (Hh e w1) as (n' & Hn' & E'). exists (n' + n)%nat.
    split; [lia |]. rewrite E', E, repeat_app, <- app_assoc. reflexivity.
Qed.

Section Asking.
Context `{Outside}.
Variables (url file_path : str).

Lemma asks_ret {A} (a : A) : asks url 0 (ret a).
Proof. apply asks_none. reflexivity. Qed.

Lemma asks_raise {A} (e : exn) : asks url 0 (@raise A e).
Proof. apply asks_none. reflexivity. Qed.

Lemma asks_logger (l : level) : asks url 0 (logger l).
Proof. apply asks_none. reflexivity. Qed.

Lemma asks_sleep (d : Q) : asks url 0 (sleep d).
Proof. apply asks_none. intros w. unfold sleep. destruct (sleep_error d); reflexivity. Qed.

Lemma asks_write (n : Z) : asks url 0 (write file_path n).
Proof.
  apply asks_none. intros w. unfold write.
  destruct (files w !! file_path) as [[|]|]; reflexivity.
Qed.

Lemma asks_open_wb : asks url 0 (open_wb file_path).
Proof.
  apply asks_none. intros w. unfold open_wb.
  destruct (files w !! file_path) as [[|]|]; try reflexivity;
    destruct (can_open file_path); reflexivity.
Qed.

Lemma asks_stream (reads : list read) : forall d, asks url 0 (stream reads file_path d).
Proof.
  induction reads as [| [n | e] reads IH]; intros d; cbn [stream].
  - apply asks_ret.
  - destruct (n <=? 0); [apply asks_ret |].
    apply (asks_bind url 0 0); [apply asks_write | intros _; apply IH].
  - apply asks_raise.
Qed.

Lemma asks_skip_check (expected_size : Q) : asks url 0 (skip_check file_path expected_size).
Proof.
  apply asks_none. intros w. unfold skip_check, bind, path_exists, getsize.
  destruct (bool_decide _ && size_known expected_size); [| reflexivity].
  destruct (files w !! file_path) as [[n |] |]; try reflexivity;
    match goal with |- context [size_close ?a ?b] => destruct (size_close a b) end;
    reflexivity.
Qed.

Lemma asks_safe_request (retry_count : Z) (d : Q) :
  asks url (Z.to_nat retry_count) (safe_request url retry_count d).
Proof.
  intros w. destruct (safe_request_budget url retry_count d w) as (n & Hn & _ & (E & _) & _).
  exists n. split; [exact Hn | exact E].
Qed.

Lemma asks_transfer : asks url 3 (transfer url file_path).
Proof.
  unfold transfer. apply (asks_bind url 3 0); [apply (asks_safe_request 3 5) |].
  intros [r |]; [| apply asks_raise].
  apply (asks_bind url 0 0).
  { unfold total_size_of. destruct (content_length r); first [apply asks_ret | apply asks_raise]. }
  intros total. apply (asks_bind url 0 0); [apply asks_open_wb |].
  intros _. apply (asks_bind url 0 0); [apply asks_stream | intros d; apply asks_ret].
Qed.

Variables (expected_size : Q) (retry_count : Z) (retry_delay : Q).

Lemma asks_download_attempt (attempt : Z) :
  asks url 3 (download_attempt url file_path expected_size attempt retry_count retry_delay).
Proof.
  unfold download_attempt. apply (asks_try url 3 0).
  - apply (asks_bind url 0 3); [apply asks_skip_check |].
    intros [|]; [apply (asks_weaken url 0); [lia | apply asks_ret] |].
    apply (asks_bind url 3 0); [apply asks_transfer |].
    intros sizes. destruct (_ && _).
    + apply (asks_bind url 0 0); [apply asks_logger |]. intros _.
      destruct (attempt <? retry_count - 1); [| apply asks_ret].
      apply (asks_bind url 0 0); [apply asks_logger |]. intros _.
      apply (asks_bind url 0 0); [apply asks_sleep | intros _; apply asks_ret].
    + apply (asks_bind url 0 0); [apply asks_logger | intros _; apply asks_ret].
  - intros e. apply (asks_bind url 0 0); [apply asks_logger |]. intros _.
    destruct (attempt <? retry_count - 1).
    + apply (asks_bind url 0 0); [apply asks_logger |]. intros _.
      apply (asks_bind url 0 0); [apply asks_sleep | intros _; apply asks_ret].
    + apply (asks_bind url 0 0); [apply asks_logger | intros _; apply asks_ret].
Qed.

Lemma asks_download_file_from (left : nat) :
  forall attempt,
    asks url (3 * left)
      (download_file_from left attempt url file_path expected_size retry_count retry_delay).
Proof.
  induction left as [| left IH]; intros attempt; cbn [download_file_from].
  - apply asks_ret.
  - apply (asks_weaken url (3 + 3 * left)); [lia |].
    apply asks_bind; [apply asks_download_attempt |].
    intros [v |]; [apply (asks_weaken url 0); [lia | apply asks_ret] | apply IH].
Qed.

(** An iteration of the loop goes on to the next one only before the last
    attempt and after a sleep; what it returns is a Boolean; and what it
    raises is what the sleep of the handler raises. *)
Lemma download_attempt_outcome (attempt : Z) (w : World) :
  match fst (download_attempt url file_path expected_size attempt retry_count retry_delay w)
  with
  | Ok Continue => attempt < retry_count - 1 /\ sleep_error retry_delay = None
  | Ok (Return v) => v <> None
  | Raise x => attempt < retry_count - 1 /\ sleep_error retry_delay = Some x
  end.
Proof.
  assert (Hhandler : forall w1,
            match fst ((run logger ERROR;
                        if attempt <? retry_count - 1
                        then run logger INFO; run sleep retry_delay; ret Continue
                        else run logger ERROR; ret (Return (Some false))) w1)
            with
            | Ok Continue => attempt < retry_count - 1 /\ sleep_error retry_delay = None
            | Ok (Return v) => v <> None
            | Raise x => attempt < retry_count - 1 /\ sleep_error retry_delay = Some x
            end).
  { intros w1. unfold bind at 1, logger at 1.
    destruct (Z.ltb_spec attempt (retry_count - 1)) as [Hlt | Hge].
    - unfold bind, logger, sleep, ret.
      destruct (sleep_error retry_delay) as [x |]; cbn [fst]; split; auto.
    - cbn. discriminate. }
  unfold download_attempt, try_except.
  match goal with |- context [match ?body w with _ => _ end] =>
    destruct (body w) as [[o | e] w1] eqn:Eb end; [| apply Hhandler].
  cbn [fst]. unfold bind at 1 in Eb.
  destruct (skip_check file_path expected_size w) as [[[|] | e0] w0]; [| | discriminate Eb].
  - injection Eb as <- <-. discriminate.
  - unfold bind at 1 in Eb.
    destruct (transfer url file_path w0) as [[sizes | e0] w2]; [| discriminate Eb].
    destruct (_ && _) in Eb.
    + destruct (Z.ltb_spec attempt (retry_count - 1)) as [Hlt | Hge].
      * unfold bind, logger, sleep, ret in Eb.
        destruct (sleep_error retry_delay) as [x |]; [discriminate Eb |].
        injection Eb as <- <-. split; [exact Hlt | reflexivity].
      * injection Eb as <- <-. discriminate.
    + injection Eb as <- <-. discriminate.
Qed.

(** The loop raises what the sleep of the handler raises, if anything. *)
Lemma download_file_from_returns (left : nat) :
  forall attempt w,
    attempt + Z.of_nat left = retry_count ->
    match fst (download_file_from left attempt url file_path expected_size
                 retry_count retry_delay w)
    with
    | Ok v => (1 <= left)%nat -> v <> None
    | Raise x => sleep_error retry_delay = Some x /\ (2 <= left)%nat
    end.
Proof.
  induction left as [| left IH]; intros attempt w Hsum; cbn [download_file_from].
  - cbn. lia.
  - pose proof (download_attempt_outcome attempt w) as Ho. unfold bind.
    destruct (download_attempt url file_path expected_size attempt retry_count retry_delay w)
      as [[[v |] | x] w1]; cbn [fst] in Ho.
    + cbn. intros _. exact Ho.
    + specialize (IH (attempt + 1) w1 ltac:(lia)).
      destruct (download_file_from left (attempt + 1) url file_path expected_size
                  retry_count retry_delay w1) as [[v | x] w'']; cbn [fst] in *.
      * intros _. apply IH. lia.
      * split; [apply IH | lia].
    + cbn. split; [apply Ho | lia].
Qed.
End Asking.

(** X13. [download_file] raises nothing but what [time.sleep] raises for
    [retry_delay], and that with two attempts or more only: with a delay
    that [time.sleep] accepts, or with one attempt at most, it returns.
    It requests its URL at most three times for each attempt and requests
    nothing else; nothing that was on disk is gone afterwards; with
    [retry_count] zero or less it does nothing and returns [None]; with
    [retry_count] one or more, what it returns is [True] or [False]. *)
Theorem download_file_outcome `{Outside}
    (url file_path : str) (expected_size : Q) (retry_count : Z) (retry_delay : Q)
    (w : World) :
  exists res w' n,
    download_file url file_path expected_size retry_count retry_delay w = (res, w')
    /\ (n <= 3 * Z.to_nat retry_count)%nat
    /\ requests w' = repeat url n ++ requests w
    /\ grows w w'
    /\ (retry_count <= 0 -> res = Ok None /\ w' = w)
    /\ (forall v, res = Ok v -> 1 <= retry_count -> v <> None)
    /\ (forall x, res = Raise x -> sleep_error retry_delay = Some x /\ 2 <= retry_count)
    /\ (sleep_error retry_delay = None \/ retry_count <= 1 -> exists v, res = Ok v)
    /\ ((0 <= retry_delay)%Q -> (retry_delay <= sleep_max)%Q -> sleep_error retry_delay = None)
    /\ ((retry_delay < 0)%Q -> sleep_error retry_delay <> None).
Proof.
  pose proof (steady_download_file url file_path expected_size retry_count retry_delay w) as Hg.
  destruct (asks_download_file_from url file_path expected_size retry_count retry_delay
              (Z.to_nat retry_count) 0 w) as (n & Hn & Er).
  fold (download_file url file_path expected_size retry_count retry_delay) in Er.
  assert (Hret : match fst (download_file url file_path expected_size retry_count
                             retry_delay w)
                 with
                 | Ok v => 1 <= retry_count -> v <> None
                 | Raise x => sleep_error retry_delay = Some x /\ 2 <= retry_count
                 end).
  { destruct (Z.le_gt_cases 0 retry_count) as [Hge | Hlt].
    - pose proof (download_file_from_returns url file_path expected_size retry_count
                    retry_delay (Z.to_nat retry_count) 0 w ltac:(lia)) as Hr.
      unfold download_file.
      destruct (fst _) as [v | x]; [intros; apply Hr; lia | split; [apply Hr | lia]].
    - unfold download_file. replace (Z.to_nat retry_count) with O by lia. cbn. lia. }
  destruct (download_file url file_path expected_size retry_count retry_delay w)
    as [res w'] eqn:E.
  cbn [fst snd] in *. exists res, w', n. split; [reflexivity |].
  split; [exact Hn |]. split; [exact Er |]. split; [exact Hg |].
  split; [| split; [| split; [| split; [| split]]]].
  - intros Hle. unfold download_file in E.
    replace (Z.to_nat retry_count) with O in E by lia. cbn in E.
    injection E as <- <-. split; reflexivity.
  - intros v ->. exact Hret.
  - intros x ->. exact Hret.
  - intros Hok. destruct res as [v | x]; [exists v; reflexivity |].
    destruct Hret as [Hs Hrc]. destruct Hok as [Hnone | Hle]; [congruence | lia].
  - apply sleep_error_accepts.
  - apply sleep_error_negative.
Qed.

(* ===================================================================== *)
(** * Transfers that end well, targets that cannot be opened *)
(* ===================================================================== *)

Section Transfers.
Context `{Outside}.
Variables (url file_path : str) (expected_size : Q) (retry_count : Z) (retry_delay : Q).

(** A request that is answered at once. *)
Lemma safe_request_answered (w : World) (r : response) :
  answer_from w url 0 = Ok r ->
  safe_request url 3 5 w = (Ok (Some r), requested url w).
Proof.
  intros Ha. unfold safe_request. change (Z.to_nat 3) with 3%nat.
  rewrite safe_request_from_step, Ha. reflexivity.
Qed.

Lemma transfer_delivers (w : World) (r : response) (chunks : list Z) :
  answer_from w url 0 = Ok r ->
  content_length r <> NotANumber ->
  body r = map Bytes chunks ->
  Forall (fun c => 0 < c) chunks ->
  can_open file_path = true ->
  files w !! file_path <> Some Dir ->
  exists w',
    transfer url file_path w
    = (Ok (match content_length r with Length n => n | _ => 0 end, total_of chunks), w')
    /\ files w' !! file_path = Some (File (total_of chunks))
    /\ requests w' = url :: requests w /\ sleeps w' = sleeps w.
Proof.
  intros Ha Hl Hb Hpos Hopen Hd.
  unfold transfer. rewrite (bind_ok _ _ _ _ _ (safe_request_answered w r Ha)).
  set (wu := requested url w).
  set (wo := set_files (<[file_path := File 0]> (files wu)) wu).
  assert (Ho : open_wb file_path wu = (Ok tt, wo)).
  { unfold open_wb. subst wo wu. cbn [requested files]. rewrite Hopen.
    destruct (files w !! file_path) as [[|]|]; [reflexivity | contradiction | reflexivity]. }
  destruct (stream_chunks file_path chunks 0 0 wo) as (w' & Es & Ef & Er & Esl).
  { subst wo. cbn. apply lookup_insert_eq. }
  { exact Hpos. }
  exists w'. rewrite Ef, Er, Esl. split; [| repeat split].
  unfold total_size_of.
  destruct (content_length r) as [| | n]; [| contradiction |];
    unfold bind at 1, ret at 1; rewrite (bind_ok _ _ _ _ _ Ho), Hb;
    rewrite (bind_ok _ _ _ _ _ Es); reflexivity.
Qed.

Lemma transfer_cannot_open (w : World) (r : response) :
  answer_from w url 0 = Ok r ->
  files w !! file_path = None -> can_open file_path = false ->
  exists e, transfer url file_path w = (Raise e, requested url w).
Proof.
  intros Ha Hf Hopen.
  unfold transfer. rewrite (bind_ok _ _ _ _ _ (safe_request_answered w r Ha)).
  assert (Ho : open_wb file_path (requested url w)
               = (Raise (OtherError "OSError"), requested url w)).
  { unfold open_wb. cbn [requested files]. rewrite Hf, Hopen. reflexivity. }
  unfold total_size_of. destruct (content_length r) as [| | n].
  - eexists. unfold bind at 1, ret at 1. rewrite (bind_raise _ _ _ _ _ Ho). reflexivity.
  - eexists. reflexivity.
  - eexists. unfold bind at 1, ret at 1. rewrite (bind_raise _ _ _ _ _ Ho). reflexivity.
Qed.

(** An attempt on a target that cannot be opened. *)
Lemma unopenable_attempt (attempt : Z) (w : World) (r : response) :
  can_open file_path = false ->
  answer_from w url 0 = Ok r ->
  files w !! file_path = None ->
  download_attempt url file_path expected_size attempt retry_count retry_delay w
  = if attempt <? retry_count - 1
    then match sleep_error retry_delay with
         | None => (Ok Continue, slept retry_delay (logged [INFO; ERROR] (requested url w)))
         | Some x => (Raise x, logged [INFO; ERROR] (requested url w))
         end
    else (Ok (Return (Some false)), logged [ERROR; ERROR] (requested url w)).
Proof.
  intros Hopen Hr Hf.
  destruct (transfer_cannot_open w r Hr Hf Hopen) as [e Et].
  unfold download_attempt.
  rewrite (try_raise _ _ w e (requested url w)).
  - destruct (attempt <? retry_count - 1); [| reflexivity].
    unfold bind, logger, sleep. cbn [requests sleeps files log].
    destruct (sleep_error retry_delay); reflexivity.
  - rewrite (bind_ok _ _ _ _ _ (skip_check_absent file_path expected_size w Hf)).
    cbn iota. rewrite (bind_raise _ _ _ _ _ Et). reflexivity.
Qed.

Lemma unopenable_loop (left : nat) :
  can_open file_path = false ->
  sleep_error retry_delay = None \/ (left <= 1)%nat ->
  forall attempt w,
    attempt + Z.of_nat left = retry_count ->
    (1 <= left)%nat ->
    (forall i, (i < left)%nat -> exists r, answer_from w url i = Ok r) ->
    files w !! file_path = None ->
    exists w',
      download_file_from left attempt url file_path expected_size retry_count retry_delay w
      = (Ok (Some false), w')
      /\ requests w' = repeat url left ++ requests w
      /\ sleeps w' = repeat retry_delay (left - 1) ++ sleeps w
      /\ files w' = files w.
Proof.
  intros Hopen. induction left as [| left IH]; intros Hsleep attempt w Hsum Hl Hans Hf; [lia |].
  destruct (Hans O ltac:(lia)) as [r Hr].
  pose proof (unopenable_attempt attempt w r Hopen Hr Hf) as Ha.
  cbn [download_file_from].
  destruct (Z.ltb_spec attempt (retry_count - 1)) as [Hlt | Hge].
  - assert (Hnone : sleep_error retry_delay = None) by (destruct Hsleep; [assumption | lia]).
    rewrite Hnone in Ha. rewrite (bind_ok _ _ _ _ _ Ha); cbn iota.
    set (w2 := slept retry_delay (logged [INFO; ERROR] (requested url w))).
    destruct (IH (or_introl Hnone) (attempt + 1) w2) as (w' & Ed & Er & Es & Ef).
    + lia.
    + lia.
    + intros i Hi. destruct (Hans (S i) ltac:(lia)) as [ri Hri]. exists ri.
      unfold answer_from in *. subst w2. cbn [slept logged requested requests length].
      rewrite <- Hri. f_equal. lia.
    + subst w2. exact Hf.
    + exists w'. rewrite Ed, Er, Es, Ef. subst w2.
      cbn [slept logged requested requests sleeps files]. repeat split.
      * rewrite repeat_shift. reflexivity.
      * destruct left as [| left']; [lia |].
        cbn [Nat.sub repeat]. rewrite Nat.sub_0_r, repeat_shift. reflexivity.
  - rewrite (bind_ok _ _ _ _ _ Ha); cbn iota.
    assert (left = O) by lia. subst left.
    eexists. split; [reflexivity |]. cbn. repeat split.
Qed.
End Transfers.

(** X14. A response whose body is read to the end is taken as complete when
    it announces no length, a length of zero or less, or the length
    delivered, whatever was delivered in the first two cases:
    [download_file] then returns [True] after one request and no sleep, and
    the file holds what was delivered. *)
Theorem download_file_accepts `{Outside}
    (url file_path : str) (expected_size : Q) (retry_count : Z) (retry_delay : Q)
    (w : World) (r : response) (chunks : list Z) :
  1 <= retry_count ->
  answer_from w url 0 = Ok r ->
  body r = map Bytes chunks ->
  Forall (fun c => 0 < c) chunks ->
  taken_as_complete r (total_of chunks) ->
  can_open file_path = true ->
  files w !! file_path <> Some Dir ->
  no_skip file_path expected_size w ->
  exists w',
    download_file url file_path expected_size retry_count retry_delay w
    = (Ok (Some true), w')
    /\ requests w' = url :: requests w
    /\ sleeps w' = sleeps w
    /\ files w' !! file_path = Some (File (total_of chunks)).
Proof.
  intros Hrc Ha Hb Hpos Hc Hopen Hd Hns.
  assert (Hl : content_length r <> NotANumber).
  { unfold taken_as_complete in Hc. intros E. rewrite E in Hc. exact Hc. }
  destruct (transfer_delivers url file_path w r chunks Ha Hl Hb Hpos Hopen Hd)
    as (w1 & Et & Ef & Er & Es).
  assert (Hs : skip_check file_path expected_size w = (Ok false, w)).
  { destruct Hns as [Hk | Hf]; [apply skip_check_unknown, Hk |].
    destruct (files w !! file_path) as [[s |] |] eqn:E.
    - rewrite (skip_check_file _ _ w s E), Hf, andb_false_r. reflexivity.
    - contradiction.
    - apply skip_check_absent, E. }
  exists (logged [INFO] w1). split; [| cbn [logged requests sleeps files]; auto].
  unfold download_file. destruct (Z.to_nat retry_count) as [| left] eqn:En; [lia |].
  cbn [download_file_from].
  assert (Hatt : download_attempt url file_path expected_size 0 retry_count retry_delay w
                 = (Ok (Return (Some true)), logged [INFO] w1)).
  { unfold download_attempt. apply try_ok.
    rewrite (bind_ok _ _ _ _ _ Hs). cbn iota.
    rewrite (bind_ok _ _ _ _ _ Et). cbn [fst snd].
    assert (Hcond : (0 <? match content_length r with Length n => n | _ => 0 end)
                    && negb (match content_length r with Length n => n | _ => 0 end
                             =? total_of chunks) = false).
    { unfold taken_as_complete in Hc. destruct (content_length r) as [| | n];
        [reflexivity | contradiction |].
      destruct Hc as [Hle | ->].
      - destruct (Z.ltb_spec 0 n); [lia | reflexivity].
      - rewrite Z.eqb_refl, andb_false_r. reflexivity. }
    rewrite Hcond. reflexivity. }
  rewrite (bind_ok _ _ _ _ _ Hatt). reflexivity.
Qed.

(** X15. When the target cannot be opened for writing (a track name with a
    [/] in it asks for a directory that is not there), every attempt still
    requests the URL before it fails.  With a delay that [time.sleep]
    accepts, or with one attempt only, [download_file] makes [retry_count]
    requests, sleeps between them, writes nothing and returns [False].
    With two attempts or more and a delay that [time.sleep] refuses, the
    exception of [time.sleep] leaves [download_file] after one request. *)
Theorem download_file_cannot_open `{Outside}
    (url file_path : str) (expected_size : Q) (retry_count : Z) (retry_delay : Q)
    (w : World) :
  1 <= retry_count ->
  can_open file_path = false ->
  files w !! file_path = None ->
  (forall i, (i < Z.to_nat retry_count)%nat -> exists r, answer_from w url i = Ok r) ->
  (sleep_error retry_delay = None \/ retry_count = 1 ->
   exists w',
     download_file url file_path expected_size retry_count retry_delay w
     = (Ok (Some false), w')
     /\ requests w' = repeat url (Z.to_nat retry_count) ++ requests w
     /\ sleeps w' = repeat retry_delay (Z.to_nat retry_count - 1) ++ sleeps w
     /\ files w' = files w)
  /\ (forall x, sleep_error retry_delay = Some x -> 2 <= retry_count ->
      download_file url file_path expected_size retry_count retry_delay w
      = (Raise x, logged [INFO; ERROR] (requested url w)))
  /\ ((0 <= retry_delay)%Q -> (retry_delay <= sleep_max)%Q -> sleep_error retry_delay = None)
  /\ ((retry_delay < 0)%Q -> sleep_error retry_delay <> None).
Proof.
  intros Hrc Hopen Hf Hans.
  split; [| split; [| split; [apply sleep_error_accepts | apply sleep_error_negative]]].
  - intros Hsleep.
    apply (unopenable_loop url file_path expected_size retry_count retry_delay
             (Z.to_nat retry_count) Hopen); [| lia | lia | exact Hans | exact Hf].
    destruct Hsleep as [Hnone | ->]; [left; exact Hnone | right; cbn; lia].
  - intros x Hx Hrc2. destruct (Hans O ltac:(lia)) as [r Hr].
    pose proof (unopenable_attempt url file_path expected_size retry_count retry_delay
                  0 w r Hopen Hr Hf) as Ha.
    destruct (Z.ltb_spec 0 (retry_count - 1)) as [_ | Hge]; [| lia].
    rewrite Hx in Ha.
    unfold download_file. destruct (Z.to_nat retry_count) as [| left] eqn:En; [lia |].
    cbn [download_file_from]. rewrite (bind_raise _ _ _ _ _ Ha). reflexivity.
Qed.

(* ===================================================================== *)
(** * What [download_track] returns *)
(* ===================================================================== *)

Section TrackValue.
Context `{Outside}.

Lemma download_file_value (u p : str) (e : Q) (c : Z) (d : Q) w v w' :
  download_file u p e c d w = (Ok v, w') ->
  (1 <= c -> v <> None) /\ (c <= 0 -> v = None).
Proof.
  intros E. split.
  - intros Hc.
    pose proof (download_file_from_returns u p e c d (Z.to_nat c) 0 w ltac:(lia)) as Hv.
    unfold download_file in E. rewrite E in Hv. apply Hv. lia.
  - intros Hc. unfold download_file in E. replace (Z.to_nat c) with O in E by lia.
    cbn in E. injection E as <- _. reflexivity.
Qed.

(** The value of [download_track] is [False], or what [download_file]
    returned. *)
Lemma download_track_value (t : track) (album : album_info) (dir : str)
    (config : Config) (n : option Z) w b w' :
  download_track t album dir config n w = (Ok b, w') ->
  b = Some false
  \/ exists info w1 w2,
       download_file (ti_url info) (file_path_of t info dir config n) (ti_size info)
         (retry_attempts config) (retry_delay config) w1 = (Ok b, w2).
Proof.
  unfold download_track, try_except.
  match goal with |- context [bind ?m ?k w] =>
    destruct (bind m k w) as [[o | x] w0] eqn:Eb end.
  - intros [=]; subst. revert Eb. unfold bind at 1.
    destruct (get_track_download_url (url t) (format_preference config) w)
      as [[[info |] | x] w1]; [| | intros [=]].
    + unfold bind at 1.
      destruct (download_file _ _ _ _ _ w1) as [[v | x] w2] eqn:Ed; [| intros [=]].
      intros Er. right. exists info, w1, w2. rewrite Ed. f_equal. f_equal.
      destruct v as [[|] |]; try (injection Er as <- _; reflexivity).
      unfold bind in Er.
      destruct (set_metadata _ _ _ _ w2) as [[[] | x] w3]; [| discriminate Er].
      injection Er as <- _. reflexivity.
    + unfold bind, logger, ret. intros [= <- _]. left. reflexivity.
  - unfold bind, logger, ret. intros [= <- _]. left. reflexivity.
Qed.
End TrackValue.

(** X16. [download_track] never raises and deletes nothing.  With
    [retry_attempts] one or more it returns [True] or [False]; it returns
    [True] only when an attempt was allowed and the file of the track is on
    disk afterwards; with [retry_attempts] zero or less it never returns
    [True]. *)
Theorem download_track_never_raises `{Outside}
    (t : track) (album : album_info) (dir : str) (config : Config) (n : option Z)
    (w : World) :
  exists b w',
    download_track t album dir config n w = (Ok b, w')
    /\ grows w w'
    /\ (1 <= retry_attempts config -> b <> None)
    /\ (b = Some true ->
        1 <= retry_attempts config
        /\ exists info, is_Some (files w' !! file_path_of t info dir config n)).
Proof.
  destruct (download_track_returns t album dir config n w) as (b & w' & E).
  exists b, w'. split; [exact E |].
  split; [pose proof (steady_download_track t album dir config n w) as Hg;
          rewrite E in Hg; exact Hg |].
  destruct (download_track_value t album dir config n w b w' E)
    as [-> | (info & w1 & w2 & Ed)].
  - split; [discriminate | discriminate].
  - apply download_file_value in Ed. destruct Ed as [Hpos Hzero]. split; [exact Hpos |].
    intros ->. split.
    + destruct (Z.le_gt_cases 1 (retry_attempts config)) as [Hge | Hlt]; [exact Hge |].
      specialize (Hzero ltac:(lia)). discriminate Hzero.
    + apply (download_track_success t album dir config n w w' E).
Qed.

(* ===================================================================== *)
(** * [download_album] on its other paths *)
(* ===================================================================== *)

Lemma steady_make_output_dirs `{Outside} (config : Config) (dir : str) :
  steady (make_output_dirs config dir).
Proof. unfold make_output_dirs. steady. Qed.

Lemma steady_download_album `{Outside} (schedule : list nat) (u : str) (config : Config) :
  steady (download_album schedule u config).
Proof.
  unfold download_album.
  destruct (negb (validate_url u)); [steady |].
  apply steady_bind; [steady |]. intros _.
  apply steady_bind; [apply steady_get_album_info |]. intros [album |]; [| steady].
  destruct (bool_decide (tracks album = [])); [steady |]. cbv zeta.
  apply steady_bind; [apply steady_make_output_dirs |]. intros _.
  apply steady_bind; [steady |]. intros _.
  destruct (max_threads config <=? 0); [steady |].
  apply steady_bind; [apply steady_run_pool |]. intros done. steady.
Qed.

Lemma steady_download_all `{Outside} (urls : list str) (config : Config) :
  forall schedules count, steady (download_all schedules urls config count).
Proof.
  induction urls as [| u urls IH]; intros schedules count; cbn [download_all].
  - steady.
  - apply steady_bind; [apply steady_download_album | intros ok; apply IH].
Qed.

Section AlbumPaths.
Context `{Outside}.
Variables (schedule : list nat) (u : str) (config : Config).

(** The paths on which [download_album] gives up before it touches the
    disk. *)
Lemma download_album_gives_up (w : World) :
  validate_url u = false
  \/ (forall album w0,
        get_album_info u config (logged [INFO] w) = (Ok (Some album), w0) ->
        tracks album = []) ->
  exists w',
    download_album schedule u config w = (Ok false, w')
    /\ files w' = files w
    /\ (exists l, log w' = ERROR :: l)
    /\ (validate_url u = false -> w' = logged [ERROR] w).
Proof.
  intros Hcase. unfold download_album.
  destruct (validate_url u) eqn:Hv; cbn [negb].
  - destruct Hcase as [Hno | Hempty]; [discriminate Hno |].
    unfold bind at 1, logger at 1. change (logger INFO w) with (Ok tt, logged [INFO] w).
    cbn iota.
    destruct (get_album_info_cases u config (logged [INFO] w))
      as (r & w0 & n & E & _ & (_ & _ & Ef) & _).
    rewrite (bind_ok _ _ _ _ _ E).
    assert (Hend : exists w', (Ok false, logged [ERROR] w0) = (Ok false, w')
               /\ files w' = files w /\ (exists l, log w' = ERROR :: l)
               /\ (true = false -> w' = logged [ERROR] w)).
    { exists (logged [ERROR] w0). split; [reflexivity |]. split; [exact Ef |].
      split; [exists (log w0); reflexivity | discriminate]. }
    destruct r as [album |]; [| exact Hend].
    rewrite bool_decide_eq_true_2 by (apply (Hempty album w0 E)). exact Hend.
  - exists (logged [ERROR] w). split; [reflexivity |]. split; [reflexivity |].
    split; [exists (log w); reflexivity | reflexivity].
Qed.

(** Up to the executor. *)
Lemma download_album_prepared (w w0 : World) (album : album_info) :
  validate_url u = true ->
  get_album_info u config (logged [INFO] w) = (Ok (Some album), w0) ->
  tracks album <> [] ->
  download_album schedule u config w
  = bind (make_output_dirs config (path_join (output_directory config) (title album)))
      (fun _ =>
         run logger INFO;
         if max_threads config <=? 0 then raise (OtherError "ValueError")
         else
           do done <- run_pool schedule album
                        (path_join (output_directory config) (title album)) config
                        (submit (tracks album));
           run logger INFO;
           ret (Nat.eqb (count_successes done (length (tracks album)))
                  (length (tracks album)))) w0.
Proof.
  intros Hv Hinfo Htracks. unfold download_album. rewrite Hv. cbn [negb].
  unfold bind at 1, logger at 1. change (logger INFO w) with (Ok tt, logged [INFO] w).
  cbn iota. rewrite (bind_ok _ _ _ _ _ Hinfo).
  rewrite bool_decide_eq_false_2 by assumption. reflexivity.
Qed.
End AlbumPaths.

(** X17. [download_album] deletes nothing and takes no request back: every
    path that was on disk before the call is on disk after it, whatever it
    returns or raises. *)
Theorem download_album_never_deletes `{Outside}
    (schedule : list nat) (album_url : str) (config : Config) (w : World) (p : str) :
  is_Some (files w !! p) ->
  is_Some (files (snd (download_album schedule album_url config w)) !! p)
  /\ exists more,
       requests (snd (download_album schedule album_url config w)) = more ++ requests w.
Proof.
  intros Hp. destruct (steady_download_album schedule album_url config w) as [Hf Hr].
  split; [apply Hf, Hp | exact Hr].
Qed.

(** X18. When the URL is not valid, or the album page cannot be fetched or
    parsed, or it lists no track, [download_album] returns [False] after an
    error line and the disk is as it was: no directory is created.  For a
    URL that is not valid nothing is requested either. *)
Theorem download_album_refuses `{Outside}
    (schedule : list nat) (album_url : str) (config : Config) (w : World) :
  validate_url album_url = false
  \/ (forall album w0,
        get_album_info album_url config (logged [INFO] w) = (Ok (Some album), w0) ->
        tracks album = []) ->
  exists w',
    download_album schedule album_url config w = (Ok false, w')
    /\ files w' = files w
    /\ complained w'
    /\ (validate_url album_url = false -> requests w' = requests w).
Proof.
  intros Hcase.
  destruct (download_album_gives_up schedule album_url config w Hcase)
    as (w' & E & Ef & (l & El) & Hw).
  exists w'. split; [exact E |]. split; [exact Ef |].
  split; [exists ERROR, l; split; [exact El | discriminate] |].
  intros Hv. rewrite (Hw Hv). reflexivity.
Qed.

(** X19. With [retry_attempts] zero or less nothing is ever requested:
    [download_album] returns [False] for every URL, the disk and the
    requests as they were. *)
Theorem download_album_without_attempts `{Outside}
    (schedule : list nat) (album_url : str) (config : Config) (w : World) :
  retry_attempts config <= 0 ->
  exists w',
    download_album schedule album_url config w = (Ok false, w')
    /\ requests w' = requests w /\ files w' = files w /\ sleeps w' = sleeps w.
Proof.
  intros Hrc.
  assert (Hinfo : forall w1, get_album_info album_url config w1 = (Ok None, logged [ERROR] w1)).
  { intros w1. unfold get_album_info, safe_request.
    replace (Z.to_nat (retry_attempts config)) with O by lia. reflexivity. }
  destruct (download_album_gives_up schedule album_url config w) as (w' & E & Ef & _ & Hw).
  { right. intros album w0 Ea. rewrite Hinfo in Ea. discriminate Ea. }
  exists w'. split; [exact E |].
  unfold download_album in E. destruct (validate_url album_url); cbn [negb] in E.
  - unfold bind at 1, logger at 1 in E. change (logger INFO w) with (Ok tt, logged [INFO] w) in E.
    cbn iota in E. rewrite (bind_ok _ _ _ _ _ (Hinfo (logged [INFO] w))) in E.
    injection E as <-. repeat split.
  - injection E as <-. repeat split.
Qed.

(** X20. Two exceptions get out of [download_album] once the album is known
    and has tracks: the one [os.makedirs] raises when the output directory
    cannot be created, and the [ValueError] of the executor when
    [max_threads] is zero or less, raised after the directories were made
    and before any track is requested. *)
Theorem download_album_raises `{Outside}
    (schedule : list nat) (album_url : str) (config : Config)
    (w w0 : World) (album : album_info) :
  validate_url album_url = true ->
  get_album_info album_url config (logged [INFO] w) = (Ok (Some album), w0) ->
  tracks album <> [] ->
  (files w0 !! output_directory config = None ->
   can_mkdir (output_directory config) = false ->
   download_album schedule album_url config w = (Raise (OtherError "OSError"), w0))
  /\ (forall w1,
        make_output_dirs config (path_join (output_directory config) (title album)) w0
        = (Ok tt, w1) ->
        max_threads config <= 0 ->
        download_album schedule album_url config w
        = (Raise (OtherError "ValueError"), logged [INFO] w1)
        /\ requests w1 = requests w0).
Proof.
  intros Hv Hinfo Htracks.
  rewrite (download_album_prepared schedule album_url config w w0 album Hv Hinfo Htracks).
  split.
  - intros Hf Hmk. apply bind_raise. unfold make_output_dirs.
    unfold bind at 1, path_exists at 1. cbv beta iota.
    rewrite bool_decide_eq_false_2 by (rewrite Hf; intros [x Hx]; discriminate Hx).
    apply bind_raise. unfold makedirs. rewrite Hf, Hmk. reflexivity.
  - intros w1 Hdirs Hthreads. split.
    + rewrite (bind_ok _ _ _ _ _ Hdirs). unfold bind at 1, logger at 1. cbn iota.
      destruct (Z.leb_spec (max_threads config) 0); [reflexivity | lia].
    + revert Hdirs. unfold make_output_dirs, bind, path_exists, makedirs, ret.
      cbv beta iota.
      repeat match goal with
             | |- context [bool_decide ?P] => destruct (bool_decide P)
             | |- context [can_mkdir ?q] => destruct (can_mkdir q)
             | |- context [files ?x !! ?q] => destruct (files x !! q)
             | |- _ = _ -> _ => intros [= <-]; reflexivity
             | |- _ = _ -> _ => intros [=]
             end.
Qed.

(* ===================================================================== *)
(** * The loop over the albums *)
(* ===================================================================== *)

Section Run.
Context `{Outside}.
Variable config : Config.

Lemma download_all_bound (urls : list str) :
  forall schedules count w n w',
    download_all schedules urls config count w = (Ok n, w') ->
    (count <= n <= count + length urls)%nat.
Proof.
  induction urls as [| u urls IH]; intros schedules count w n w'; cbn [download_all].
  - intros [= <- _]. cbn. lia.
  - unfold bind at 1.
    destruct (download_album (hd [] schedules) u config w) as [[ok | e] w1]; [| intros [=]].
    intros E. apply IH in E. cbn [length]. destruct ok; lia.
Qed.

Lemma logged_logged (l1 l2 : list level) (w : World) :
  logged l1 (logged l2 w) = logged (l1 ++ l2) w.
Proof. unfold logged. cbn. rewrite app_assoc. reflexivity. Qed.

Lemma download_all_invalid (urls : list str) :
  Forall (fun u => validate_url u = false) urls ->
  forall schedules count w,
    download_all schedules urls config count w
    = (Ok count, logged (repeat ERROR (length urls)) w).
Proof.
  induction 1 as [| u urls Hu _ IH]; intros schedules count w; cbn [download_all].
  - destruct w; reflexivity.
  - assert (E : download_album (hd [] schedules) u config w = (Ok false, logged [ERROR] w))
      by (unfold download_album; rewrite Hu; reflexivity).
    rewrite (bind_ok _ _ _ _ _ E), IH, logged_logged. cbn [length].
    rewrite <- repeat_cons. reflexivity.
Qed.
End Run.

(** X21. The number of albums [main] reports as successful is at most the
    number of URLs, and nothing on disk is lost on the way; URLs that are
    not valid are each refused with an error line, without a request, and
    count for nothing; and an exception that gets out of one album ends
    the run before the albums after it. *)
Theorem process_urls_counts `{Outside}
    (schedules : list (list nat)) (urls : list str) (config : Config) (w : World) :
  (forall n w',
     process_urls schedules urls config w = (Ok n, w') ->
     (n <= length urls)%nat /\ grows w w')
  /\ (Forall (fun u => validate_url u = false) urls ->
      process_urls schedules urls config w
      = (Ok O, logged (INFO :: repeat ERROR (length urls)) w))
  /\ (forall u rest e w1,
        urls = u :: rest ->
        download_album (hd [] schedules) u config w = (Raise e, w1) ->
        process_urls schedules urls config w = (Raise e, w1)).
Proof.
  split; [| split].
  - intros n w' E. split.
    + unfold process_urls in E. unfold bind at 1 in E.
      destruct (download_all schedules urls config 0 w) as [[k | e] w1] eqn:Ea;
        [| discriminate E].
      apply download_all_bound in Ea. injection E as <- _. lia.
    + assert (Hs : steady (process_urls schedules urls config)).
      { unfold process_urls. apply steady_bind; [apply steady_download_all |].
        intros k. steady. }
      specialize (Hs w). rewrite E in Hs. exact Hs.
  - intros Hall. unfold process_urls.
    rewrite (bind_ok _ _ _ _ _ (download_all_invalid config urls Hall schedules O w)).
    reflexivity.
  - intros u rest e w1 -> E. unfold process_urls. cbn [download_all].
    apply bind_raise, bind_raise, E.
Qed.

(* ===================================================================== *)
(** * The configuration file, once more *)
(* ===================================================================== *)

(** X22. A configuration file that holds the dictionary [load_config]
    returned gives that dictionary back, and so does one that holds all
    six documented keys: the defaults fill gaps, they never replace a
    stored value. *)
Theorem load_config_stable (home : str) (f : config_file) (o : gmap str json) :
  load_config home (Object (fst (load_config home f))) = (fst (load_config home f), [])
  /\ ((forall k, is_Some (DEFAULT_CONFIG home !! k) -> is_Some (o !! k)) ->
      load_config home (Object o) = (o, [])).
Proof.
  assert (Hfull : forall m : gmap str json,
            (forall k, is_Some (DEFAULT_CONFIG home !! k) -> is_Some (m !! k)) ->
            dict_update (DEFAULT_CONFIG home) m = m).
  { intros m Hm. unfold dict_update. apply map_eq. intros k. rewrite lookup_union.
    destruct (m !! k) as [v |] eqn:Ek, (DEFAULT_CONFIG home !! k) as [d |] eqn:Ed;
      try reflexivity.
    destruct (Hm k) as [x Hx]; [rewrite Ed; eauto | congruence]. }
  split.
  - cbn [load_config]. f_equal. apply Hfull. intros k Hk.
    destruct f as [| | m]; cbn [load_config fst]; try exact Hk.
    unfold dict_update. rewrite lookup_union. destruct Hk as [d Hd]. rewrite Hd.
    destruct (m !! k); cbn; eauto.
  - intros Ho. cbn [load_config]. f_equal. apply Hfull, Ho.
Qed.

(* ===================================================================== *)
(** * Where a track is written *)
(* ===================================================================== *)

Lemma startswith_app (p s t : str) : startswith p s = true -> startswith p (s ++ t) = true.
Proof.
  rewrite !startswith_spec. intros [x ->]. exists (x ++ t). rewrite app_assoc. reflexivity.
Qed.

Lemma path_join_under (a b : str) :
  startswith [slash] b = false -> startswith a (path_join a b) = true.
Proof.
  intros Hb. unfold path_join. rewrite Hb. apply startswith_spec.
  destruct (bool_decide (a = []) || endswith [slash] a); eauto.
Qed.

(** X23. With the track number in front, the path of a track begins with the
    album directory.  Without it, a track whose catalog name begins with
    [/] is written at that name: [os.path.join] drops the directory. *)
Theorem track_path_and_directory
    (t : track) (info : track_info) (dir : str) (config : Config) (n : option Z) :
  (forall k, include_track_number config = true ->
             startswith dir (file_path_of t info dir config (Some k)) = true)
  /\ (include_track_number config = false \/ n = None ->
      startswith [slash] (name t) = true ->
      file_path_of t info dir config n = name t ++ lit "." ++ ti_format info).
Proof.
  split.
  - intros k Hinc. unfold file_path_of, track_filename_of. rewrite Hinc.
    apply path_join_under.
    destruct (format_02d_head k) as (c & rest & -> & Hc).
    cbn [app startswith]. rewrite Hc. reflexivity.
  - intros Hoff Hname. unfold file_path_of.
    assert (Ef : track_filename_of t config n = name t).
    { unfold track_filename_of. destruct Hoff as [-> | ->]; [destruct n |]; reflexivity. }
    rewrite Ef. unfold path_join. rewrite (startswith_app _ _ _ Hname). reflexivity.
Qed.

(** X24. A track number from 0 to 99 is written with two digits, so the
    first ninety-nine tracks of an album get names of the form
    [NN - name]. *)
Theorem track_number_two_digits (t : track) (config : Config) (n : Z) :
  0 <= n < 100 ->
  format_02d n = [digit (n / 10); digit (n mod 10)]
  /\ (include_track_number config = true ->
      track_filename_of t config (Some n)
      = digit (n / 10) :: digit (n mod 10) :: lit " - " ++ name t).
Proof.
  intros Hn.
  assert (Hf : forall k : nat, (k < 100)%nat ->
            format_02d (Z.of_nat k)
            = [digit (Z.of_nat k / 10); digit (Z.of_nat k mod 10)]).
  { intros k Hk. do 100 (destruct k as [| k]; [vm_compute; reflexivity |]). lia. }
  assert (E : format_02d n = [digit (n / 10); digit (n mod 10)]).
  { rewrite <- (Z2Nat.id n) by lia. apply Hf. lia. }
  split; [exact E |].
  intros Hinc. unfold track_filename_of. rewrite Hinc, E. reflexivity.
Qed.

(* ===================================================================== *)
(** * The catalog, once more *)
(* ===================================================================== *)

Section MoreExamples.
#[local] Existing Instance example_outside.

Lemma collect_urls_lines_witness :
  exists urls w',
    collect_urls example_args example_input (world_with_file (lit "albums.txt") 40)
    = (Ok urls, w')
    /\ In (lit "https://x/album/one") urls /\ In (lit "two") urls
    /\ log w' = [].
Proof.
  destruct (collect_urls_lines example_args example_input
              (world_with_file (lit "albums.txt") 40))
    as (given & from_file & w' & E & _ & _ & _ & Hlog & _ & _ & _ & _ & Hfile).
  destruct (Hfile (lit "albums.txt") eq_refl) as [_ Hin].
  { unfold world_with_file. cbn [files]. rewrite lookup_singleton_eq. eauto. }
  { discriminate. }
  exists (given ++ from_file), w'. split; [exact E |].
  split; [| split; [| rewrite Hlog, andb_false_r; reflexivity]]; apply in_or_app; right.
  - apply (Hin (lit "  https://x/album/one  ")); [cbn; auto |].
    split; [discriminate | reflexivity].
  - apply (Hin (lit "two")); [cbn; auto 6 |].
    split; [discriminate | reflexivity].
Defined.

Lemma get_album_info_tracks_witness :
  album_url example_album = example_album_url
  /\ Forall catalog_track example_tracks.
Proof.
  destruct (get_album_info_tracks (H := example_outside)
              example_album_url example_config empty_world
              (snd (get_album_info example_album_url example_config empty_world))
              example_album)
    as (Hu & Ht & _); [reflexivity |].
  split; [exact Hu | exact Ht].
Defined.

Lemma resolved_candidate_is_quoted_witness :
  quoted_url (lit "https://x/a%20b.flac")
  /\ (lit "flac" ∈ [lit "flac"; lit "mp3"] \/ lit "flac" = lit "mp3").
Proof.
  apply (resolved_candidate_is_quoted (H := example_outside)
           (lit "https://downloads.khinsider.com/t/one.mp3") [lit "flac"; lit "mp3"]
           empty_world
           (snd (get_track_download_url (lit "https://downloads.khinsider.com/t/one.mp3")
                   [lit "flac"; lit "mp3"] empty_world))
           {| ti_url := lit "https://x/a%20b.flac"; ti_format := lit "flac";
              ti_title := lit "First"; ti_size := 10 |}).
  reflexivity.
Defined.

Lemma audio_fallback_without_flac_witness :
  resolve_page (lit "https://downloads.khinsider.com/t/c%20d.mp3") [lit "ogg"]
    example_audio_page empty_world
  = (Ok (Some {| ti_url := lit "https://x/m.mp3/c%20d.mp3"; ti_format := lit "mp3";
                 ti_title := lit "c d"; ti_size := 0 |}), empty_world).
Proof.
  rewrite (audio_fallback_without_flac (H := example_outside)
             (lit "https://downloads.khinsider.com/t/c%20d.mp3") [lit "ogg"]
             example_audio_page empty_world).
  - reflexivity.
  - reflexivity.
  - rewrite list_elem_of_singleton. lit_ne.
Defined.

Lemma download_file_accepts_witness :
  exists w',
    download_file (lit "https://x/page") (lit "out/page.mp3") 0 3 5 empty_world
    = (Ok (Some true), w')
    /\ requests w' = [lit "https://x/page"]
    /\ files w' !! lit "out/page.mp3" = Some (File 0).
Proof.
  destruct (download_file_accepts (H := example_outside)
              (lit "https://x/page") (lit "out/page.mp3") 0 3 5 empty_world
              page_response [])
    as (w' & E & Er & _ & Ef).
  - lia.
  - reflexivity.
  - reflexivity.
  - constructor.
  - exact I.
  - reflexivity.
  - discriminate.
  - left. reflexivity.
  - exists w'. split; [exact E |]. split; [exact Er | exact Ef].
Defined.

Lemma download_file_cannot_open_witness :
  (exists w',
     download_file (lit "https://x/two.flac") (lit "out/Demo_ OST/02 - AC/DC?.flac")
       10 3 5 empty_world
     = (Ok (Some false), w')
     /\ requests w' = repeat (lit "https://x/two.flac") 3
     /\ files w' = ∅)
  /\ fst (download_file (lit "https://x/two.flac") (lit "out/Demo_ OST/02 - AC/DC?.flac")
            10 3 (-1) empty_world)
     = Raise (OtherError "ValueError").
Proof.
  split.
  - destruct (download_file_cannot_open (H := example_outside)
                (lit "https://x/two.flac") (lit "out/Demo_ OST/02 - AC/DC?.flac")
                10 3 5 empty_world)
      as (Hreturns & _).
    + lia.
    + reflexivity.
    + reflexivity.
    + intros i _. exists complete_response. reflexivity.
    + destruct (Hreturns (or_introl eq_refl)) as (w' & E & Er & _ & Ef).
      exists w'. split; [exact E |]. split; [| exact Ef].
      rewrite Er. cbn [empty_world requests]. rewrite app_nil_r. reflexivity.
  - destruct (download_file_cannot_open (H := example_outside)
                (lit "https://x/two.flac") (lit "out/Demo_ OST/02 - AC/DC?.flac")
                10 3 (-1) empty_world)
      as (_ & Hraises & _).
    + lia.
    + reflexivity.
    + reflexivity.
    + intros i _. exists complete_response. reflexivity.
    + rewrite (Hraises (OtherError "ValueError") eq_refl ltac:(lia)). reflexivity.
Defined.

Lemma download_album_never_deletes_witness :
  is_Some
    (files (snd (download_album [] example_album_url example_config
                   (world_with_file (lit "notes.txt") 12)))
     !! lit "notes.txt").
Proof.
  apply (download_album_never_deletes (H := example_outside)
           [] example_album_url example_config
           (world_with_file (lit "notes.txt") 12) (lit "notes.txt")).
  unfold world_with_file. cbn [files]. rewrite lookup_singleton_eq. eauto.
Defined.

Lemma download_album_refuses_witness :
  exists w',
    download_album [] (lit "https://example.org/album/demo") example_config empty_world
    = (Ok false, w')
    /\ files w' = ∅ /\ requests w' = [].
Proof.
  destruct (download_album_refuses (H := example_outside)
              [] (lit "https://example.org/album/demo") example_config empty_world)
    as (w' & E & Ef & _ & Hr).
  - left. reflexivity.
  - exists w'. split; [exact E |]. split; [exact Ef | apply Hr; reflexivity].
Defined.

Lemma download_album_without_attempts_witness :
  exists w',
    download_album [] example_album_url no_attempt_config empty_world = (Ok false, w')
    /\ requests w' = [] /\ files w' = ∅.
Proof.
  destruct (download_album_without_attempts (H := example_outside)
              [] example_album_url no_attempt_config empty_world)
    as (w' & E & Er & Ef & _).
  - cbn. lia.
  - exists w'. split; [exact E |]. split; [exact Er | exact Ef].
Defined.

Lemma download_album_raises_witness :
  exists w',
    download_album [] example_album_url idle_config empty_world
    = (Raise (OtherError "ValueError"), w')
    /\ is_Some (files w' !! lit "out/Demo_ OST").
Proof.
  pose (w0 := snd (get_album_info example_album_url idle_config
                     (logged [INFO] empty_world))).
  pose (w1 := snd (make_output_dirs idle_config (lit "out/Demo_ OST") w0)).
  destruct (download_album_raises (H := example_outside)
              [] example_album_url idle_config empty_world w0 example_album)
    as [_ Hvalue].
  - reflexivity.
  - reflexivity.
  - discriminate.
  - destruct (Hvalue w1) as [E _].
    + reflexivity.
    + cbn. lia.
    + exists (logged [INFO] w1). split; [exact E |].
      vm_compute. eauto.
Defined.

Lemma track_number_two_digits_witness :
  format_02d 7 = [digit 0; digit 7]
  /\ track_filename_of {| name := lit "One"; url := [] |} example_config (Some 7)
     = lit "07 - One".
Proof.
  destruct (track_number_two_digits {| name := lit "One"; url := [] |} example_config 7)
    as [Ef Et]; [lia |].
  split; [exact Ef | apply Et; reflexivity].
Defined.
End MoreExamples.

(* ===================================================================== *)
(** * The size next to a link *)
(* ===================================================================== *)

Lemma split_from_first (sep s : str) :
  forall cur, exists tail rest, split_from sep s O cur = (rev cur ++ tail) :: rest.
Proof.
  induction s as [| c s IH]; intros cur; cbn [split_from].
  - exists [], []. rewrite app_nil_r. reflexivity.
  - destruct (startswith sep (c :: s)).
    + exists [], (split_from sep s (length sep - 1) []). rewrite app_nil_r. reflexivity.
    + destruct (IH (c :: cur)) as (tail & rest & ->). exists (c :: tail), rest.
      cbn [rev]. rewrite <- app_assoc. reflexivity.
Qed.

(** A text that does not hold the first character of the separator goes
    to the piece being read. *)
Lemma split_from_through (s0 : char) (sep' a b : str) :
  Forall (fun x => char_eqb s0 x = false) a ->
  forall cur,
    split_from (s0 :: sep') (a ++ b) O cur = split_from (s0 :: sep') b O (rev a ++ cur).
Proof.
  induction 1 as [| x a Hx _ IH]; intros cur; [reflexivity |].
  cbn [app split_from startswith]. rewrite Hx. cbn [andb]. rewrite IH.
  cbn [rev]. rewrite <- app_assoc. reflexivity.
Qed.

Lemma split_from_at (sep rest : str) (cur : str) :
  sep <> [] ->
  split_from sep (sep ++ rest) O cur = rev cur :: split_from sep rest O [].
Proof.
  intros Hsep. destruct sep as [| s0 sep']; [contradiction |].
  cbn [app split_from].
  assert (Hs : startswith (s0 :: sep') (s0 :: sep' ++ rest) = true)
    by (apply startswith_spec; exists rest; reflexivity).
  rewrite Hs, split_from_skip. cbn [length]. rewrite Nat.sub_succ, Nat.sub_0_r.
  rewrite drop_app_length. reflexivity.
Qed.

Section Sizes.
Context `{Outside}.

Lemma size_char_paren (c : char) : size_char c -> char_eqb (chr 40) c = false.
Proof. intros [_ Hc]. unfold char_eqb. apply Z.eqb_neq. cbn. congruence. Qed.

Lemma size_char_space (c : char) : size_char c -> char_eqb (chr 32) c = false.
Proof. intros [Hc _]. unfold char_eqb. apply Z.eqb_neq. cbn. congruence. Qed.

(** X25. The size of a candidate is the number between the first [(] of the
    text around the link and the [ MB] that follows it, as [float] reads
    it, and zero when [float] refuses it; a text with [MB] but without [(]
    gives zero, and so does a link without a parent. *)
Theorem link_size_parsed (link : dlink) :
  (forall before number after,
     a_parent link = Some (before ++ lit "(" ++ number ++ lit " MB" ++ after) ->
     contains (lit "(") before = false ->
     Forall size_char number ->
     link_size link = match float_of number with Some q => q | None => 0%Q end)
  /\ (forall around,
        a_parent link = Some around -> contains (lit "(") around = false ->
        link_size link = 0%Q)
  /\ (a_parent link = None -> link_size link = 0%Q).
Proof.
  split; [| split].
  - intros before number after Hp Hb Hn. unfold link_size. rewrite Hp.
    assert (Hmb : contains (lit "MB")
                    (before ++ lit "(" ++ number ++ lit " MB" ++ after) = true).
    { apply contains_spec. exists (before ++ lit "(" ++ number ++ lit " "), after.
      rewrite <- !app_assoc. reflexivity. }
    rewrite Hmb. unfold str_split.
    assert (Eb : split_from (lit "(") (before ++ lit "(" ++ number ++ lit " MB" ++ after) O []
                 = before :: split_from (lit "(") (number ++ lit " MB" ++ after) O []).
    { assert (Hthrough : Forall (fun x => char_eqb (chr 40) x = false) before).
      { clear -Hb. change (lit "(") with [chr 40] in Hb.
        induction before as [| x before IH]; [constructor |].
        cbn [contains startswith] in Hb. apply orb_false_iff in Hb.
        destruct Hb as [Hx Hb]. rewrite andb_true_r in Hx.
        constructor; [exact Hx | apply IH, Hb]. }
      change (lit "(") with [chr 40] at 1 2.
      rewrite (split_from_through (chr 40) [] before _ Hthrough).
      change [chr 40] with (lit "(") at 2.
      rewrite (split_from_at (lit "(") _ _ ltac:(discriminate)).
      rewrite app_nil_r, rev_involutive. reflexivity. }
    rewrite Eb.
    assert (Hnum : Forall (fun x => char_eqb (chr 40) x = false) (number ++ lit " MB")).
    { apply Forall_app. split.
      - eapply Forall_impl; [exact Hn | apply size_char_paren].
      - repeat constructor. }
    change (lit "(") with [chr 40]. rewrite (app_assoc number).
    rewrite (split_from_through (chr 40) [] (number ++ lit " MB") after Hnum).
    destruct (split_from_first [chr 40] after (rev (number ++ lit " MB") ++ []))
      as (tail & rest & ->).
    rewrite app_nil_r, rev_involutive, <- app_assoc.
    assert (Hsp : Forall (fun x => char_eqb (chr 32) x = false) number)
      by (eapply Forall_impl; [exact Hn | apply size_char_space]).
    change (lit " MB") with (chr 32 :: lit "MB") at 1.
    rewrite (split_from_through (chr 32) (lit "MB") number _ Hsp).
    change (chr 32 :: lit "MB") with (lit " MB").
    rewrite (split_from_at (lit " MB") _ _ ltac:(discriminate)).
    rewrite app_nil_r, rev_involutive. reflexivity.
  - intros around Hp Hno. unfold link_size. rewrite Hp.
    destruct (contains (lit "MB") around); [| reflexivity].
    unfold str_split. rewrite (split_from_absent _ _ [] Hno). reflexivity.
  - intros Hp. unfold link_size. rewrite Hp. reflexivity.
Qed.
End Sizes.

(* ===================================================================== *)
(** * URLs that normalization leaves alone *)
(* ===================================================================== *)

Lemma quote_kept (bs : list Z) :
  Forall kept_code bs -> flat_map (quote_byte [47; 58]) bs = bs.
Proof.
  induction 1 as [| b bs Hb _ IH]; [reflexivity |].
  cbn [flat_map]. rewrite IH. unfold quote_byte.
  destruct Hb as [-> | [-> | ->]]; [reflexivity | |];
    (destruct (always_safe _); reflexivity).
Qed.

Lemma kept_code_ascii (b : Z) : kept_code b -> is_ascii_code b /\ b <> 37.
Proof.
  intros [Hs | [-> | ->]]; [apply always_safe_ascii, Hs | |]; unfold is_ascii_code; lia.
Qed.

(** X26. Normalization changes nothing in a URL that [quote] produced, its
    [%25] included, nor in a URL made of unreserved characters, [/] and
    [:] only. *)
Theorem normalize_url_fixed (s : str) :
  normalize_url (quote (lit "/:") s) = quote (lit "/:") s
  /\ (Forall kept_code (codes s) -> normalize_url s = s).
Proof.
  split.
  - unfold normalize_url. rewrite unquote_quote; [reflexivity |].
    vm_compute. intros [E | [E | []]]; discriminate E.
  - intros Hk.
    assert (Hascii : Forall is_ascii_code (codes s))
      by (eapply Forall_impl; [exact Hk | intros b Hb; apply kept_code_ascii, Hb]).
    assert (Hno : ~ In 37 (codes s)).
    { intros Hin. rewrite Forall_forall in Hk.
      destruct (kept_code_ascii 37 (Hk 37 ltac:(apply list_elem_of_In, Hin))) as [_ Hne].
      apply Hne. reflexivity. }
    assert (Eu : unquote s = s).
    { unfold unquote. rewrite <- (chr_codes s).
      destruct (existsb (char_eqb (chr 37)) (map chr (codes s))) eqn:Ee; [| reflexivity].
      apply (percent_in (codes s) Hascii) in Ee. contradiction. }
    unfold normalize_url. rewrite Eu. unfold quote, quote_from_bytes.
    rewrite slash_colon. rewrite <- (chr_codes s) at 1.
    rewrite (utf8_encode_ascii (codes s) Hascii), (quote_kept _ Hk).
    apply chr_codes.
Qed.

Section SizeExamples.
#[local] Existing Instance example_outside.

Lemma link_size_parsed_witness :
  link_size {| a_text := lit "Click here to download as FLAC";
               a_href := Some (lit "https://x/a b.flac");
               a_parent := Some (lit "Click here to download as FLAC (10.0 MB)") |}
  = 10%Q.
Proof.
  destruct (link_size_parsed (H := example_outside)
              {| a_text := lit "Click here to download as FLAC";
                 a_href := Some (lit "https://x/a b.flac");
                 a_parent := Some (lit "Click here to download as FLAC (10.0 MB)") |})
    as [Hparse _].
  rewrite (Hparse (lit "Click here to download as FLAC ") (lit "10.0") (lit ")")).
  - reflexivity.
  - reflexivity.
  - reflexivity.
  - repeat constructor; discriminate.
Defined.

Lemma normalize_url_fixed_witness :
  normalize_url (lit "https://x/a%2520b.mp3") = lit "https://x/a%2520b.mp3"
  /\ normalize_url (lit "https://x/a-b_c.mp3") = lit "https://x/a-b_c.mp3".
Proof.
  split.
  - apply (normalize_url_fixed (lit "https://x/a%20b.mp3")).
  - apply (normalize_url_fixed (lit "https://x/a-b_c.mp3")).
    let l := eval vm_compute in (codes (lit "https://x/a-b_c.mp3")) in
    change (codes (lit "https://x/a-b_c.mp3")) with l.
    repeat (constructor;
            [first [left; reflexivity | right; left; reflexivity | right; right; reflexivity] |]).
    constructor.
Defined.
End SizeExamples.
